(** * Account-state cache and commit layer ([state/state.go])

    A shallow embedding of package [state]: the per-address account cache,
    its storage overlay, the storage-phase marker, and the two-phase
    [Root] / [Commit] protocol over the global account trie and the
    per-account storage tries.

    The trie engine, the key/value store, the RLP codec and the hash
    helpers live in other packages; they are the fields of the class
    [Backend] below, so every statement holds for any implementation of
    them.  Go maps are iterated in an unspecified order: the loops of
    [Root], [Commit] and [updateStorage] take that order from a
    [MapOrder]. *)

From Stdlib Require Import ZArith Lia.
From Stdlib.Strings Require Import Byte.
From stdpp Require Import base option list gmap fin_maps.

#[local] Open Scope Z_scope.

(** ** Byte strings *)

Abbreviation bytes := (list byte).

(** Bytes are compared through their numbers. *)
#[global] Instance byte_eq_dec : EqDecision byte.
Proof.
  intros x y. destruct (N.eq_dec (Byte.to_N x) (Byte.to_N y)) as [H|H].
  - left. apply (f_equal Byte.of_N) in H. rewrite !Byte.of_to_N in H. congruence.
  - right. congruence.
Defined.

#[global] Program Instance byte_countable : Countable byte :=
  inj_countable Byte.to_N Byte.of_N _.
Next Obligation. intros x. apply Byte.of_to_N. Qed.

(** [bytes.TrimLeft(b, cutset)]: drop the leading bytes that occur in
    [cutset]. *)
Fixpoint TrimLeft (b : bytes) (cutset : bytes) : bytes :=
  match b with
  | [] => []
  | c :: b' => if decide (c ∈ cutset) then TrimLeft b' cutset else b
  end.

(** A Go [[]byte] may be [nil]; where the code tests for [nil] the slice is
    an [option bytes], and [slice] is the byte content either way. *)
Definition slice (b : option bytes) : bytes := default [] b.

(** ** Results of fallible calls: Go's [(value, err)] pairs *)

Inductive result (E A : Type) : Type :=
  | Ok (a : A)
  | Err (e : E).
Arguments Ok {E A} a.
Arguments Err {E A} e.

(** ** The persisted account record *)

Record account (H : Type) : Type := mkAccount {
  Balance : Z;
  CodeHash : H;
  StorageRoot : H;
}.
Arguments mkAccount {H} _ _ _.
Arguments Balance {H} _.
Arguments CodeHash {H} _.
Arguments StorageRoot {H} _.

(** ** The collaborators of package [state]

    [acc.Address], [cry.Hash], [Trie.SecureTrie], [kv.GetPutter], the RLP
    codec and Keccak are imported by [state.go]; the package only uses the
    operations listed here.  A trie handle is built over the store
    ([Trie.NewSecure(hash, kv, 0)]) and resolves its nodes from it, so the
    trie operations read the current store; only [Commit] of a trie and
    [Put] write it.  A mutating method returns the new value of the object
    it mutates next to its Go result; [TryGet] and [Hash] are reads. *)
Class Backend := {
  Address : Type;
  Hash : Type;
  SecureTrie : Type;
  GetPutter : Type;
  error : Type;
  #[global] Address_eq_dec :: EqDecision Address;
  #[global] Address_countable :: Countable Address;
  #[global] Hash_eq_dec :: EqDecision Hash;
  #[global] Hash_countable :: Countable Hash;
  (** [addr[:]] and [h[:]] *)
  addr_bytes : Address → bytes;
  hash_bytes : Hash → bytes;
  (** [cry.Hash{}] and [cry.BytesToHash] *)
  zeroHash : Hash;
  BytesToHash : bytes → Hash;
  (** [crypto.Keccak256] *)
  Keccak256 : bytes → bytes;
  (** [Trie.NewSecure(root, kv, 0)] *)
  NewSecure : Hash → GetPutter → result error SecureTrie;
  (** [t.TryGet(key)], [t.TryUpdate(key, value)], [t.TryDelete(key)],
      [t.Hash()], [t.Commit()] *)
  TryGet : GetPutter → SecureTrie → bytes → result error bytes;
  TryUpdate : GetPutter → SecureTrie → bytes → bytes → SecureTrie * option error;
  TryDelete : GetPutter → SecureTrie → bytes → SecureTrie * option error;
  TrieHash : SecureTrie → Hash;
  TrieCommit : GetPutter → SecureTrie → SecureTrie * GetPutter * result error Hash;
  (** [kv.Get(key)] and [kv.Put(key, value)] *)
  kvGet : GetPutter → bytes → result error (option bytes);
  kvPut : GetPutter → bytes → bytes → GetPutter * option error;
  (** [rlp.EncodeToBytes] on an [account] and on a byte string (the code
      drops the error of the latter), [rlp.DecodeBytes] into an [account],
      and the content part of [rlp.Split] *)
  rlpEncodeAccount : account Hash → result error bytes;
  rlpEncodeBytes : bytes → bytes;
  rlpDecodeAccount : bytes → result error (account Hash);
  rlpSplit : bytes → result error bytes;
}.

(** [type storage map[cry.Hash]cry.Hash] *)
Abbreviation storageT := (gmap Hash Hash).

Section State.
Context {B : Backend}.

(** ** Data model *)

Inductive storageStepT : Type :=
  | noStorage
  | storageSet
  | storageUpdated.

#[global] Instance storageStepT_eq_dec : EqDecision storageStepT.
Proof. solve_decision. Defined.

Record cachedAccount : Type := mkCached {
  isDirty : bool;
  storageStep : storageStepT;
  balance : Z;
  code : option bytes;
  codeHash : Hash;
  storageRoot : Hash;
  storage : storageT;
  storageTrie : option SecureTrie;
}.

(** [State]: the map holds pointers to the cached accounts; an account is
    named by its address, and a write through such a pointer is a write to
    the entry of the map. *)
Record State : Type := mkState {
  trie : SecureTrie;
  kv : GetPutter;
  cachedAccounts : gmap Address cachedAccount;
  err : option error;
}.

Definition set_trie (t : SecureTrie) (s : State) : State :=
  mkState t (kv s) (cachedAccounts s) (err s).
Definition set_kv (db : GetPutter) (s : State) : State :=
  mkState (trie s) db (cachedAccounts s) (err s).
Definition set_cachedAccounts (m : gmap Address cachedAccount) (s : State) : State :=
  mkState (trie s) (kv s) m (err s).
Definition set_err (e : option error) (s : State) : State :=
  mkState (trie s) (kv s) (cachedAccounts s) e.

(** [s.cachedAccounts[addr] = a] *)
Definition cache_put (addr : Address) (a : cachedAccount) (s : State) : State :=
  set_cachedAccounts (<[addr := a]> (cachedAccounts s)) s.

(** A field write through the pointer stored under [addr]. *)
Definition modify (addr : Address) (f : cachedAccount → cachedAccount) (s : State) : State :=
  set_cachedAccounts (alter f addr (cachedAccounts s)) s.

Definition set_isDirty (b : bool) (a : cachedAccount) : cachedAccount :=
  mkCached b (storageStep a) (balance a) (code a) (codeHash a) (storageRoot a)
           (storage a) (storageTrie a).
Definition set_storageStep (p : storageStepT) (a : cachedAccount) : cachedAccount :=
  mkCached (isDirty a) p (balance a) (code a) (codeHash a) (storageRoot a)
           (storage a) (storageTrie a).
Definition set_balance (z : Z) (a : cachedAccount) : cachedAccount :=
  mkCached (isDirty a) (storageStep a) z (code a) (codeHash a) (storageRoot a)
           (storage a) (storageTrie a).
Definition set_code (c : option bytes) (a : cachedAccount) : cachedAccount :=
  mkCached (isDirty a) (storageStep a) (balance a) c (codeHash a) (storageRoot a)
           (storage a) (storageTrie a).
Definition set_codeHash (h : Hash) (a : cachedAccount) : cachedAccount :=
  mkCached (isDirty a) (storageStep a) (balance a) (code a) h (storageRoot a)
           (storage a) (storageTrie a).
Definition set_storageRoot (h : Hash) (a : cachedAccount) : cachedAccount :=
  mkCached (isDirty a) (storageStep a) (balance a) (code a) (codeHash a) h
           (storage a) (storageTrie a).
Definition set_storage (m : storageT) (a : cachedAccount) : cachedAccount :=
  mkCached (isDirty a) (storageStep a) (balance a) (code a) (codeHash a) (storageRoot a)
           m (storageTrie a).
Definition set_storageTrie (t : option SecureTrie) (a : cachedAccount) : cachedAccount :=
  mkCached (isDirty a) (storageStep a) (balance a) (code a) (codeHash a) (storageRoot a)
           (storage a) t.

(** A call either returns a value and leaves a state, or panics (a nil
    pointer is dereferenced). *)
Inductive outcome (A : Type) : Type :=
  | Return (a : A) (s : State)
  | Panic.
Arguments Return {A} a s.
Arguments Panic {A}.

(** The iteration order of [range] over the two kinds of map. *)
Record MapOrder : Type := mkOrder {
  rangeAccounts : gmap Address cachedAccount → list Address;
  rangeStorage : storageT → list (Hash * Hash);
}.

(** [range] yields every entry of the map exactly once. *)
Definition order_ok (sc : MapOrder) : Prop :=
  (∀ m, rangeAccounts sc m ≡ₚ (map_to_list m).*1) ∧
  (∀ m, rangeStorage sc m ≡ₚ map_to_list m).

(** ** Construction and the fault flag *)

Definition New (root : Hash) (db : GetPutter) : result error State :=
  match NewSecure root db with
  | Err e => Err e
  | Ok secureTrie => Ok (mkState secureTrie db ∅ None)
  end.

Definition Error (s : State) : option error := err s.

(** ** Loading an account *)

Definition getAccount (addr : Address) (s : State) : result error cachedAccount * State :=
  match cachedAccounts s !! addr with
  | Some a => (Ok a, s)
  | None =>
    match TryGet (kv s) (trie s) (addr_bytes addr) with
    | Err e => (Err e, set_err (Some e) s)
    | Ok enc =>
      if decide (length enc = 0%nat) then
        let a := mkCached false noStorage 0 None (BytesToHash (Keccak256 []))
                          zeroHash ∅ None in
        (Ok a, cache_put addr a s)
      else
        match rlpDecodeAccount enc with
        | Err e => (Err e, s)
        | Ok data =>
          let dirtyAcc := mkCached false noStorage (Balance data) None (CodeHash data)
                                   (StorageRoot data) ∅ None in
          if decide (hash_bytes (codeHash dirtyAcc) = Keccak256 []) then
            (Ok dirtyAcc, cache_put addr dirtyAcc s)
          else
            match kvGet (kv s) (hash_bytes (codeHash dirtyAcc)) with
            | Err e => (Err e, s)
            | Ok c => (Ok (set_code c dirtyAcc), cache_put addr (set_code c dirtyAcc) s)
            end
        end
    end
  end.

(** ** Account operations *)

Definition GetBalance (addr : Address) (s : State) : Z * State :=
  match getAccount addr s with
  | (Err e, s1) => (0, set_err (Some e) s1)
  | (Ok a, s1) => (balance a, s1)
  end.

Definition SetBalance (addr : Address) (value : Z) (s : State) : State :=
  match getAccount addr s with
  | (Err e, s1) => set_err (Some e) s1
  | (Ok _, s1) => modify addr (λ a, set_balance value (set_isDirty true a)) s1
  end.

Definition GetCode (addr : Address) (s : State) : option bytes * State :=
  match getAccount addr s with
  | (Err e, s1) => (None, set_err (Some e) s1)
  | (Ok a, s1) => (code a, s1)
  end.

Definition SetCode (addr : Address) (c : option bytes) (s : State) : State :=
  match getAccount addr s with
  | (Err e, s1) => set_err (Some e) s1
  | (Ok _, s1) =>
    let h := BytesToHash (slice c) in
    let '(db, e) := kvPut (kv s1) (hash_bytes h) (slice c) in
    let s2 := set_kv db s1 in
    let s3 := match e with Some e' => set_err (Some e') s2 | None => s2 end in
    modify addr (λ a, set_code c (set_codeHash h (set_isDirty true a))) s3
  end.

Definition Exists (addr : Address) (s : State) : bool * State :=
  match cachedAccounts s !! addr with
  | Some _ => (true, s)
  | None =>
    match TryGet (kv s) (trie s) (addr_bytes addr) with
    | Err e => (false, set_err (Some e) s)
    | Ok enc => if decide (length enc = 0%nat) then (false, s) else (true, s)
    end
  end.

Definition Delete (address : Address) (s : State) : State :=
  let s1 := set_cachedAccounts (delete address (cachedAccounts s)) s in
  let '(t, e) := TryDelete (kv s1) (trie s1) (addr_bytes address) in
  let s2 := set_trie t s1 in
  match e with
  | Some e' => set_err (Some e') s2
  | None => s2
  end.

(** ** Storage operations *)

Definition SetStorage (addr : Address) (key value : Hash) (s : State) : State :=
  match getAccount addr s with
  | (Err e, s1) => set_err (Some e) s1
  | (Ok _, s1) =>
    modify addr (λ a, set_storage (<[key := value]> (storage a))
                        (set_storageStep storageSet a)) s1
  end.

(** [s.cachedAccounts[addr]] is dereferenced without a check. *)
Definition getTrie (addr : Address) (s : State) : outcome (result error SecureTrie) :=
  match cachedAccounts s !! addr with
  | None => Panic
  | Some a =>
    match storageTrie a with
    | Some t => Return (Ok t) s
    | None =>
      match NewSecure (storageRoot a) (kv s) with
      | Err e => Return (Err e) s
      | Ok secureTrie =>
        Return (Ok secureTrie) (modify addr (set_storageTrie (Some secureTrie)) s)
      end
    end
  end.

Definition GetStorage (addr : Address) (key : Hash) (s : State) : outcome Hash :=
  match cachedAccounts s !! addr ≫= (λ a, storage a !! key) with
  | Some value => Return value s
  | None =>
    match getAccount addr s with
    | (Err e, s1) => Return zeroHash (set_err (Some e) s1)
    | (Ok _, s1) =>
      match getTrie addr s1 with
      | Panic => Panic
      | Return (Err e) s2 => Return zeroHash (set_err (Some e) s2)
      | Return (Ok st) s2 =>
        match TryGet (kv s2) st (hash_bytes key) with
        | Err e => Return zeroHash (set_err (Some e) s2)
        | Ok enc =>
          if decide (length enc = 0%nat) then Return zeroHash s2
          else
            match rlpSplit enc with
            | Err e => Return zeroHash (set_err (Some e) s2)
            | Ok content =>
              let value := BytesToHash content in
              Return value
                (modify addr (λ a, set_storage (<[key := value]> (storage a)) a) s2)
            end
        end
      end
    end
  end.

(** ** Flushing the overlay into the storage trie

    [cachedAccount] in the source is the pointer stored under [addr] (the
    only call is [s.updateStorage(addr, account)] in [Root]), and [st] is
    the handle [account.storageTrie]: each [TryUpdate] mutates it in
    place.  When an update fails, the function assigns and returns [err],
    the nil error of [getTrie], not [e]. *)
Fixpoint updateStorageLoop (addr : Address) (l : list (Hash * Hash))
    (st : SecureTrie) (s : State) : (option SecureTrie * option error) * State :=
  match l with
  | [] => ((Some st, None), s)
  | (key, value) :: l' =>
    let v := rlpEncodeBytes (TrimLeft (hash_bytes value) [x00]) in
    let '(st', e) := TryUpdate (kv s) st (hash_bytes key) v in
    let s1 := modify addr (set_storageTrie (Some st')) s in
    match e with
    | Some _ => ((None, None), set_err None s1)
    | None =>
      updateStorageLoop addr l' st'
        (modify addr (λ a, set_storage (delete key (storage a)) a) s1)
    end
  end.

Definition updateStorage (sc : MapOrder) (addr : Address) (s : State)
    : outcome (option SecureTrie * option error) :=
  match getTrie addr s with
  | Panic => Panic
  | Return (Err e) s1 => Return (None, Some e) s1
  | Return (Ok st) s1 =>
    match cachedAccounts s1 !! addr with
    | None => Panic
    | Some a =>
      let '(r, s2) := updateStorageLoop addr (rangeStorage sc (storage a)) st s1 in
      Return r s2
    end
  end.

Definition updateAccount (address : Address) (a : cachedAccount) (s : State)
    : option error * State :=
  match rlpEncodeAccount (mkAccount (balance a) (codeHash a) (storageRoot a)) with
  | Err e => (Some e, s)
  | Ok enc =>
    let '(t, e) := TryUpdate (kv s) (trie s) (addr_bytes address) enc in
    let s1 := set_trie t s in
    match e with
    | Some e' => (Some e', set_err (Some e') s1)
    | None => (None, s1)
    end
  end.

Definition isEmpty (a : cachedAccount) : bool :=
  bool_decide (balance a = 0) && bool_decide (code a = None).

(** ** Root *)

(** How one pass of a loop body ends: fall through to the next entry,
    [return] from the enclosing function, or panic. *)
Inductive ctl : Type :=
  | Continue (s : State)
  | Break (s : State)
  | Crash.

(** Lines 325-334 of [Root]: the storage-sync transition.  [trie.Hash()]
    on the nil handle that [updateStorage] returns with a nil error is a
    nil-pointer dereference. *)
Definition RootSync (sc : MapOrder) (addr : Address) (s : State) : ctl :=
  match updateStorage sc addr s with
  | Panic => Crash
  | Return (_, Some e) s1 => Break (set_err (Some e) s1)
  | Return (None, None) s1 => Crash
  | Return (Some t, None) s1 =>
    Continue (modify addr (λ a, set_storageStep storageUpdated
                                  (set_isDirty true
                                     (set_storageRoot (TrieHash t) a))) s1)
  end.

(** Lines 335-341 of [Root]: write a dirty account into the global trie. *)
Definition RootFlush (addr : Address) (s : State) : ctl :=
  match cachedAccounts s !! addr with
  | None => Continue s
  | Some account =>
    if isDirty account then
      match updateAccount addr account s with
      | (Some e, s1) => Break (set_err (Some e) s1)
      | (None, s1) => Continue (modify addr (set_isDirty false) s1)
      end
    else Continue s
  end.

(** The body of the loop of [Root] for the entry under [addr].  [range]
    does not produce an entry that was deleted before it was reached. *)
Definition RootBody (sc : MapOrder) (addr : Address) (s : State) : ctl :=
  match cachedAccounts s !! addr with
  | None => Continue s
  | Some account =>
    if isEmpty account then Continue (Delete addr s)
    else
      match
        (match storageStep account with
         | storageSet => RootSync sc addr s
         | _ => Continue s
         end)
      with
      | Continue s1 => RootFlush addr s1
      | c => c
      end
  end.

Fixpoint RootLoop (sc : MapOrder) (l : list Address) (s : State) : ctl :=
  match l with
  | [] => Continue s
  | addr :: l' =>
    match RootBody sc addr s with
    | Continue s1 => RootLoop sc l' s1
    | c => c
    end
  end.

Definition Root (sc : MapOrder) (s : State) : outcome Hash :=
  match RootLoop sc (rangeAccounts sc (cachedAccounts s)) s with
  | Continue s1 => Return (TrieHash (trie s1)) s1
  | Break s1 => Return zeroHash s1
  | Crash => Panic
  end.

(** ** Commit *)

Definition CommitBody (addr : Address) (s : State) : ctl :=
  match cachedAccounts s !! addr with
  | None => Continue s
  | Some account =>
    match storageStep account with
    | storageUpdated =>
      match getTrie addr s with
      | Panic => Crash
      | Return (Err e) s1 => Break (set_err (Some e) s1)
      | Return (Ok st) s1 =>
        let '(st', db, r) := TrieCommit (kv s1) st in
        let s2 := set_kv db (modify addr (set_storageTrie (Some st')) s1) in
        match r with
        | Err e => Break (set_err (Some e) s2)
        | Ok _ => Continue (set_cachedAccounts (delete addr (cachedAccounts s2)) s2)
        end
      end
    | _ => Continue (set_cachedAccounts (delete addr (cachedAccounts s)) s)
    end
  end.

Fixpoint CommitLoop (l : list Address) (s : State) : ctl :=
  match l with
  | [] => Continue s
  | addr :: l' =>
    match CommitBody addr s with
    | Continue s1 => CommitLoop l' s1
    | c => c
    end
  end.

(** The digest of [s.Root()] is dropped; only a panic of it ends
    [Commit]. *)
Definition Commit (sc : MapOrder) (s : State) : outcome Hash :=
  match Root sc s with
  | Panic => Panic
  | Return _ s0 =>
    match CommitLoop (rangeAccounts sc (cachedAccounts s0)) s0 with
    | Crash => Panic
    | Break s1 => Return zeroHash s1
    | Continue s1 =>
      let '(t, db, r) := TrieCommit (kv s1) (trie s1) in
      let s2 := set_kv db (set_trie t s1) in
      match r with
      | Err e => Return zeroHash (set_err (Some e) s2)
      | Ok root => Return root s2
      end
    end
  end.

(** ** Sequences of mutations *)

Inductive mutation : Type :=
  | MSetBalance (addr : Address) (value : Z)
  | MSetStorage (addr : Address) (key value : Hash)
  | MSetCode (addr : Address) (c : option bytes).

Definition apply_mutation (m : mutation) (s : State) : State :=
  match m with
  | MSetBalance addr value => SetBalance addr value s
  | MSetStorage addr key value => SetStorage addr key value s
  | MSetCode addr c => SetCode addr c s
  end.

Definition apply_mutations (ms : list mutation) (s : State) : State :=
  foldl (λ s' m, apply_mutation m s') s ms.

(** Two iteration orders every map admits. *)
Definition ascending : MapOrder :=
  mkOrder (λ m, (map_to_list m).*1) map_to_list.
Definition descending : MapOrder :=
  mkOrder (λ m, reverse (map_to_list m).*1) (λ m, reverse (map_to_list m)).

(** ** Notions used by the statements *)

(** The pending value of [key] in the overlay of the account cached under
    [addr], if any. *)
Definition overlayAt (addr : Address) (key : Hash) (s : State) : option Hash :=
  cachedAccounts s !! addr ≫= (λ a, storage a !! key).

(** What [updateStorage] writes for a value. *)
Definition encValue (value : Hash) : bytes :=
  rlpEncodeBytes (TrimLeft (hash_bytes value) [x00]).

(** The storage trie after the entries of [l] are written in turn. *)
Definition pushAll (db : GetPutter) (st : SecureTrie) (l : list (Hash * Hash)) : SecureTrie :=
  foldl (λ t p, (TryUpdate db t (hash_bytes p.1) (encValue p.2)).1) st l.

(** Every one of those writes succeeds. *)
Fixpoint pushOk (db : GetPutter) (st : SecureTrie) (l : list (Hash * Hash)) : bool :=
  match l with
  | [] => true
  | p :: l' =>
    match TryUpdate db st (hash_bytes p.1) (encValue p.2) with
    | (st', None) => pushOk db st' l'
    | (_, Some _) => false
    end
  end.

(** The overlay after the keys of [l] are deleted from it. *)
Definition dropKeys (l : list (Hash * Hash)) (m : storageT) : storageT :=
  foldl (λ m' p, delete p.1 m') m l.

(** The storage-trie handle of an account as [getTrie] finds or opens it. *)
Definition handle (db : GetPutter) (a : cachedAccount) : result error SecureTrie :=
  match storageTrie a with
  | Some t => Ok t
  | None => NewSecure (storageRoot a) db
  end.

(** The account after the storage-sync transition from the handle [st0]. *)
Definition syncAccount (sc : MapOrder) (db : GetPutter) (st0 : SecureTrie)
    (a : cachedAccount) : cachedAccount :=
  let l := rangeStorage sc (storage a) in
  let st := pushAll db st0 l in
  mkCached true storageUpdated (balance a) (code a) (codeHash a) (TrieHash st)
           (dropKeys l (storage a)) (Some st).

(** The record [updateAccount] encodes for an account. *)
Definition recordOf (a : cachedAccount) : account Hash :=
  mkAccount (balance a) (codeHash a) (storageRoot a).

(** What a pass of [Root] over an account writes to the global trie. *)
Inductive trieWrite : Type :=
  | WNone
  | WDelete
  | WUpdate (enc : bytes).

Definition applyWrite (db : GetPutter) (k : bytes) (w : trieWrite) (t : SecureTrie)
    : SecureTrie :=
  match w with
  | WNone => t
  | WDelete => (TryDelete db t k).1
  | WUpdate enc => (TryUpdate db t k enc).1
  end.

Definition writeKind (sc : MapOrder) (db : GetPutter) (a : cachedAccount) : trieWrite :=
  if isEmpty a then WDelete
  else
    let a1 := match storageStep a with
              | storageSet =>
                match handle db a with
                | Ok st0 => syncAccount sc db st0 a
                | Err _ => a
                end
              | _ => a
              end in
    if isDirty a1 then
      match rlpEncodeAccount (recordOf a1) with
      | Ok enc => WUpdate enc
      | Err _ => WNone
      end
    else WNone.

Definition trieOp (sc : MapOrder) (db : GetPutter) (m : gmap Address cachedAccount)
    (t : SecureTrie) (addr : Address) : SecureTrie :=
  match m !! addr with
  | Some a => applyWrite db (addr_bytes addr) (writeKind sc db a) t
  | None => t
  end.

(** An account on which [Root] has nothing left to do. *)
Definition settled (a : cachedAccount) : Prop :=
  isEmpty a = false ∧ storageStep a ≠ storageSet ∧ isDirty a = false.

(** [Root] visits every entry and falls out of its loop with [s']. *)
Definition Root_completes (sc : MapOrder) (s s' : State) : Prop :=
  RootLoop sc (rangeAccounts sc (cachedAccounts s)) s = Continue s'.

(** ** Properties a backend may have

    None of them is assumed by the model; a theorem names the ones it
    needs. *)

(** Reads of a trie are stable under successful writes to other keys and
    under commits, and a deleted key reads as absent. *)
Record ReadLaws : Prop := {
  read_addr_inj : ∀ a1 a2, addr_bytes a1 = addr_bytes a2 → a1 = a2;
  read_delete_eq : ∀ db t k t',
    TryDelete db t k = (t', None) → TryGet db t' k = Ok [];
  read_delete_ne : ∀ db t k k' t',
    k ≠ k' → TryDelete db t k = (t', None) → TryGet db t' k' = TryGet db t k';
  read_update_ne : ∀ db t k v k' t',
    k ≠ k' → TryUpdate db t k v = (t', None) → TryGet db t' k' = TryGet db t k';
  read_commit_self : ∀ db t t' db' h k,
    TrieCommit db t = (t', db', Ok h) → TryGet db' t' k = TryGet db t k;
  read_commit_other : ∀ db t t' db' h t0 k,
    TrieCommit db t = (t', db', Ok h) → TryGet db' t0 k = TryGet db t0 k;
}.

(** No operation that [Root] and [Commit] perform reports an error. *)
Record FaultFree : Prop := {
  ff_NewSecure : ∀ h db, ∃ t, NewSecure h db = Ok t;
  ff_TryUpdate : ∀ db t k v, (TryUpdate db t k v).2 = None;
  ff_TryDelete : ∀ db t k, (TryDelete db t k).2 = None;
  ff_TrieCommit : ∀ db t, ∃ h, (TrieCommit db t).2 = Ok h;
  ff_rlpEncodeAccount : ∀ a, ∃ enc, rlpEncodeAccount a = Ok enc;
}.

(** The state of a trie is determined by its content: writes to distinct
    keys commute, and [Commit] reports the digest that [Hash] computes. *)
Record Canonical : Prop := {
  can_addr_inj : ∀ a1 a2, addr_bytes a1 = addr_bytes a2 → a1 = a2;
  can_hash_inj : ∀ h1 h2, hash_bytes h1 = hash_bytes h2 → h1 = h2;
  can_update_update : ∀ db t k1 v1 k2 v2, k1 ≠ k2 →
    (TryUpdate db (TryUpdate db t k1 v1).1 k2 v2).1 =
    (TryUpdate db (TryUpdate db t k2 v2).1 k1 v1).1;
  can_update_delete : ∀ db t k1 v1 k2, k1 ≠ k2 →
    (TryDelete db (TryUpdate db t k1 v1).1 k2).1 =
    (TryUpdate db (TryDelete db t k2).1 k1 v1).1;
  can_delete_delete : ∀ db t k1 k2, k1 ≠ k2 →
    (TryDelete db (TryDelete db t k1).1 k2).1 =
    (TryDelete db (TryDelete db t k2).1 k1).1;
  can_commit_digest : ∀ db t h, (TrieCommit db t).2 = Ok h → h = TrieHash t;
}.

End State.

Arguments Return {B A} a s.
Arguments Panic {B A}.
Arguments cachedAccount : clear implicits.
Arguments State : clear implicits.
Arguments MapOrder : clear implicits.
Arguments ReadLaws : clear implicits.
Arguments FaultFree : clear implicits.
Arguments Canonical : clear implicits.

(** ** Further notions and backend properties *)

Section Durability.
Context {B : Backend}.

(** [h] is the hash that [cry.BytesToHash] makes of its own bytes, as
    every value of the array type [cry.Hash] is. *)
Definition normal (h : Hash) : Prop := BytesToHash (hash_bytes h) = h.

(** A key written to a trie reads back as written, and [key[:]] is
    injective. *)
Record WriteLaws : Prop := {
  write_hash_inj : ∀ h1 h2, hash_bytes h1 = hash_bytes h2 → h1 = h2;
  write_update_eq : ∀ db t k v t',
    TryUpdate db t k v = (t', None) → TryGet db t' k = Ok v;
}.

(** A committed trie can be opened again from the digest [Commit]
    reports, over the store [Commit] leaves; committing a trie keeps the
    blobs of the store; and the account codec reads back what it wrote. *)
Record Durable : Prop := {
  dur_reopen : ∀ db t t' db' h,
    TrieCommit db t = (t', db', Ok h) →
    ∃ t2, NewSecure h db' = Ok t2 ∧ ∀ k, TryGet db' t2 k = TryGet db t k;
  dur_blobs : ∀ db t t' db' r k,
    TrieCommit db t = (t', db', r) → kvGet db' k = kvGet db k;
  dur_digest : ∀ t, normal (TrieHash t);
  dur_codec : ∀ r enc,
    normal (CodeHash r) → normal (StorageRoot r) →
    rlpEncodeAccount r = Ok enc →
    length enc ≠ 0%nat ∧ rlpDecodeAccount enc = Ok r;
}.

(** The store holds the code of [a] under its code hash, the way
    [getAccount] looks it up. *)
Definition codeStored (db : GetPutter) (a : cachedAccount B) : Prop :=
  if decide (hash_bytes (codeHash a) = Keccak256 []) then code a = None
  else kvGet db (hash_bytes (codeHash a)) = Ok (code a).

(** The account a pass of [Root] leaves for a non-empty entry [a]. *)
Definition passed (sc : MapOrder B) (db : GetPutter) (a a1 : cachedAccount B) : Prop :=
  match storageStep a with
  | storageSet =>
    ∃ st0, handle db a = Ok st0 ∧
           pushOk db st0 (rangeStorage sc (storage a)) = true ∧
           a1 = syncAccount sc db st0 a
  | _ => a1 = a
  end.

(** [a1] carries the record, the dirty flag and the storage phase of
    [a0]: they differ at most in the overlay and the trie handle. *)
Definition sameRecord (a0 a1 : cachedAccount B) : Prop :=
  isDirty a1 = isDirty a0 ∧ storageStep a1 = storageStep a0 ∧
  balance a1 = balance a0 ∧ code a1 = code a0 ∧
  codeHash a1 = codeHash a0 ∧ storageRoot a1 = storageRoot a0.

(** From [s] to [s'] no account became dirty or pending and no record
    changed: every entry of [s] is still there and carries the record it
    had, and an entry that is new is clean and without storage
    activity. *)
Definition quiet (s s' : State B) : Prop :=
  ∀ b,
    match cachedAccounts s !! b, cachedAccounts s' !! b with
    | Some a0, Some a1 => sameRecord a0 a1
    | Some _, None => False
    | None, Some a1 => isDirty a1 = false ∧ storageStep a1 = noStorage
    | None, None => True
    end.

(** The entry a completed pass of [Root] leaves for the entry [a], if
    any. *)
Definition rootEntry (sc : MapOrder B) (db : GetPutter) (a : cachedAccount B)
    : option (cachedAccount B) :=
  if isEmpty a then None
  else
    Some (set_isDirty false
            match storageStep a with
            | storageSet =>
              match handle db a with
              | Ok st0 => syncAccount sc db st0 a
              | Err _ => a
              end
            | _ => a
            end).

(** [value] comes back from the codec of storage values as it went
    in. *)
Definition valueReadsBack (value : Hash) : Prop :=
  length (encValue value) ≠ 0%nat ∧
  ∃ c, rlpSplit (encValue value) = Ok c ∧ BytesToHash c = value.

(** [addr] is the only cached account with storage activity. *)
Definition soleStorage (addr : Address) (s : State B) : Prop :=
  ∀ b a, b ≠ addr → cachedAccounts s !! b = Some a → storageStep a = noStorage.

(** [Commit] of a trie reports the digest that [Hash] computes, and a
    trie with another root that the store could open before opens as
    before. *)
Record DurableStorage : Prop := {
  ds_digest : ∀ db t h, (TrieCommit db t).2 = Ok h → h = TrieHash t;
  ds_other : ∀ db t h t1,
    h ≠ TrieHash t → NewSecure h db = Ok t1 →
    NewSecure h (TrieCommit db t).1.2 = Ok t1;
}.

End Durability.

Arguments WriteLaws : clear implicits.
Arguments Durable : clear implicits.
Arguments DurableStorage : clear implicits.

(** ** An in-memory backend

    A small implementation of [Backend] on which the model runs: it shows
    that the properties above can hold together, and it carries the
    concrete states of the examples.  Addresses, hashes and errors are
    byte strings; a trie is the finite map it denotes, its digest the last
    32 bytes of its entries laid end to end; the store keeps raw blobs
    and, by digest, the tries committed to it, and a root it does not know
    opens as the empty trie.  Reading a key in [badRead] and writing a key
    in [badWrite] fail, and the error they report is that key. *)
Module Mem.

Definition pad32 (b : bytes) : bytes :=
  let n := length b in
  if decide (n ≤ 32)%nat then replicate (32 - n) x00 ++ b
  else drop (n - 32) b.

Definition byte_of_N (n : N) : byte := default x00 (Byte.of_N n).

Definition be_to_N (b : bytes) : N :=
  foldl (λ acc c, acc * 256 + Byte.to_N c)%N 0%N b.

Fixpoint N_to_le (fuel : nat) (n : N) : bytes :=
  match fuel with
  | O => []
  | S fuel' =>
    if (n =? 0)%N then []
    else byte_of_N (n mod 256)%N :: N_to_le fuel' (n / 256)%N
  end.

Definition N_to_be (n : N) : bytes :=
  reverse (N_to_le (S (N.to_nat (N.log2 n))) n).

Record store : Type := mkStore {
  blobs : gmap bytes bytes;
  nodes : gmap bytes (gmap bytes bytes);
}.

Definition digest (t : gmap bytes bytes) : bytes :=
  pad32 (flat_map (λ kv, kv.1 ++ kv.2) (map_to_list t)).

Definition encodeAccount (a : account bytes) : bytes :=
  pad32 (CodeHash a) ++ pad32 (StorageRoot a) ++
  (if decide (Balance a < 0) then x01 else x00) ::
  N_to_be (Z.abs_N (Balance a)).

Definition decodeAccount (enc : bytes) : result bytes (account bytes) :=
  match drop 64 enc with
  | [] => Err enc
  | sign :: mag =>
    let n := Z.of_N (be_to_N mag) in
    Ok (mkAccount (if decide (sign = x00) then n else - n)
                  (take 32 enc) (take 32 (drop 32 enc)))
  end.

Definition backend (badRead badWrite : bytes → bool) : Backend := {|
  Address := bytes;
  Hash := bytes;
  SecureTrie := gmap bytes bytes;
  GetPutter := store;
  error := bytes;
  addr_bytes := λ a, a;
  hash_bytes := λ h, h;
  zeroHash := replicate 32 x00;
  BytesToHash := pad32;
  Keccak256 := λ b, pad32 (b ++ [xc5]);
  NewSecure := λ root db,
    if badRead root then Err root else Ok (default ∅ (nodes db !! root));
  TryGet := λ db t k, if badRead k then Err k else Ok (default [] (t !! k));
  TryUpdate := λ db t k v, if badWrite k then (t, Some k) else (<[k := v]> t, None);
  TryDelete := λ db t k, if badWrite k then (t, Some k) else (delete k t, None);
  TrieHash := digest;
  TrieCommit := λ db t,
    (t, mkStore (blobs db) (<[digest t := t]> (nodes db)), Ok (digest t));
  kvGet := λ db k,
    match blobs db !! k with
    | Some v => Ok (Some v)
    | None => Err k
    end;
  kvPut := λ db k v, (mkStore (<[k := v]> (blobs db)) (nodes db), None);
  rlpEncodeAccount := λ a, Ok (encodeAccount a);
  rlpEncodeBytes := λ b, b;
  rlpDecodeAccount := decodeAccount;
  rlpSplit := λ enc, Ok enc;
|}.

Definition never (k : bytes) : bool := false.

(** The backend on which nothing fails. *)
Definition sound : Backend := backend never never.

Definition emptyStore : store := mkStore ∅ ∅.

End Mem.

(** ** Example states over the in-memory backend *)
Module Examples.
Import Mem.

Definition A : bytes := [x0a].
Definition A' : bytes := [x0b].
Definition K : bytes := pad32 [x01].
Definition K' : bytes := pad32 [x02].
Definition V : bytes := pad32 [x07].

(** Reads of the accounts [A] and [A'] fail. *)
Definition brokenAccounts (k : bytes) : bool :=
  bool_decide (k = A) || bool_decide (k = A').

(** Writes of the storage key [K] fail. *)
Definition brokenSlot (k : bytes) : bool := bool_decide (k = K).

(** Writes of the account [A'] fail. *)
Definition brokenAccountWrite (k : bytes) : bool := bool_decide (k = A').

(** A state fresh from [New] at the zero root over the empty store. *)
Definition fresh (badRead badWrite : bytes → bool) : State (backend badRead badWrite) :=
  @mkState (backend badRead badWrite) (∅ : gmap bytes bytes) emptyStore ∅ None.

(** The state a call leaves, or [d] if it panics. *)
Definition stateOf {B : Backend} {X : Type} (d : State B) (o : outcome X) : State B :=
  match o with
  | Return _ s => s
  | Panic => d
  end.

(** Account [A] with balance 5 and one pending storage write. *)
Definition funded (badRead badWrite : bytes → bool) : State (backend badRead badWrite) :=
  @SetStorage (backend badRead badWrite) A K V
    (@SetBalance (backend badRead badWrite) A 5 (fresh badRead badWrite)).

Definition fundedSound : State sound :=
  Eval vm_compute in funded never never.

(** [fundedSound] after [Root]. *)
Definition rooted : State sound :=
  Eval vm_compute in stateOf fundedSound (@Root sound ascending fundedSound).

(** [fundedSound] committed, and the committed root opened again. *)
Definition committed : State sound :=
  Eval vm_compute in stateOf fundedSound (@Commit sound ascending fundedSound).

Definition reopened : State sound :=
  Eval vm_compute in
    match @New sound (@TrieHash sound (trie committed)) (kv committed) with
    | Ok s => s
    | Err _ => fresh never never
    end.

(** The reopened state with the balance of [A] taken back to zero, and
    what [Root] and [Commit] leave of it. *)
Definition drained : State sound :=
  Eval vm_compute in @SetBalance sound A 0 reopened.

Definition drainedRooted : State sound :=
  Eval vm_compute in stateOf drained (@Root sound ascending drained).

Definition drainedCommitted : State sound :=
  Eval vm_compute in stateOf drained (@Commit sound ascending drained).

(** An untouched account with one pending storage write, and what [Root]
    leaves of it. *)
Definition pendingEmpty : State sound :=
  Eval vm_compute in @SetStorage sound A K V (fresh never never).

Definition pendingEmptyRooted : State sound :=
  Eval vm_compute in stateOf pendingEmpty (@Root sound ascending pendingEmpty).

(** [funded] on a backend that cannot write the storage key [K], and the
    state in which [updateStorage] gives up. *)
Definition fundedBrokenSlot : State (backend never brokenSlot) :=
  Eval vm_compute in funded never brokenSlot.

Definition slotFailed : State (backend never brokenSlot) :=
  Eval vm_compute in
    stateOf fundedBrokenSlot
      (@updateStorage (backend never brokenSlot) ascending A fundedBrokenSlot).

(** Two funded accounts on a backend that cannot write [A'], and what
    [Root] and [Commit] leave of them when [A] is visited first. *)
Definition twoAccounts : State (backend never brokenAccountWrite) :=
  Eval vm_compute in
    @SetBalance (backend never brokenAccountWrite) A' 7
      (@SetBalance (backend never brokenAccountWrite) A 5 (fresh never brokenAccountWrite)).

Definition twoRooted : State (backend never brokenAccountWrite) :=
  Eval vm_compute in
    stateOf twoAccounts (@Root (backend never brokenAccountWrite) descending twoAccounts).

Definition twoCommitted : State (backend never brokenAccountWrite) :=
  Eval vm_compute in
    stateOf twoAccounts (@Commit (backend never brokenAccountWrite) descending twoAccounts).

(** A state in which a read of [A] has already failed. *)
Definition faulted : State (backend brokenAccounts never) :=
  Eval vm_compute in
    (@GetBalance (backend brokenAccounts never) A (fresh brokenAccounts never)).2.

(** Two accounts, several writes each. *)
Definition script : list (@mutation sound) :=
  [ @MSetBalance sound A 5;
    @MSetStorage sound A K V;
    @MSetBalance sound A' 7;
    @MSetStorage sound A K' V;
    @MSetCode sound A' (Some [x01; x02]);
    @MSetStorage sound A' K V ].

End Examples.

(** ** Further example states *)
Module Scenarios.
Import Mem Examples.

(** Account [A] with empty, non-nil code and zero balance, and what
    [Root] leaves of it. *)
Definition emptyCode : State sound :=
  Eval vm_compute in @SetCode sound A (Some []) (fresh never never).

Definition emptyCodeRooted : State sound :=
  Eval vm_compute in stateOf emptyCode (@Root sound ascending emptyCode).

(** [rooted] with account [A] deleted. *)
Definition deleted : State sound :=
  Eval vm_compute in @Delete sound A rooted.

(** The entry cached under an address, or a blank one. *)
Definition entryOf (s : State sound) (addr : bytes) : cachedAccount sound :=
  default (@mkCached sound false noStorage 0 None [] [] ∅ None)
          (cachedAccounts s !! addr).

Definition fundedEntry : cachedAccount sound :=
  Eval vm_compute in entryOf fundedSound A.

Definition committedRoot : bytes :=
  Eval vm_compute in @TrieHash sound (trie committed).

(** The digest of the storage trie of [A] once [fundedSound] is flushed. *)
Definition fundedStorageRoot : bytes :=
  Eval vm_compute in
    @TrieHash sound
      (@pushAll sound (kv fundedSound) ∅ (rangeStorage ascending (storage fundedEntry))).

(** The state the mutations of [script] leave. *)
Definition scripted : State sound :=
  Eval vm_compute in apply_mutations script (fresh never never).

End Scenarios.

(** * Proofs *)

Section Proofs.
Context {B : Backend}.
Implicit Types (s : State B) (a : cachedAccount B) (addr : Address) (key value : Hash).
Implicit Types (sc : MapOrder B) (e : error).

Lemma State_eta s : mkState (trie s) (kv s) (cachedAccounts s) (err s) = s.
Proof. by destruct s. Qed.

Lemma cache_put_id addr a s :
  cachedAccounts s !! addr = Some a → cache_put addr a s = s.
Proof.
  intros H. unfold cache_put, set_cachedAccounts.
  rewrite insert_id by done. apply State_eta.
Qed.

Lemma modify_lookup addr f s :
  cachedAccounts (modify addr f s) !! addr = f <$> cachedAccounts s !! addr.
Proof. unfold modify; simpl. apply lookup_alter_eq. Qed.

Lemma modify_lookup_ne addr addr' f s :
  addr ≠ addr' →
  cachedAccounts (modify addr f s) !! addr' = cachedAccounts s !! addr'.
Proof. intros H. unfold modify; simpl. by apply lookup_alter_ne. Qed.

(** [getAccount] answers from the cache when it can. *)
Lemma getAccount_cached addr a s :
  cachedAccounts s !! addr = Some a → getAccount addr s = (Ok a, s).
Proof. intros H. unfold getAccount. by rewrite H. Qed.

(** A successful [getAccount] leaves the account in the cache and changes
    nothing else. *)
Lemma getAccount_Ok addr s a s1 :
  getAccount addr s = (Ok a, s1) → s1 = cache_put addr a s.
Proof.
  unfold getAccount. destruct (cachedAccounts s !! addr) as [a0|] eqn:Hc.
  - intros [= <- <-]. by rewrite cache_put_id.
  - destruct (TryGet _ _ _) as [enc|e]; [|done].
    destruct (decide (length enc = 0%nat)); [by intros [= <- <-]|].
    destruct (rlpDecodeAccount enc) as [data|e]; [|done].
    destruct (decide _); [by intros [= <- <-]|].
    destruct (kvGet _ _) as [c|e]; [|done].
    by intros [= <- <-].
Qed.

Lemma getAccount_Ok_lookup addr s a s1 :
  getAccount addr s = (Ok a, s1) → cachedAccounts s1 !! addr = Some a.
Proof.
  intros ->%getAccount_Ok. simpl. apply lookup_insert_eq.
Qed.

(** A failing [getAccount] means the account was not cached; it leaves the
    cache, the trie and the store alone. *)
Lemma getAccount_Err addr s e s1 :
  getAccount addr s = (Err e, s1) →
  cachedAccounts s !! addr = None ∧ cachedAccounts s1 = cachedAccounts s ∧
  trie s1 = trie s ∧ kv s1 = kv s.
Proof.
  unfold getAccount. destruct (cachedAccounts s !! addr) as [a0|] eqn:Hc; [done|].
  destruct (TryGet _ _ _) as [enc|e0]; [|by intros [= <- <-]].
  destruct (decide (length enc = 0%nat)); [done|].
  destruct (rlpDecodeAccount enc) as [data|e0]; [|by intros [= <- <-]].
  destruct (decide _); [done|].
  destruct (kvGet _ _) as [c|e0]; [done|by intros [= <- <-]].
Qed.

(** C1. After [SetStorage(addr, k, v)] on an account that loads,
    [GetStorage(addr, k)] returns [v] and leaves the state as it is: the
    overlay answers, no storage-trie handle is opened and no trie is
    read. *)
Theorem SetStorage_GetStorage addr key value s a s1 :
  getAccount addr s = (Ok a, s1) →
  GetStorage addr key (SetStorage addr key value s) =
    Return value (SetStorage addr key value s).
Proof.
  intros Hget. unfold SetStorage. rewrite Hget.
  unfold GetStorage. rewrite modify_lookup.
  rewrite (getAccount_Ok_lookup _ _ _ _ Hget). simpl.
  by rewrite lookup_insert_eq.
Qed.


Lemma set_storageTrie_id a t : storageTrie a = Some t → set_storageTrie (Some t) a = a.
Proof. destruct a; simpl; by intros ->. Qed.

Lemma modify_id addr f s :
  (∀ a, cachedAccounts s !! addr = Some a → f a = a) → modify addr f s = s.
Proof.
  intros H. unfold modify, set_cachedAccounts.
  rewrite alter_id by done. apply State_eta.
Qed.

(** [getTrie] needs the account in the cache; on success the handle it
    returns is the one stored in the account afterwards, and nothing else
    changes; on failure nothing changes. *)
Lemma getTrie_Return addr s r s' :
  getTrie addr s = Return r s' →
  ∃ a, cachedAccounts s !! addr = Some a ∧
    match r with
    | Ok st => s' = modify addr (set_storageTrie (Some st)) s ∧
               (storageTrie a = Some st ∨
                storageTrie a = None ∧ NewSecure (storageRoot a) (kv s) = Ok st)
    | Err e => s' = s ∧ storageTrie a = None ∧ NewSecure (storageRoot a) (kv s) = Err e
    end.
Proof.
  unfold getTrie. destruct (cachedAccounts s !! addr) as [a|] eqn:Hc; [|done].
  destruct (storageTrie a) as [t|] eqn:Ht.
  - intros [= <- <-]. exists a. split; [done|]. split; [|by left].
    symmetry. apply modify_id. intros a' Ha'.
    apply set_storageTrie_id. congruence.
  - destruct (NewSecure _ _) as [t|e] eqn:Hn; intros [= <- <-]; exists a; eauto.
Qed.

(** An account that [getAccount] loads into the cache starts clean, with
    no storage activity, an empty overlay and no storage-trie handle. *)
Lemma getAccount_loaded addr s a s1 :
  cachedAccounts s !! addr = None →
  getAccount addr s = (Ok a, s1) →
  storage a = ∅ ∧ storageTrie a = None ∧ storageStep a = noStorage ∧ isDirty a = false.
Proof.
  intros Hc. unfold getAccount. rewrite Hc.
  destruct (TryGet _ _ _) as [enc0|?]; [|done].
  destruct (decide _); [by intros [= <- _]|].
  destruct (rlpDecodeAccount _); [|done].
  destruct (decide _); [by intros [= <- _]|].
  destruct (kvGet _ _); [|done]. by intros [= <- _].
Qed.

(** C4 (as the code has it). A call whose account load fails returns the
    zero value of its result type (a setter changes nothing) and leaves
    the error of that load in the fault flag, whatever the flag held
    before: [Error()] reports the most recent failure. *)
Theorem failing_accessor_overwrites_fault addr key value (z : Z) (c : option bytes) s e s1 :
  getAccount addr s = (Err e, s1) →
  GetBalance addr s = (0, set_err (Some e) s1) ∧
  GetCode addr s = (None, set_err (Some e) s1) ∧
  GetStorage addr key s = Return zeroHash (set_err (Some e) s1) ∧
  SetBalance addr z s = set_err (Some e) s1 ∧
  SetStorage addr key value s = set_err (Some e) s1 ∧
  SetCode addr c s = set_err (Some e) s1 ∧
  Error (GetBalance addr s).2 = Some e ∧
  Error (GetCode addr s).2 = Some e ∧
  cachedAccounts (set_err (Some e) s1) = cachedAccounts s.
Proof.
  intros Hget. pose proof (getAccount_Err _ _ _ _ Hget) as (Hc & Hsame & _).
  unfold GetBalance, GetCode, GetStorage, SetBalance, SetStorage, SetCode.
  rewrite Hget, Hc. simpl. done.
Qed.

(** C5 (as the code has it). On an overlay miss [GetStorage] loads the
    account, takes the storage-trie handle (opening it from [storageRoot]
    when the account has none, and keeping it in the account) and reads
    the key.  An empty answer gives the zero hash and leaves the overlay
    as it was; a non-empty one is decoded, written into the overlay and
    returned, and the same read again is answered from the overlay. *)
Theorem GetStorage_miss addr key s a s1 st s2 enc :
  overlayAt addr key s = None →
  getAccount addr s = (Ok a, s1) →
  getTrie addr s1 = Return (Ok st) s2 →
  TryGet (kv s2) st (hash_bytes key) = Ok enc →
  cachedAccounts s2 !! addr = Some (set_storageTrie (Some st) a) ∧
  if decide (length enc = 0%nat) then
    GetStorage addr key s = Return zeroHash s2 ∧ overlayAt addr key s2 = None
  else
    match rlpSplit enc with
    | Err e => GetStorage addr key s = Return zeroHash (set_err (Some e) s2)
    | Ok content =>
      let v := BytesToHash content in
      let s3 := modify addr (λ a', set_storage (<[key := v]> (storage a')) a') s2 in
      GetStorage addr key s = Return v s3 ∧
      overlayAt addr key s3 = Some v ∧
      GetStorage addr key s3 = Return v s3
    end.
Proof.
  intros Hmiss Hget Htrie Hread.
  pose proof (getAccount_Ok _ _ _ _ Hget) as Hs1.
  pose proof (getAccount_Ok_lookup _ _ _ _ Hget) as Ha.
  destruct (getTrie_Return _ _ _ _ Htrie) as (a1 & Ha1 & Hs2 & _).
  assert (a1 = a) as -> by congruence.
  assert (Hc2 : cachedAccounts s2 !! addr = Some (set_storageTrie (Some st) a)).
  { rewrite Hs2, modify_lookup, Ha. done. }
  assert (Hov : overlayAt addr key s = storage a !! key ∨
                cachedAccounts s !! addr = None).
  { unfold overlayAt. destruct (cachedAccounts s !! addr) as [a0|] eqn:Hc; [|by right].
    left. rewrite (getAccount_cached _ _ _ Hc) in Hget. by injection Hget as <- <-. }
  assert (Hold : storage a !! key = None).
  { destruct Hov as [<-|Hc]; [done|].
    destruct (getAccount_loaded _ _ _ _ Hc Hget) as (-> & _). done. }
  split; [done|].
  assert (Hrun : GetStorage addr key s =
    if decide (length enc = 0%nat) then Return zeroHash s2
    else match rlpSplit enc with
         | Err e => Return zeroHash (set_err (Some e) s2)
         | Ok content =>
           Return (BytesToHash content)
             (modify addr (λ a', set_storage (<[key := BytesToHash content]> (storage a')) a') s2)
         end).
  { unfold GetStorage. unfold overlayAt in Hmiss. by rewrite Hmiss, Hget, Htrie, Hread. }
  rewrite Hrun. clear Hrun.
  destruct (decide (length enc = 0%nat)).
  - split; [done|]. unfold overlayAt. rewrite Hc2. simpl. done.
  - destruct (rlpSplit enc) as [content|e]; [|done].
    cbv zeta. split; [done|].
    assert (overlayAt addr key
      (modify addr (λ a', set_storage (<[key:=BytesToHash content]> (storage a')) a') s2)
      = Some (BytesToHash content)) as Hhit.
    { unfold overlayAt. rewrite modify_lookup, Hc2. simpl. apply lookup_insert_eq. }
    split; [done|]. unfold overlayAt in Hhit. unfold GetStorage. by rewrite Hhit.
Qed.

(** ** The loop body of [Root], equation by equation *)

Lemma modify_cached addr f s a :
  cachedAccounts s !! addr = Some a → modify addr f s = cache_put addr (f a) s.
Proof.
  intros H. unfold modify, cache_put. f_equal.
  apply map_eq. intros b. destruct (decide (addr = b)) as [->|Hne].
  - by rewrite lookup_alter_eq, lookup_insert_eq, H.
  - by rewrite lookup_alter_ne, lookup_insert_ne.
Qed.

Lemma cache_put_put addr a1 a2 s :
  cache_put addr a2 (cache_put addr a1 s) = cache_put addr a2 s.
Proof. unfold cache_put, set_cachedAccounts. simpl. by rewrite insert_insert_eq. Qed.

Lemma cache_put_lookup addr a s : cachedAccounts (cache_put addr a s) !! addr = Some a.
Proof. simpl. apply lookup_insert_eq. Qed.

Lemma cache_put_lookup_ne addr b a s :
  addr ≠ b → cachedAccounts (cache_put addr a s) !! b = cachedAccounts s !! b.
Proof. intros. simpl. by apply lookup_insert_ne. Qed.

(** [getTrie] in terms of [handle]. *)
Lemma getTrie_handle addr s a :
  cachedAccounts s !! addr = Some a →
  getTrie addr s =
    match handle (kv s) a with
    | Ok st => Return (Ok st) (cache_put addr (set_storageTrie (Some st) a) s)
    | Err e => Return (Err e) s
    end.
Proof.
  intros Ha. unfold getTrie, handle. rewrite Ha.
  destruct (storageTrie a) as [t|] eqn:Ht.
  - by rewrite (set_storageTrie_id _ _ Ht), cache_put_id.
  - destruct (NewSecure _ _); [|done]. by rewrite (modify_cached _ _ _ _ Ha).
Qed.

(** When every write succeeds the loop of [updateStorage] returns the
    handle, holding all the entries, and has removed them from the
    overlay. *)
Lemma updateStorageLoop_ok addr l : ∀ st s a,
  cachedAccounts s !! addr = Some a →
  storageTrie a = Some st →
  pushOk (kv s) st l = true →
  updateStorageLoop addr l st s =
    ((Some (pushAll (kv s) st l), None),
     cache_put addr
       (set_storage (dropKeys l (storage a))
          (set_storageTrie (Some (pushAll (kv s) st l)) a)) s).
Proof.
  induction l as [|[k v] l IH]; intros st s a Ha Hst Hok; simpl.
  - f_equal. symmetry. rewrite (set_storageTrie_id _ _ Hst).
    replace (set_storage (storage a) a) with a by (by destruct a).
    by apply cache_put_id.
  - simpl in Hok. destruct (TryUpdate _ _ _ _) as [st' [e|]] eqn:Hup; [done|].
    rewrite (modify_cached _ _ _ _ Ha).
    rewrite (modify_cached _ _ _ (set_storageTrie (Some st') a))
      by apply cache_put_lookup.
    rewrite cache_put_put.
    erewrite IH; [| apply cache_put_lookup | done | done].
    simpl. rewrite cache_put_put. unfold pushAll, dropKeys. simpl.
    by destruct a.
Qed.

(** When a write fails it returns the nil handle with the nil error, and
    the fault flag has been reset to nil. *)
Lemma updateStorageLoop_fail addr l : ∀ st s,
  pushOk (kv s) st l = false →
  ∃ s', updateStorageLoop addr l st s = ((None, None), s') ∧
        err s' = None ∧ kv s' = kv s ∧ trie s' = trie s.
Proof.
  induction l as [|[k v] l IH]; intros st s Hok; simpl in *; [done|].
  destruct (TryUpdate _ _ _ _) as [st' [e|]] eqn:Hup.
  - eexists. split; [done|]. done.
  - destruct (IH st' (modify addr (λ a, set_storage (delete k (storage a)) a)
                         (modify addr (set_storageTrie (Some st')) s)) Hok)
      as (s' & -> & ? & ? & ?).
    by exists s'.
Qed.

Lemma RootSync_eq sc addr s a :
  cachedAccounts s !! addr = Some a →
  RootSync sc addr s =
    match handle (kv s) a with
    | Err e => Break (set_err (Some e) s)
    | Ok st0 =>
      if pushOk (kv s) st0 (rangeStorage sc (storage a))
      then Continue (cache_put addr (syncAccount sc (kv s) st0 a) s)
      else Crash
    end.
Proof.
  intros Ha. unfold RootSync, updateStorage.
  rewrite (getTrie_handle _ _ _ Ha).
  destruct (handle (kv s) a) as [st0|e]; [|done].
  rewrite cache_put_lookup.
  change (storage (set_storageTrie (Some st0) a)) with (storage a).
  destruct (pushOk (kv s) st0 (rangeStorage sc (storage a))) eqn:Hok.
  - erewrite updateStorageLoop_ok; [| apply cache_put_lookup | done | done].
    rewrite cache_put_put.
    erewrite modify_cached by apply cache_put_lookup.
    by rewrite cache_put_put.
  - destruct (updateStorageLoop_fail addr _ st0
                (cache_put addr (set_storageTrie (Some st0) a) s) Hok)
      as (s' & -> & _). done.
Qed.

Lemma RootFlush_eq addr s a :
  cachedAccounts s !! addr = Some a →
  RootFlush addr s =
    if isDirty a then
      match rlpEncodeAccount (recordOf a) with
      | Err e => Break (set_err (Some e) s)
      | Ok enc =>
        match TryUpdate (kv s) (trie s) (addr_bytes addr) enc with
        | (t, Some e) => Break (set_err (Some e) (set_trie t s))
        | (t, None) => Continue (cache_put addr (set_isDirty false a) (set_trie t s))
        end
      end
    else Continue s.
Proof.
  intros Ha. unfold RootFlush, updateAccount, recordOf. rewrite Ha.
  destruct (isDirty a); [|done].
  destruct (rlpEncodeAccount _) as [enc|e]; [|done].
  destruct (TryUpdate _ _ _ _) as [t [e|]]; [done|].
  by erewrite modify_cached.
Qed.

(** The whole body for a cached account that is not empty. *)
Lemma RootBody_eq sc addr s a :
  cachedAccounts s !! addr = Some a →
  isEmpty a = false →
  RootBody sc addr s =
    match storageStep a with
    | storageSet =>
      match handle (kv s) a with
      | Err e => Break (set_err (Some e) s)
      | Ok st0 =>
        if pushOk (kv s) st0 (rangeStorage sc (storage a)) then
          let a1 := syncAccount sc (kv s) st0 a in
          match rlpEncodeAccount (recordOf a1) with
          | Err e => Break (set_err (Some e) (cache_put addr a1 s))
          | Ok enc =>
            match TryUpdate (kv s) (trie s) (addr_bytes addr) enc with
            | (t, Some e) => Break (set_err (Some e) (set_trie t (cache_put addr a1 s)))
            | (t, None) => Continue (cache_put addr (set_isDirty false a1) (set_trie t s))
            end
          end
        else Crash
      end
    | _ => RootFlush addr s
    end.
Proof.
  intros Ha He. unfold RootBody. rewrite Ha, He.
  destruct (storageStep a); [done| |done].
  rewrite (RootSync_eq _ _ _ _ Ha).
  destruct (handle (kv s) a) as [st0|e]; [|done].
  destruct (pushOk _ _ _); [|done].
  rewrite (RootFlush_eq _ _ (syncAccount sc (kv s) st0 a)) by apply cache_put_lookup.
  simpl. destruct (rlpEncodeAccount _) as [enc|e]; [|done].
  destruct (TryUpdate _ _ _ _) as [t [e|]]; [done|].
  unfold cache_put, set_trie, set_cachedAccounts; simpl. by rewrite insert_insert_eq.
Qed.

Lemma RootBody_empty sc addr s a :
  cachedAccounts s !! addr = Some a →
  isEmpty a = true →
  RootBody sc addr s = Continue (Delete addr s).
Proof. intros Ha He. unfold RootBody. by rewrite Ha, He. Qed.

Lemma RootBody_absent sc addr s :
  cachedAccounts s !! addr = None → RootBody sc addr s = Continue s.
Proof. intros Ha. unfold RootBody. by rewrite Ha. Qed.

(** A failing storage-trie write makes the pass panic: [updateStorage]
    hands [Root] a nil handle with a nil error. *)
Lemma RootBody_update_failure sc addr s a st0 :
  cachedAccounts s !! addr = Some a →
  isEmpty a = false →
  storageStep a = storageSet →
  handle (kv s) a = Ok st0 →
  pushOk (kv s) st0 (rangeStorage sc (storage a)) = false →
  RootBody sc addr s = Crash.
Proof.
  intros Ha He Hstep Hh Hok. by rewrite (RootBody_eq _ _ _ _ Ha He), Hstep, Hh, Hok.
Qed.

(** ** What one pass of the body leaves behind *)

Lemma set_isDirty_id a : isDirty a = false → set_isDirty false a = a.
Proof. destruct a; simpl; by intros ->. Qed.

Lemma set_trie_id s : set_trie (trie s) s = s.
Proof. by destruct s. Qed.

Lemma Delete_cache addr s :
  cachedAccounts (Delete addr s) = delete addr (cachedAccounts s).
Proof. unfold Delete. simpl. by destruct (TryDelete _ _ _) as [t [e|]]. Qed.

Lemma Delete_kv addr s : kv (Delete addr s) = kv s.
Proof. unfold Delete. simpl. by destruct (TryDelete _ _ _) as [t [e|]]. Qed.

(** A [Delete] that leaves no fault had none before it and deleted the
    address from the global trie. *)
Lemma Delete_no_fault addr s :
  err (Delete addr s) = None →
  err s = None ∧
  TryDelete (kv s) (trie s) (addr_bytes addr) = (trie (Delete addr s), None).
Proof.
  unfold Delete. simpl. destruct (TryDelete _ _ _) as [t [e|]]; simpl; [done|].
  by intros ->.
Qed.

(** The shape of the state after a pass that falls through. *)
Lemma RootBody_Continue_inv sc addr s s' :
  RootBody sc addr s = Continue s' →
  match cachedAccounts s !! addr with
  | None => s' = s
  | Some a =>
    if isEmpty a then s' = Delete addr s
    else ∃ a1 t,
      s' = cache_put addr (set_isDirty false a1) (set_trie t s) ∧
      match storageStep a with
      | storageSet =>
        ∃ st0, handle (kv s) a = Ok st0 ∧
               pushOk (kv s) st0 (rangeStorage sc (storage a)) = true ∧
               a1 = syncAccount sc (kv s) st0 a
      | _ => a1 = a
      end ∧
      if isDirty a1 then
        ∃ enc, rlpEncodeAccount (recordOf a1) = Ok enc ∧
               TryUpdate (kv s) (trie s) (addr_bytes addr) enc = (t, None)
      else t = trie s
  end.
Proof.
  intros Hrun. destruct (cachedAccounts s !! addr) as [a|] eqn:Ha.
  2:{ rewrite (RootBody_absent _ _ _ Ha) in Hrun. by injection Hrun. }
  destruct (isEmpty a) eqn:He.
  { rewrite (RootBody_empty _ _ _ _ Ha He) in Hrun. by injection Hrun. }
  rewrite (RootBody_eq _ _ _ _ Ha He) in Hrun.
  assert (Hflush : RootFlush addr s = Continue s' →
    ∃ t, s' = cache_put addr (set_isDirty false a) (set_trie t s) ∧
      if isDirty a then
        ∃ enc, rlpEncodeAccount (recordOf a) = Ok enc ∧
               TryUpdate (kv s) (trie s) (addr_bytes addr) enc = (t, None)
      else t = trie s).
  { rewrite (RootFlush_eq _ _ _ Ha). destruct (isDirty a) eqn:Hd.
    - destruct (rlpEncodeAccount _) as [enc|e]; [|done].
      destruct (TryUpdate _ _ _ _) as [t [e|]] eqn:Hup; [done|].
      intros [= <-]. exists t. split; [done|]. by exists enc.
    - intros [= <-]. exists (trie s). split; [|done].
      by rewrite set_trie_id, (set_isDirty_id _ Hd), cache_put_id. }
  destruct (storageStep a) eqn:Hstep.
  - destruct (Hflush Hrun) as (t & ? & ?). by exists a, t.
  - destruct (handle (kv s) a) as [st0|e]; [|done].
    destruct (pushOk _ _ _) eqn:Hok; [|done].
    cbv zeta in Hrun.
    destruct (rlpEncodeAccount _) as [enc|e] eqn:Henc; [|done].
    destruct (TryUpdate _ _ _ _) as [t [e|]] eqn:Hup; [done|].
    injection Hrun as <-.
    exists (syncAccount sc (kv s) st0 a), t. split; [done|].
    split; [by exists st0|]. simpl. by exists enc.
  - destruct (Hflush Hrun) as (t & ? & ?). by exists a, t.
Qed.

(** A pass never touches the store or another account, and never adds an
    entry. *)
Lemma RootBody_frame sc addr s s' :
  RootBody sc addr s = Continue s' →
  kv s' = kv s ∧ ∀ b, b ≠ addr → cachedAccounts s' !! b = cachedAccounts s !! b.
Proof.
  intros Hrun. pose proof (RootBody_Continue_inv _ _ _ _ Hrun) as Hinv.
  destruct (cachedAccounts s !! addr) as [a|]; [|by subst].
  destruct (isEmpty a).
  - subst. split; [apply Delete_kv|]. intros b Hb.
    rewrite Delete_cache. by apply lookup_delete_ne.
  - destruct Hinv as (a1 & t & -> & _). split; [done|].
    intros b Hb. simpl. by apply lookup_insert_ne.
Qed.

(** The entry a pass leaves for its own address is settled. *)
Lemma RootBody_settles sc addr s s' a' :
  RootBody sc addr s = Continue s' →
  cachedAccounts s' !! addr = Some a' →
  settled a'.
Proof.
  intros Hrun Ha'. pose proof (RootBody_Continue_inv _ _ _ _ Hrun) as Hinv.
  pose proof (RootBody_frame _ _ _ _ Hrun) as [_ Hfr].
  destruct (cachedAccounts s !! addr) as [a|] eqn:Ha.
  2:{ subst. congruence. }
  destruct (isEmpty a) eqn:He.
  { subst. rewrite Delete_cache, lookup_delete_eq in Ha'. done. }
  destruct Hinv as (a1 & t & -> & Hstep & _).
  rewrite cache_put_lookup in Ha'. injection Ha' as <-.
  destruct (storageStep a) eqn:Hs.
  - subst a1. split; [done|]. split; [|done]. simpl. by rewrite Hs.
  - destruct Hstep as (st0 & _ & _ & ->). done.
  - subst a1. split; [done|]. split; [|done]. simpl. by rewrite Hs.
Qed.

Lemma RootBody_absent_stays sc addr b s s' :
  RootBody sc addr s = Continue s' →
  cachedAccounts s !! b = None → cachedAccounts s' !! b = None.
Proof.
  intros Hrun Hb. destruct (decide (b = addr)) as [->|Hne].
  - rewrite (RootBody_absent _ _ _ Hb) in Hrun. by injection Hrun as <-.
  - destruct (RootBody_frame _ _ _ _ Hrun) as [_ Hfr]. by rewrite Hfr.
Qed.

(** ** The loop of [Root] *)

Lemma RootLoop_cons sc addr l s s' :
  RootLoop sc (addr :: l) s = Continue s' →
  ∃ s1, RootBody sc addr s = Continue s1 ∧ RootLoop sc l s1 = Continue s'.
Proof.
  simpl. destruct (RootBody sc addr s) as [s1| |]; [|done..]. by exists s1.
Qed.

Lemma RootLoop_frame sc l : ∀ s s',
  RootLoop sc l s = Continue s' →
  kv s' = kv s ∧ ∀ b, b ∉ l → cachedAccounts s' !! b = cachedAccounts s !! b.
Proof.
  induction l as [|x l IH]; intros s s' Hrun.
  - by injection Hrun as <-.
  - destruct (RootLoop_cons _ _ _ _ _ Hrun) as (s1 & Hx & Hl).
    destruct (RootBody_frame _ _ _ _ Hx) as [Hkv Hfr].
    pose proof (IH _ _ Hl) as [Hkv' Hfr'].
    split; [congruence|]. intros b [Hbx Hbl]%not_elem_of_cons.
    by rewrite Hfr', Hfr.
Qed.

Lemma RootLoop_absent_stays sc l b : ∀ s s',
  RootLoop sc l s = Continue s' →
  cachedAccounts s !! b = None → cachedAccounts s' !! b = None.
Proof.
  induction l as [|x l IH]; intros s s' Hrun Hb.
  - by injection Hrun as <-.
  - destruct (RootLoop_cons _ _ _ _ _ Hrun) as (s1 & Hx & Hl).
    eapply IH; [done|]. by eapply RootBody_absent_stays.
Qed.

(** The loop passes once over each address of a duplicate-free list: the
    entry it finds there and the store are those of the start, and the
    entry it leaves is the one at the end of the loop. *)
Lemma RootLoop_visit sc addr a l : ∀ s s',
  NoDup l → addr ∈ l →
  cachedAccounts s !! addr = Some a →
  RootLoop sc l s = Continue s' →
  ∃ s0 s1, kv s0 = kv s ∧ cachedAccounts s0 !! addr = Some a ∧
           RootBody sc addr s0 = Continue s1 ∧
           cachedAccounts s' !! addr = cachedAccounts s1 !! addr.
Proof.
  induction l as [|x l IH]; intros s s' Hnd Hin Ha Hrun; [by apply elem_of_nil in Hin|].
  apply NoDup_cons in Hnd as [Hx Hnd].
  destruct (RootLoop_cons _ _ _ _ _ Hrun) as (s1 & Hbody & Hl).
  destruct (decide (addr = x)) as [->|Hne].
  - exists s, s1. repeat split; [done..|].
    by destruct (RootLoop_frame _ _ _ _ Hl) as [_ ->].
  - destruct (RootBody_frame _ _ _ _ Hbody) as [Hkv Hfr].
    assert (Hin' : addr ∈ l) by (apply elem_of_cons in Hin as [?|?]; done).
    assert (Ha1 : cachedAccounts s1 !! addr = Some a) by (by rewrite Hfr).
    pose proof (IH s1 s' Hnd Hin' Ha1 Hl) as (s0 & s2 & ? & ? & ? & ?).
    exists s0, s2. repeat split; [congruence|done..].
Qed.

(** [range] over the cache yields exactly the cached addresses, once
    each. *)
Lemma order_ok_accounts sc (m : gmap Address (cachedAccount B)) :
  order_ok sc →
  NoDup (rangeAccounts sc m) ∧ ∀ addr, addr ∈ rangeAccounts sc m ↔ is_Some (m !! addr).
Proof.
  intros [Hacc _]. split.
  - rewrite (Hacc m). apply NoDup_fst_map_to_list.
  - intros addr. rewrite (Hacc m). rewrite list_elem_of_fmap. split.
    + intros ([k v] & -> & Hin). apply elem_of_map_to_list in Hin. by exists v.
    + intros [v Hv]. exists (addr, v). split; [done|]. by apply elem_of_map_to_list.
Qed.

Lemma order_ok_storage sc (m : storageT) :
  order_ok sc →
  NoDup (rangeStorage sc m).*1 ∧ ∀ k v, (k, v) ∈ rangeStorage sc m ↔ m !! k = Some v.
Proof.
  intros [_ Hst]. split.
  - rewrite (Hst m). apply NoDup_fst_map_to_list.
  - intros k v. rewrite (Hst m). apply elem_of_map_to_list.
Qed.

Lemma lookup_dropKeys l : ∀ (m : storageT) k,
  dropKeys l m !! k = if decide (k ∈ l.*1) then None else m !! k.
Proof.
  induction l as [|[k0 v0] l IH]; intros m k.
  - unfold dropKeys. rewrite decide_False; [done|]. rewrite fmap_nil. apply not_elem_of_nil.
  - change (dropKeys ((k0, v0) :: l) m) with (dropKeys l (delete k0 m)).
    rewrite IH, fmap_cons. simpl.
    destruct (decide (k ∈ l.*1)) as [Hin|Hin].
    + rewrite decide_True; [done|]. by apply list_elem_of_further.
    + destruct (decide (k = k0)) as [->|Hne].
      * rewrite decide_True by apply list_elem_of_here. apply lookup_delete_eq.
      * rewrite decide_False by (rewrite elem_of_cons; tauto).
        by apply lookup_delete_ne.
Qed.

(** Once every entry has been pushed the overlay is empty. *)
Lemma dropKeys_all sc (m : storageT) :
  order_ok sc → dropKeys (rangeStorage sc m) m = ∅.
Proof.
  intros Hsc. apply map_eq. intros k. rewrite lookup_dropKeys, lookup_empty.
  case_decide as Hin; [done|].
  destruct (m !! k) as [v|] eqn:Hk; [|done].
  exfalso. apply Hin. apply list_elem_of_fmap. exists (k, v). split; [done|].
  by apply (order_ok_storage sc m Hsc).
Qed.

(** ** Faults and the store along [Root] *)

Lemma RootBody_Break_inv sc addr s s' :
  RootBody sc addr s = Break s' → kv s' = kv s ∧ err s' ≠ None.
Proof.
  intros Hrun. destruct (cachedAccounts s !! addr) as [a|] eqn:Ha.
  2:{ by rewrite (RootBody_absent _ _ _ Ha) in Hrun. }
  destruct (isEmpty a) eqn:He.
  { by rewrite (RootBody_empty _ _ _ _ Ha He) in Hrun. }
  rewrite (RootBody_eq _ _ _ _ Ha He) in Hrun.
  assert (Hflush : RootFlush addr s = Break s' → kv s' = kv s ∧ err s' ≠ None).
  { rewrite (RootFlush_eq _ _ _ Ha). destruct (isDirty a); [|done].
    destruct (rlpEncodeAccount _) as [enc|e]; [|by intros [= <-]].
    destruct (TryUpdate _ _ _ _) as [t [e|]]; [by intros [= <-]|done]. }
  destruct (storageStep a); [by apply Hflush| |by apply Hflush].
  destruct (handle (kv s) a) as [st0|e]; [|by injection Hrun as <-].
  destruct (pushOk _ _ _); [|done]. cbv zeta in Hrun.
  destruct (rlpEncodeAccount _) as [enc|e]; [|by injection Hrun as <-].
  destruct (TryUpdate _ _ _ _) as [t [e|]]; [by injection Hrun as <-|done].
Qed.

Lemma RootLoop_Break_inv sc l : ∀ s s',
  RootLoop sc l s = Break s' → kv s' = kv s ∧ err s' ≠ None.
Proof.
  induction l as [|x l IH]; intros s s' Hrun; [done|]. simpl in Hrun.
  destruct (RootBody sc x s) as [s1|s1|] eqn:Hx; [| |done].
  - destruct (RootBody_frame _ _ _ _ Hx) as [Hkv _].
    pose proof (IH _ _ Hrun) as [Hkv' ?]. split; [congruence|done].
  - injection Hrun as <-. by apply (RootBody_Break_inv sc x).
Qed.

(** A pass that leaves no fault started without one. *)
Lemma RootBody_err_mono sc addr s s' :
  RootBody sc addr s = Continue s' → err s' = None → err s = None.
Proof.
  intros Hrun Herr. pose proof (RootBody_Continue_inv _ _ _ _ Hrun) as Hinv.
  destruct (cachedAccounts s !! addr) as [a|]; [|by subst].
  destruct (isEmpty a).
  - subst. by apply Delete_no_fault in Herr as [? _].
  - destruct Hinv as (a1 & t & -> & _). done.
Qed.

Lemma RootLoop_err_mono sc l : ∀ s s',
  RootLoop sc l s = Continue s' → err s' = None → err s = None.
Proof.
  induction l as [|x l IH]; intros s s' Hrun Herr.
  - by injection Hrun as <-.
  - destruct (RootLoop_cons _ _ _ _ _ Hrun) as (s1 & Hx & Hl).
    eapply RootBody_err_mono; [done|]. by eapply IH.
Qed.

(** A [Root] that returns with no fault recorded ran its loop to the
    end. *)
Lemma Root_no_fault_completes sc s h s' :
  Root sc s = Return h s' → Error s' = None → Root_completes sc s s'.
Proof.
  unfold Root, Root_completes.
  destruct (RootLoop _ _ _) as [s1|s1|] eqn:Hloop; [| |done].
  - by intros [= _ <-].
  - intros [= _ <-] Herr. by destruct (RootLoop_Break_inv _ _ _ _ Hloop) as [_ ?].
Qed.

Lemma Root_completes_Return sc s s' :
  Root_completes sc s s' → Root sc s = Return (TrieHash (trie s')) s'.
Proof. unfold Root, Root_completes. by intros ->. Qed.

(** ** Two facts about left folds *)


(** A left fold whose steps commute on elements with distinct keys gives
    the same result on any two arrangements of a list with distinct
    keys. *)
Lemma foldl_permutation_keys {X Y K : Type} (g : X → K) (f : Y → X → Y) (l1 l2 : list X) :
  l1 ≡ₚ l2 →
  NoDup (g <$> l1) →
  (∀ y x1 x2, g x1 ≠ g x2 → f (f y x1) x2 = f (f y x2) x1) →
  ∀ y, foldl f y l1 = foldl f y l2.
Proof.
  intros Hp Hnd Hcomm. induction Hp as [|x l l' Hp IH|x1 x2 l|l l' l'' Hp IH Hp' IH']; intros y.
  - done.
  - simpl. apply IH. rewrite fmap_cons in Hnd. by apply NoDup_cons in Hnd as [_ ?].
  - simpl. rewrite !fmap_cons in Hnd.
    apply NoDup_cons in Hnd as [Hx _]. apply not_elem_of_cons in Hx as [Hx _].
    by rewrite (Hcomm y x2 x1).
  - rewrite IH by done. apply IH'. by rewrite <- Hp.
Qed.

Lemma foldl_ext_in {X Y : Type} (f g : Y → X → Y) (l : list X) :
  (∀ y x, x ∈ l → f y x = g y x) → ∀ y, foldl f y l = foldl g y l.
Proof.
  induction l as [|x l IH]; intros Hfg y; [done|]. simpl.
  rewrite Hfg by apply list_elem_of_here.
  apply IH. intros y' x' Hx'. apply Hfg. by apply list_elem_of_further.
Qed.

(** ** Runs on a backend on which nothing fails *)

Section FaultFreeRuns.
Hypothesis ff : FaultFree B.

Lemma handle_ff db a : ∃ st0, handle db a = Ok st0.
Proof.
  unfold handle. destruct (storageTrie a) as [t|]; [by exists t|].
  apply (ff_NewSecure ff).
Qed.

Lemma pushOk_ff db l : ∀ st, pushOk db st l = true.
Proof.
  induction l as [|p l IH]; intros st; [done|]. simpl.
  pose proof (ff_TryUpdate ff db st (hash_bytes p.1) (encValue p.2)) as Hup.
  destruct (TryUpdate _ _ _ _) as [st' [e|]]; [done|]. apply IH.
Qed.

(** A pass falls through, leaves the fault flag alone, and its effect on
    the global trie is the write [writeKind] names. *)
Lemma RootBody_ff sc addr s :
  ∃ s', RootBody sc addr s = Continue s' ∧
        err s' = err s ∧
        trie s' = trieOp sc (kv s) (cachedAccounts s) (trie s) addr.
Proof.
  unfold trieOp. destruct (cachedAccounts s !! addr) as [a|] eqn:Ha.
  2:{ exists s. by rewrite (RootBody_absent _ _ _ Ha). }
  unfold writeKind. destruct (isEmpty a) eqn:He.
  { exists (Delete addr s). rewrite (RootBody_empty _ _ _ _ Ha He). split; [done|].
    unfold Delete. simpl.
    pose proof (ff_TryDelete ff (kv s) (trie s) (addr_bytes addr)) as Hdel.
    by destruct (TryDelete _ _ _) as [t [e|]]. }
  rewrite (RootBody_eq _ _ _ _ Ha He).
  assert (Hflush : ∃ s', RootFlush addr s = Continue s' ∧
    err s' = err s ∧
    trie s' = applyWrite (kv s) (addr_bytes addr)
                (if isDirty a then
                   match rlpEncodeAccount (recordOf a) with
                   | Ok enc => WUpdate enc
                   | Err _ => WNone
                   end
                 else WNone) (trie s)).
  { rewrite (RootFlush_eq _ _ _ Ha). destruct (isDirty a); [|by exists s].
    destruct (ff_rlpEncodeAccount ff (recordOf a)) as [enc ->].
    pose proof (ff_TryUpdate ff (kv s) (trie s) (addr_bytes addr) enc) as Hup.
    simpl. destruct (TryUpdate _ _ _ _) as [t [e|]]; [done|].
    eexists. split; [done|]. done. }
  destruct (storageStep a); [done| |done].
  destruct (handle_ff (kv s) a) as [st0 ->].
  rewrite pushOk_ff. cbv zeta. simpl.
  destruct (ff_rlpEncodeAccount ff (recordOf (syncAccount sc (kv s) st0 a))) as [enc ->].
  pose proof (ff_TryUpdate ff (kv s) (trie s) (addr_bytes addr) enc) as Hup.
  simpl. destruct (TryUpdate _ _ _ _) as [t [e|]]; [done|].
  eexists. split; [done|]. done.
Qed.

Lemma trieOp_agree sc db (m1 m2 : gmap Address (cachedAccount B)) t addr :
  m1 !! addr = m2 !! addr → trieOp sc db m1 t addr = trieOp sc db m2 t addr.
Proof. unfold trieOp. by intros ->. Qed.

Lemma RootLoop_ff sc l : ∀ s,
  NoDup l →
  ∃ s', RootLoop sc l s = Continue s' ∧
        err s' = err s ∧
        trie s' = foldl (trieOp sc (kv s) (cachedAccounts s)) (trie s) l.
Proof.
  induction l as [|x l IH]; intros s Hnd; [by exists s|].
  apply NoDup_cons in Hnd as [Hx Hnd].
  destruct (RootBody_ff sc x s) as (s1 & Hbody & He1 & Ht1).
  destruct (RootBody_frame _ _ _ _ Hbody) as [Hkv Hfr].
  destruct (IH s1 Hnd) as (s' & Hl & He' & Ht').
  exists s'. simpl. rewrite Hbody. split; [done|]. split; [congruence|].
  rewrite Ht', Ht1, Hkv. apply foldl_ext_in.
  intros t y Hy. apply trieOp_agree, Hfr. by intros ->.
Qed.

Lemma CommitBody_ff addr s :
  ∃ s', CommitBody addr s = Continue s' ∧ err s' = err s ∧ trie s' = trie s.
Proof.
  unfold CommitBody. destruct (cachedAccounts s !! addr) as [a|] eqn:Ha; [|by exists s].
  destruct (storageStep a); [by eexists..|].
  rewrite (getTrie_handle _ _ _ Ha).
  destruct (handle_ff (kv s) a) as [st ->].
  destruct (ff_TrieCommit ff (kv (cache_put addr (set_storageTrie (Some st) a) s)) st)
    as [h Hc].
  destruct (TrieCommit _ _) as [[st' db] r]. simpl in Hc. subst r.
  by eexists.
Qed.

Lemma CommitLoop_ff l : ∀ s,
  ∃ s', CommitLoop l s = Continue s' ∧ err s' = err s ∧ trie s' = trie s.
Proof.
  induction l as [|x l IH]; intros s; [by exists s|].
  destruct (CommitBody_ff x s) as (s1 & Hx & He1 & Ht1).
  destruct (IH s1) as (s' & Hl & He' & Ht').
  exists s'. simpl. rewrite Hx. split; [done|]. split; congruence.
Qed.

(** [Root] runs its loop to the end and [Commit] returns, and neither
    touches the fault flag. *)
Lemma Root_completes_ff sc s :
  order_ok sc → ∃ s', Root_completes sc s s' ∧ Error s' = Error s.
Proof.
  intros Hsc. destruct (order_ok_accounts sc (cachedAccounts s) Hsc) as [Hnd _].
  destruct (RootLoop_ff sc _ s Hnd) as (s' & Hloop & He & _). by exists s'.
Qed.

Lemma Commit_returns_ff sc s :
  order_ok sc → ∃ h s', Commit sc s = Return h s' ∧ Error s' = Error s.
Proof.
  intros Hsc. destruct (Root_completes_ff sc s Hsc) as (s0 & Hrun & He0).
  unfold Commit. rewrite (Root_completes_Return _ _ _ Hrun).
  destruct (CommitLoop_ff (rangeAccounts sc (cachedAccounts s0)) s0) as (s1 & -> & He1 & _).
  destruct (ff_TrieCommit ff (kv s1) (trie s1)) as [h Hc].
  destruct (TrieCommit _ _) as [[t db] r]. simpl in Hc. subst r.
  eexists _, _. split; [done|]. simpl. unfold Error in *. congruence.
Qed.

End FaultFreeRuns.

(** ** Pruning *)

(** An empty entry that the loop reaches is gone afterwards. *)
Lemma RootLoop_prunes sc addr a l s s' :
  NoDup l → addr ∈ l →
  cachedAccounts s !! addr = Some a → isEmpty a = true →
  RootLoop sc l s = Continue s' →
  cachedAccounts s' !! addr = None.
Proof.
  intros Hnd Hin Ha He Hrun.
  destruct (RootLoop_visit _ _ _ _ _ _ Hnd Hin Ha Hrun) as (s0 & s1 & _ & Ha0 & Hbody & ->).
  rewrite (RootBody_empty _ _ _ _ Ha0 He) in Hbody. injection Hbody as <-.
  rewrite Delete_cache. apply lookup_delete_eq.
Qed.

Lemma Root_completes_prunes sc addr a s s' :
  order_ok sc →
  cachedAccounts s !! addr = Some a → isEmpty a = true →
  Root_completes sc s s' →
  cachedAccounts s' !! addr = None.
Proof.
  intros Hsc Ha He Hrun.
  destruct (order_ok_accounts sc (cachedAccounts s) Hsc) as [Hnd Hin].
  eapply RootLoop_prunes; [done| |done..]. apply Hin. by exists a.
Qed.

(** C7. [SetStorage] on an account that loads leaves it [storageSet],
    whatever its phase was.  The loop of [Root] tests an entry for
    emptiness first and deletes an empty one, whatever its phase; the
    storage sync is the step that follows, for the entries that are
    [storageSet].  When [Root] runs its loop to the end, the sync of an
    account it found [storageSet] and not empty has written every overlay
    entry into the storage trie and removed it from the overlay, so that
    the overlay is empty, has set [storageRoot] to the digest of that
    trie, has marked the account dirty and has set its phase to
    [storageUpdated].  In the same pass the record of the account, with
    the new storage root, is then written into the global trie under its
    address and the dirty flag is cleared; this is the entry [Root]
    leaves.  On a backend on which nothing fails [Root] always runs its
    loop to the end. *)
Theorem storage_phase_machine sc addr :
  order_ok sc →
  (∀ key value s a s1,
     getAccount addr s = (Ok a, s1) →
     cachedAccounts (SetStorage addr key value s) !! addr =
       Some (set_storage (<[key := value]> (storage a)) (set_storageStep storageSet a))) ∧
  (∀ s s' a,
     cachedAccounts s !! addr = Some a →
     storageStep a = storageSet →
     isEmpty a = false →
     Root_completes sc s s' →
     ∃ st0, handle (kv s) a = Ok st0 ∧
       pushOk (kv s) st0 (rangeStorage sc (storage a)) = true ∧
       let st := pushAll (kv s) st0 (rangeStorage sc (storage a)) in
       let synced := mkCached true storageUpdated (balance a) (code a) (codeHash a)
                              (TrieHash st) ∅ (Some st) in
       RootSync sc addr s = Continue (cache_put addr synced s) ∧
       (∃ s0 s1 enc,
          kv s0 = kv s ∧ cachedAccounts s0 !! addr = Some a ∧
          RootSync sc addr s0 = Continue (cache_put addr synced s0) ∧
          RootBody sc addr s0 = Continue s1 ∧
          rlpEncodeAccount (mkAccount (balance a) (codeHash a) (TrieHash st)) = Ok enc ∧
          TryUpdate (kv s0) (trie s0) (addr_bytes addr) enc = (trie s1, None) ∧
          cachedAccounts s1 !! addr = Some (set_isDirty false synced) ∧
          cachedAccounts s' !! addr = cachedAccounts s1 !! addr) ∧
       cachedAccounts s' !! addr =
         Some (mkCached false storageUpdated (balance a) (code a) (codeHash a)
                        (TrieHash st) ∅ (Some st))) ∧
  (∀ s a,
     cachedAccounts s !! addr = Some a →
     isEmpty a = true →
     RootBody sc addr s = Continue (Delete addr s) ∧
     cachedAccounts (Delete addr s) !! addr = None) ∧
  (FaultFree B → ∀ s, ∃ s', Root_completes sc s s').
Proof.
  intros Hsc. split; [|split; [|split]].
  4:{ intros ff s. destruct (Root_completes_ff ff sc s Hsc) as (s' & ? & _). by exists s'. }
  - intros key value s a s1 Hget. unfold SetStorage. rewrite Hget.
    by rewrite modify_lookup, (getAccount_Ok_lookup _ _ _ _ Hget).
  - intros s s' a Ha Hstep He Hrun.
    destruct (order_ok_accounts sc (cachedAccounts s) Hsc) as [Hnd Hin].
    assert (Hmem : addr ∈ rangeAccounts sc (cachedAccounts s)) by (apply Hin; by exists a).
    destruct (RootLoop_visit _ _ _ _ _ _ Hnd Hmem Ha Hrun)
      as (s0 & s1 & Hkv & Ha0 & Hbody & Hend).
    pose proof (RootBody_Continue_inv _ _ _ _ Hbody) as Hinv.
    rewrite Ha0, He, Hstep, Hkv in Hinv.
    destruct Hinv as (a1 & t & Hs1 & (st0 & Hh & Hok & ->) & Hup).
    simpl in Hup. destruct Hup as (enc & Henc & Hup).
    assert (Hsync : syncAccount sc (kv s) st0 a =
              mkCached true storageUpdated (balance a) (code a) (codeHash a)
                (TrieHash (pushAll (kv s) st0 (rangeStorage sc (storage a)))) ∅
                (Some (pushAll (kv s) st0 (rangeStorage sc (storage a))))).
    { unfold syncAccount. by rewrite (dropKeys_all _ _ Hsc). }
    rewrite Hsync in Hs1.
    exists st0. split; [done|]. split; [done|]. cbv zeta. split; [|split].
    + by rewrite (RootSync_eq _ _ _ _ Ha), Hh, Hok, Hsync.
    + exists s0, s1, enc. split; [done|]. split; [done|].
      split; [by rewrite (RootSync_eq _ _ _ _ Ha0), Hkv, Hh, Hok, Hsync|].
      split; [done|]. split; [exact Henc|].
      split; [by rewrite Hkv, Hs1|].
      split; [by rewrite Hs1, cache_put_lookup|done].
    + by rewrite Hend, Hs1, cache_put_lookup.
  - intros s a Ha He. split; [by apply RootBody_empty with a|].
    rewrite Delete_cache. apply lookup_delete_eq.
Qed.

(** ** A second [Root] *)

Lemma RootBody_settled sc addr s a :
  cachedAccounts s !! addr = Some a → settled a → RootBody sc addr s = Continue s.
Proof.
  intros Ha (He & Hstep & Hd).
  rewrite (RootBody_eq _ _ _ _ Ha He).
  destruct (storageStep a); [|done|]; by rewrite (RootFlush_eq _ _ _ Ha), Hd.
Qed.

Lemma RootLoop_settled sc l s :
  (∀ addr a, cachedAccounts s !! addr = Some a → settled a) →
  RootLoop sc l s = Continue s.
Proof.
  intros Hall. induction l as [|x l IH]; [done|]. simpl.
  destruct (cachedAccounts s !! x) as [a|] eqn:Hx.
  - by rewrite (RootBody_settled _ _ _ _ Hx (Hall _ _ Hx)).
  - by rewrite (RootBody_absent _ _ _ Hx).
Qed.

(** After a loop that reached every cached address, every entry left in
    the cache is settled. *)
Lemma Root_completes_settled sc s s' :
  order_ok sc → Root_completes sc s s' →
  ∀ addr a', cachedAccounts s' !! addr = Some a' → settled a'.
Proof.
  intros Hsc Hrun addr a' Ha'.
  destruct (order_ok_accounts sc (cachedAccounts s) Hsc) as [Hnd Hin].
  destruct (cachedAccounts s !! addr) as [a|] eqn:Ha.
  2:{ rewrite (RootLoop_absent_stays _ _ _ _ _ Hrun Ha) in Ha'. done. }
  assert (Hmem : addr ∈ rangeAccounts sc (cachedAccounts s)) by (apply Hin; by exists a).
  destruct (RootLoop_visit _ _ _ _ _ _ Hnd Hmem Ha Hrun) as (s0 & s1 & _ & _ & Hbody & Hend).
  rewrite Hend in Ha'. by eapply RootBody_settles.
Qed.

(** C8. [Root] never changes the key/value store; and when a call of
    [Root] has run its loop to the end, calling [Root] again on the state
    it left returns the same digest and leaves that state as it is.  On a
    backend on which nothing fails that is so for every call of [Root]. *)
Theorem Root_twice_same_digest sc sc' s :
  order_ok sc →
  (∀ h s', Root sc s = Return h s' → kv s' = kv s) ∧
  (∀ s', Root_completes sc s s' →
         Root sc s = Return (TrieHash (trie s')) s' ∧
         Root sc' s' = Return (TrieHash (trie s')) s') ∧
  (FaultFree B →
   ∃ h s', Root sc s = Return h s' ∧ Root sc' s' = Return h s' ∧ kv s' = kv s).
Proof.
  intros Hsc.
  assert (Hkv : ∀ h s', Root sc s = Return h s' → kv s' = kv s).
  { intros h s'. unfold Root.
    destruct (RootLoop _ _ _) as [s1|s1|] eqn:Hloop; [| |done]; intros [= _ <-].
    - by destruct (RootLoop_frame _ _ _ _ Hloop).
    - by destruct (RootLoop_Break_inv _ _ _ _ Hloop). }
  assert (Htwice : ∀ s', Root_completes sc s s' →
         Root sc s = Return (TrieHash (trie s')) s' ∧
         Root sc' s' = Return (TrieHash (trie s')) s').
  { intros s' Hrun. split; [by apply Root_completes_Return|].
    unfold Root.
    by rewrite (RootLoop_settled _ _ _ (Root_completes_settled _ _ _ Hsc Hrun)). }
  split; [exact Hkv|]. split; [exact Htwice|].
  intros ff. destruct (Root_completes_ff ff sc s Hsc) as (s' & Hrun & _).
  destruct (Htwice s' Hrun) as [H1 H2].
  exists (TrieHash (trie s')), s'. split; [done|]. split; [done|]. by apply (Hkv _ _ H1).
Qed.

(** ** The loop of [Commit] *)

(** A pass of the loop of [Commit] that falls through leaves the global
    trie and the fault flag alone, adds no entry, and either leaves the
    store alone or commits one storage trie into it. *)
Lemma CommitBody_Continue_inv addr s s' :
  CommitBody addr s = Continue s' →
  trie s' = trie s ∧ err s' = err s ∧
  (∀ b, cachedAccounts s !! b = None → cachedAccounts s' !! b = None) ∧
  (kv s' = kv s ∨ ∃ st st' h, TrieCommit (kv s) st = (st', kv s', Ok h)).
Proof.
  unfold CommitBody. destruct (cachedAccounts s !! addr) as [a|] eqn:Ha.
  2:{ intros [= <-]. repeat split; [done|by left]. }
  assert (Hdel : ∀ m : gmap Address (cachedAccount B),
            (∀ b, b ≠ addr → m !! b = cachedAccounts s !! b) →
            ∀ b, cachedAccounts s !! b = None → delete addr m !! b = None).
  { intros m Hm b Hb. destruct (decide (b = addr)) as [->|Hne].
    - apply lookup_delete_eq.
    - by rewrite lookup_delete_ne, Hm. }
  destruct (storageStep a).
  1,2: intros [= <-]; simpl; repeat split; [by apply Hdel|by left].
  rewrite (getTrie_handle _ _ _ Ha).
  destruct (handle (kv s) a) as [st|e]; [|done].
  destruct (TrieCommit _ _) as [[st' db] [h|e]] eqn:Hc; [|done].
  intros [= <-]. simpl. repeat split.
  - apply Hdel. intros b Hb. by rewrite lookup_alter_ne, lookup_insert_ne.
  - right. by exists st, st', h.
Qed.

Lemma CommitBody_Break_inv addr s s' :
  CommitBody addr s = Break s' → err s' ≠ None.
Proof.
  unfold CommitBody. destruct (cachedAccounts s !! addr) as [a|] eqn:Ha; [|done].
  destruct (storageStep a); [done..|].
  rewrite (getTrie_handle _ _ _ Ha).
  destruct (handle (kv s) a) as [st|e]; [|by intros [= <-]].
  destruct (TrieCommit _ _) as [[st' db] [h|e]]; [done|by intros [= <-]].
Qed.

Lemma CommitLoop_Continue_inv l : ∀ s s',
  CommitLoop l s = Continue s' →
  trie s' = trie s ∧ err s' = err s ∧
  (∀ b, cachedAccounts s !! b = None → cachedAccounts s' !! b = None).
Proof.
  induction l as [|x l IH]; intros s s' Hrun.
  - by injection Hrun as <-.
  - simpl in Hrun. destruct (CommitBody x s) as [s1| |] eqn:Hx; [|done..].
    destruct (CommitBody_Continue_inv _ _ _ Hx) as (Ht & He & Hc & _).
    pose proof (IH _ _ Hrun) as (Ht' & He' & Hc').
    repeat split; [congruence..|].
    intros b Hb. by apply Hc', Hc.
Qed.

Lemma CommitLoop_Break_inv l : ∀ s s',
  CommitLoop l s = Break s' → err s' ≠ None.
Proof.
  induction l as [|x l IH]; intros s s' Hrun; [done|]. simpl in Hrun.
  destruct (CommitBody x s) as [s1|s1|] eqn:Hx; [| |done].
  - by apply (IH s1).
  - injection Hrun as <-. by apply (CommitBody_Break_inv x s).
Qed.

(** A [Commit] that returns with no fault recorded ran [Root] to the end
    without a fault, then its own loop, then committed the global trie. *)
Lemma Commit_no_fault_inv sc s h s' :
  Commit sc s = Return h s' → Error s' = None →
  ∃ s0 s1,
    Root_completes sc s s0 ∧ err s0 = None ∧
    CommitLoop (rangeAccounts sc (cachedAccounts s0)) s0 = Continue s1 ∧
    TrieCommit (kv s1) (trie s1) = (trie s', kv s', Ok h) ∧
    cachedAccounts s' = cachedAccounts s1.
Proof.
  unfold Commit. destruct (Root sc s) as [h0 s0|] eqn:Hret; [|done].
  destruct (CommitLoop _ _) as [s1|s1|] eqn:Hloop; [| |done].
  2:{ intros [= _ <-] Herr. by destruct (CommitLoop_Break_inv _ _ _ Hloop). }
  destruct (CommitLoop_Continue_inv _ _ _ Hloop) as (Ht & He1 & Hc1).
  destruct (TrieCommit _ _) as [[t db] [root|e]] eqn:Hcommit; [|by intros [= _ <-]].
  intros [= <- <-] Herr. simpl in Herr.
  assert (Herr0 : err s0 = None) by congruence.
  exists s0, s1. split; [by apply (Root_no_fault_completes _ _ h0)|]. done.
Qed.

(** ** Reads of the global trie along [Root] and [Commit] *)

Section Reads.
Hypothesis laws : ReadLaws B.

Lemma RootBody_read sc b addr s s' :
  RootBody sc b s = Continue s' → err s' = None → b ≠ addr →
  TryGet (kv s') (trie s') (addr_bytes addr) = TryGet (kv s) (trie s) (addr_bytes addr).
Proof.
  intros Hrun Herr Hne.
  assert (Hk : addr_bytes b ≠ addr_bytes addr).
  { intros Heq. by apply Hne, (read_addr_inj laws). }
  pose proof (RootBody_Continue_inv _ _ _ _ Hrun) as Hinv.
  destruct (cachedAccounts s !! b) as [a|]; [|by subst].
  destruct (isEmpty a).
  - subst. rewrite Delete_kv. apply Delete_no_fault in Herr as [_ Hdel].
    by apply (read_delete_ne laws _ _ _ _ _ Hk Hdel).
  - destruct Hinv as (a1 & t & -> & _ & Hup). simpl.
    destruct (isDirty a1); [|by subst].
    destruct Hup as (enc & _ & Hup). by apply (read_update_ne laws _ _ _ _ _ _ Hk Hup).
Qed.

Lemma RootLoop_absent_read sc addr l : ∀ s s',
  RootLoop sc l s = Continue s' → err s' = None →
  cachedAccounts s !! addr = None →
  TryGet (kv s') (trie s') (addr_bytes addr) = TryGet (kv s) (trie s) (addr_bytes addr).
Proof.
  induction l as [|x l IH]; intros s s' Hrun Herr Ha.
  - by injection Hrun as <-.
  - destruct (RootLoop_cons _ _ _ _ _ Hrun) as (s1 & Hx & Hl).
    pose proof (RootLoop_err_mono _ _ _ _ Hl Herr) as Herr1.
    pose proof (RootBody_absent_stays _ _ _ _ _ Hx Ha) as Ha1.
    rewrite (IH _ _ Hl Herr Ha1).
    destruct (decide (x = addr)) as [->|Hne].
    + rewrite (RootBody_absent _ _ _ Ha) in Hx. by injection Hx as <-.
    + by apply (RootBody_read sc x).
Qed.

(** After a loop that left no fault, the address of an empty entry it
    reached reads as absent from the global trie. *)
Lemma RootLoop_pruned_read sc addr a l : ∀ s s',
  NoDup l → addr ∈ l →
  cachedAccounts s !! addr = Some a → isEmpty a = true →
  RootLoop sc l s = Continue s' → err s' = None →
  TryGet (kv s') (trie s') (addr_bytes addr) = Ok [].
Proof.
  induction l as [|x l IH]; intros s s' Hnd Hin Ha He Hrun Herr;
    [by apply elem_of_nil in Hin|].
  apply NoDup_cons in Hnd as [Hx Hnd].
  destruct (RootLoop_cons _ _ _ _ _ Hrun) as (s1 & Hbody & Hl).
  pose proof (RootLoop_err_mono _ _ _ _ Hl Herr) as Herr1.
  destruct (decide (addr = x)) as [->|Hne].
  - rewrite (RootBody_empty _ _ _ _ Ha He) in Hbody. injection Hbody as <-.
    rewrite (RootLoop_absent_read _ x _ _ _ Hl Herr)
      by (rewrite Delete_cache; apply lookup_delete_eq).
    rewrite Delete_kv. apply Delete_no_fault in Herr1 as [_ Hdel].
    by apply (read_delete_eq laws _ _ _ _ Hdel).
  - destruct (RootBody_frame _ _ _ _ Hbody) as [_ Hfr].
    apply (IH s1 s'); try done.
    + by apply elem_of_cons in Hin as [?|?].
    + by rewrite Hfr.
Qed.

(** Committing storage tries does not change what any trie reads. *)
Lemma CommitLoop_read l : ∀ s s',
  CommitLoop l s = Continue s' →
  ∀ t k, TryGet (kv s') t k = TryGet (kv s) t k.
Proof.
  induction l as [|x l IH]; intros s s' Hrun t k.
  - by injection Hrun as <-.
  - simpl in Hrun. destruct (CommitBody x s) as [s1| |] eqn:Hx; [|done..].
    rewrite (IH _ _ Hrun).
    destruct (CommitBody_Continue_inv _ _ _ Hx) as (_ & _ & _ & [->|(st & st' & h & Hc)]);
      [done|].
    by apply (read_commit_other laws _ _ _ _ _ _ _ Hc).
Qed.

End Reads.

(** C2. When the loop of [Root] reaches a cached account with zero
    balance and no code, it removes the entry from the cache and calls
    [TryDelete] on the global trie for its address.  After a [Root] or a
    [Commit] that returns with no fault recorded, [Exists] is false for
    that address, whatever the trie held for it before.  On a backend on
    which nothing fails, [Root] and [Commit] do return so from a state
    without a fault. *)
Theorem Root_prunes_empty_account sc s addr a :
  order_ok sc → ReadLaws B →
  cachedAccounts s !! addr = Some a → isEmpty a = true →
  RootBody sc addr s = Continue (Delete addr s) ∧
  cachedAccounts (Delete addr s) !! addr = None ∧
  trie (Delete addr s) = (TryDelete (kv s) (trie s) (addr_bytes addr)).1 ∧
  (∀ h s', Root sc s = Return h s' → Error s' = None →
           cachedAccounts s' !! addr = None ∧ Exists addr s' = (false, s')) ∧
  (∀ h s', Commit sc s = Return h s' → Error s' = None →
           cachedAccounts s' !! addr = None ∧ Exists addr s' = (false, s')) ∧
  (FaultFree B → Error s = None →
   (∃ h s', Root sc s = Return h s' ∧ Error s' = None) ∧
   (∃ h s', Commit sc s = Return h s' ∧ Error s' = None)).
Proof.
  intros Hsc laws Ha He.
  assert (Htotal : FaultFree B → Error s = None →
     (∃ h s', Root sc s = Return h s' ∧ Error s' = None) ∧
     (∃ h s', Commit sc s = Return h s' ∧ Error s' = None)).
  { intros ff Herr. split.
    - destruct (Root_completes_ff ff sc s Hsc) as (s' & Hrun & He').
      exists (TrieHash (trie s')), s'. split; [by apply Root_completes_Return|congruence].
    - destruct (Commit_returns_ff ff sc s Hsc) as (h & s' & Hret & He').
      exists h, s'. split; [done|congruence]. }
  destruct (order_ok_accounts sc (cachedAccounts s) Hsc) as [Hnd Hin].
  assert (Hmem : addr ∈ rangeAccounts sc (cachedAccounts s)) by (apply Hin; by exists a).
  assert (HRoot : ∀ s', Root_completes sc s s' → err s' = None →
            cachedAccounts s' !! addr = None ∧
            TryGet (kv s') (trie s') (addr_bytes addr) = Ok []).
  { intros s' Hrun Herr.
    split; [by eapply Root_completes_prunes|].
    by eapply RootLoop_pruned_read. }
  split; [by apply RootBody_empty with a|].
  split; [rewrite Delete_cache; apply lookup_delete_eq|].
  split; [unfold Delete; simpl; by destruct (TryDelete _ _ _) as [t [e|]]|].
  split; [|split; [|exact Htotal]].
  - intros h s' Hret Herr.
    destruct (HRoot _ (Root_no_fault_completes _ _ _ _ Hret Herr) Herr) as [Hc Hread].
    split; [done|]. unfold Exists. by rewrite Hc, Hread.
  - intros h s' Hret Herr.
    destruct (Commit_no_fault_inv _ _ _ _ Hret Herr)
      as (s0 & s1 & Hrun & Herr0 & Hloop & Hcommit & Hcache).
    destruct (HRoot _ Hrun Herr0) as [Hc Hread].
    destruct (CommitLoop_Continue_inv _ _ _ Hloop) as (Ht & _ & Hc1).
    assert (Hc' : cachedAccounts s' !! addr = None) by (rewrite Hcache; by apply Hc1).
    split; [done|]. unfold Exists. rewrite Hc'.
    rewrite (read_commit_self laws _ _ _ _ _ _ Hcommit).
    by rewrite (CommitLoop_read laws _ _ _ Hloop), Ht, Hread.
Qed.

(** Closes a branch of [GetStorage] in which the entry just put into the
    cache is still there. *)
Local Ltac entry_stays Hfin Hrun :=
  eapply Hfin; [| | |exact Hrun]; [apply cache_put_lookup|done..].

(** C10. For an address that is neither cached nor in the global trie,
    [Exists] is false; [GetBalance], [GetCode] and [GetStorage] put a
    fresh empty entry into the cache and leave the trie as it is, and from
    then on [Exists] is true for the address, until a [Root] that runs its
    loop to the end, or a [Commit] that returns with no fault recorded,
    removes the entry again; on a backend on which nothing fails [Root]
    always runs its loop to the end. *)
Theorem read_creates_cache_entry sc addr s enc :
  order_ok sc →
  cachedAccounts s !! addr = None →
  TryGet (kv s) (trie s) (addr_bytes addr) = Ok enc →
  length enc = 0%nat →
  let entry := mkCached false noStorage 0 None (BytesToHash (Keccak256 []))
                        zeroHash ∅ None in
  let pruned s1 :=
    (∀ s2, Root_completes sc s1 s2 → cachedAccounts s2 !! addr = None) ∧
    (∀ h s2, Commit sc s1 = Return h s2 → Error s2 = None →
             cachedAccounts s2 !! addr = None) in
  Exists addr s = (false, s) ∧
  GetBalance addr s = (0, cache_put addr entry s) ∧
  GetCode addr s = (None, cache_put addr entry s) ∧
  Exists addr (cache_put addr entry s) = (true, cache_put addr entry s) ∧
  trie (cache_put addr entry s) = trie s ∧
  pruned (cache_put addr entry s) ∧
  (∀ key, ∃ v s1 a1,
     GetStorage addr key s = Return v s1 ∧
     cachedAccounts s1 !! addr = Some a1 ∧ isEmpty a1 = true ∧
     trie s1 = trie s ∧
     Exists addr s1 = (true, s1) ∧
     pruned s1) ∧
  (FaultFree B → ∀ s1, ∃ s2, Root_completes sc s1 s2).
Proof.
  intros Hsc Hc Hread Hlen entry pruned.
  assert (Htotal : FaultFree B → ∀ s1, ∃ s2, Root_completes sc s1 s2).
  { intros ff s1. destruct (Root_completes_ff ff sc s1 Hsc) as (s2 & ? & _). by exists s2. }
  assert (Hpruned : ∀ s1 a1,
    cachedAccounts s1 !! addr = Some a1 → isEmpty a1 = true → pruned s1).
  { intros s1 a1 Ha1 He1. split.
    - intros s2. by apply (Root_completes_prunes sc addr a1).
    - intros h s2 Hret Herr.
      destruct (Commit_no_fault_inv _ _ _ _ Hret Herr)
        as (s0 & s3 & Hrun & _ & Hloop & _ & ->).
      destruct (CommitLoop_Continue_inv _ _ _ Hloop) as (_ & _ & Habs).
      apply Habs. by apply (Root_completes_prunes sc addr a1 s1). }
  assert (Hget : getAccount addr s = (Ok entry, cache_put addr entry s)).
  { unfold getAccount. rewrite Hc, Hread. by rewrite decide_True. }
  split; [unfold Exists; by rewrite Hc, Hread, decide_True|].
  split; [unfold GetBalance; by rewrite Hget|].
  split; [unfold GetCode; by rewrite Hget|].
  split; [unfold Exists; by rewrite cache_put_lookup|].
  split; [done|].
  split; [apply (Hpruned _ entry); [apply cache_put_lookup|done]|].
  split; [|exact Htotal].
  intros key.
  assert (Hfin : ∀ v s1 a1,
    cachedAccounts s1 !! addr = Some a1 → isEmpty a1 = true → trie s1 = trie s →
    GetStorage addr key s = Return v s1 →
    ∃ v s1 a1,
     GetStorage addr key s = Return v s1 ∧
     cachedAccounts s1 !! addr = Some a1 ∧ isEmpty a1 = true ∧
     trie s1 = trie s ∧
     Exists addr s1 = (true, s1) ∧
     pruned s1).
  { intros v s1 a1 Ha1 He1 Ht1 Hrun. exists v, s1, a1.
    repeat split; try done.
    - unfold Exists. by rewrite Ha1.
    - by apply (Hpruned s1 a1).
    - by apply (Hpruned s1 a1). }
  assert (Hrun : GetStorage addr key s =
    match getTrie addr (cache_put addr entry s) with
    | Panic => Panic
    | Return (Err e) s2 => Return zeroHash (set_err (Some e) s2)
    | Return (Ok st) s2 =>
      match TryGet (kv s2) st (hash_bytes key) with
      | Err e => Return zeroHash (set_err (Some e) s2)
      | Ok enc' =>
        if decide (length enc' = 0%nat) then Return zeroHash s2
        else match rlpSplit enc' with
             | Err e => Return zeroHash (set_err (Some e) s2)
             | Ok content =>
               Return (BytesToHash content)
                 (modify addr (λ a', set_storage (<[key := BytesToHash content]> (storage a')) a') s2)
             end
      end
    end).
  { unfold GetStorage. by rewrite Hc, Hget. }
  rewrite (getTrie_handle _ _ entry) in Hrun by apply cache_put_lookup.
  destruct (handle _ entry) as [st|e]; [|entry_stays Hfin Hrun].
  rewrite cache_put_put in Hrun.
  destruct (TryGet _ st _) as [enc'|e]; [|entry_stays Hfin Hrun].
  destruct (decide (length enc' = 0%nat)); [entry_stays Hfin Hrun|].
  destruct (rlpSplit enc') as [content|e]; [|entry_stays Hfin Hrun].
  eapply Hfin; [| | |exact Hrun].
  - by rewrite modify_lookup, cache_put_lookup.
  - done.
  - done.
Qed.

(** ** Independence of the iteration order *)

Section Determinism.
Hypothesis ff : FaultFree B.
Hypothesis can : Canonical B.

(** The digest [Commit] returns, in closed form. *)
Lemma Commit_ff sc s :
  order_ok sc →
  ∃ s', Commit sc s =
        Return (TrieHash (foldl (trieOp sc (kv s) (cachedAccounts s)) (trie s)
                            (rangeAccounts sc (cachedAccounts s)))) s'.
Proof.
  intros Hsc. destruct (order_ok_accounts sc (cachedAccounts s) Hsc) as [Hnd _].
  destruct (RootLoop_ff ff sc _ s Hnd) as (s0 & Hloop & _ & Ht0).
  unfold Commit. rewrite (Root_completes_Return _ _ _ Hloop).
  destruct (CommitLoop_ff ff (rangeAccounts sc (cachedAccounts s0)) s0)
    as (s1 & -> & _ & Ht1).
  destruct (ff_TrieCommit ff (kv s1) (trie s1)) as [h Hc].
  pose proof (can_commit_digest can _ _ _ Hc) as ->.
  destruct (TrieCommit _ _) as [[t db] r]. simpl in Hc. subst r.
  eexists. by rewrite Ht1, Ht0.
Qed.

(** Writes to the keys of two distinct addresses commute. *)
Lemma applyWrite_comm db k1 k2 w1 w2 t :
  k1 ≠ k2 →
  applyWrite db k2 w2 (applyWrite db k1 w1 t) =
  applyWrite db k1 w1 (applyWrite db k2 w2 t).
Proof.
  intros Hne. assert (Hne' : k2 ≠ k1) by congruence.
  destruct w1 as [| |enc1], w2 as [| |enc2]; simpl; try done.
  - by apply (can_delete_delete can).
  - symmetry. by apply (can_update_delete can).
  - by apply (can_update_delete can).
  - by apply (can_update_update can).
Qed.

Lemma trieOp_comm sc db (m : gmap Address (cachedAccount B)) t x1 x2 :
  x1 ≠ x2 →
  trieOp sc db m (trieOp sc db m t x1) x2 = trieOp sc db m (trieOp sc db m t x2) x1.
Proof.
  intros Hne. unfold trieOp.
  destruct (m !! x1) as [a1|], (m !! x2) as [a2|]; try done.
  apply applyWrite_comm. intros Heq. by apply Hne, (can_addr_inj can).
Qed.

(** The storage trie after a flush does not depend on the order in which
    the overlay is walked. *)
Lemma pushAll_order sc1 sc2 db st0 (m : storageT) :
  order_ok sc1 → order_ok sc2 →
  pushAll db st0 (rangeStorage sc1 m) = pushAll db st0 (rangeStorage sc2 m).
Proof.
  intros Hsc1 Hsc2. unfold pushAll.
  apply (foldl_permutation_keys fst).
  - destruct Hsc1 as [_ H1], Hsc2 as [_ H2]. by rewrite H1, H2.
  - by apply (order_ok_storage sc1 m).
  - intros t p1 p2 Hne. apply (can_update_update can).
    intros Heq. by apply Hne, (can_hash_inj can).
Qed.

Lemma writeKind_order sc1 sc2 db a :
  order_ok sc1 → order_ok sc2 → writeKind sc1 db a = writeKind sc2 db a.
Proof.
  intros Hsc1 Hsc2. unfold writeKind.
  destruct (isEmpty a); [done|].
  destruct (storageStep a); [done| |done].
  destruct (handle db a) as [st0|e]; [|done].
  unfold syncAccount, recordOf. simpl.
  by rewrite (pushAll_order sc1 sc2 db st0 (storage a) Hsc1 Hsc2).
Qed.

(** The digest of [Commit] does not depend on the iteration order. *)
Lemma Commit_order sc1 sc2 s :
  order_ok sc1 → order_ok sc2 →
  ∃ h s1 s2, Commit sc1 s = Return h s1 ∧ Commit sc2 s = Return h s2.
Proof.
  intros Hsc1 Hsc2.
  destruct (Commit_ff sc1 s Hsc1) as (s1 & H1).
  destruct (Commit_ff sc2 s Hsc2) as (s2 & H2).
  eexists _, s1, s2. split; [exact H1|]. rewrite H2. do 2 f_equal.
  destruct (order_ok_accounts sc2 (cachedAccounts s) Hsc2) as [Hnd _].
  rewrite (foldl_permutation_keys id _ (rangeAccounts sc2 (cachedAccounts s))
             (rangeAccounts sc1 (cachedAccounts s))).
  - apply foldl_ext_in. intros t x _. unfold trieOp.
    destruct (cachedAccounts s !! x) as [a|]; [|done].
    by rewrite (writeKind_order sc2 sc1).
  - destruct Hsc1 as [H1' _], Hsc2 as [H2' _]. by rewrite H1', H2'.
  - by rewrite list_fmap_id.
  - intros t x1 x2 Hne. by apply trieOp_comm.
Qed.

End Determinism.

(** C9. On a backend on which nothing fails and whose tries are
    determined by their content, two states opened from the same root
    over stores with the same content and driven through the same
    sequence of [SetBalance] / [SetStorage] / [SetCode] calls return the
    same digest from [Commit], whatever order their maps are walked
    in. *)
Theorem Commit_deterministic sc1 sc2 root db (ms : list mutation) s1 s2 :
  FaultFree B → Canonical B →
  order_ok sc1 → order_ok sc2 →
  New root db = Ok s1 →
  New root db = Ok s2 →
  ∃ h s1' s2',
    Commit sc1 (apply_mutations ms s1) = Return h s1' ∧
    Commit sc2 (apply_mutations ms s2) = Return h s2'.
Proof.
  intros ff can Hsc1 Hsc2 Hnew1 Hnew2.
  assert (s2 = s1) as -> by congruence.
  by apply Commit_order.
Qed.

End Proofs.

(** * Further properties of the operations *)

Section Behaviour.
Context {B : Backend}.
Implicit Types (s : State B) (a : cachedAccount B) (addr : Address) (key value : Hash).
Implicit Types (sc : MapOrder B) (e : error).

(** ** Mutators and accessors *)

Lemma getAccount_frame addr s (r : result error (cachedAccount B)) s1 :
  getAccount addr s = (r, s1) →
  trie s1 = trie s ∧ kv s1 = kv s ∧
  ∀ b, b ≠ addr → cachedAccounts s1 !! b = cachedAccounts s !! b.
Proof.
  destruct r as [a|e]; intros H.
  - rewrite (getAccount_Ok _ _ _ _ H). repeat split.
    intros b Hb. by apply cache_put_lookup_ne.
  - destruct (getAccount_Err _ _ _ _ H) as (_ & Hc & Ht & Hk).
    repeat split; try done. intros b _. by rewrite Hc.
Qed.

Lemma getAccount_Ok_err addr s a s1 :
  getAccount addr s = (Ok a, s1) → err s1 = err s.
Proof. intros H. by rewrite (getAccount_Ok _ _ _ _ H). Qed.

Lemma modify_put addr f a s :
  modify addr f (cache_put addr a s) = cache_put addr (f a) s.
Proof.
  rewrite (modify_cached addr f _ a) by apply cache_put_lookup.
  apply cache_put_put.
Qed.

Lemma SetBalance_Ok addr (v : Z) s a s1 :
  getAccount addr s = (Ok a, s1) →
  SetBalance addr v s = cache_put addr (set_balance v (set_isDirty true a)) s.
Proof.
  intros H. unfold SetBalance. rewrite H, (getAccount_Ok _ _ _ _ H).
  exact (modify_put _ _ _ _).
Qed.

Lemma SetStorage_Ok addr key value s a s1 :
  getAccount addr s = (Ok a, s1) →
  SetStorage addr key value s =
    cache_put addr (set_storage (<[key := value]> (storage a))
                      (set_storageStep storageSet a)) s.
Proof.
  intros H. unfold SetStorage. rewrite H, (getAccount_Ok _ _ _ _ H).
  exact (modify_put _ _ _ _).
Qed.

Lemma SetCode_Ok addr (c : option bytes) s a s1 :
  getAccount addr s = (Ok a, s1) →
  SetCode addr c s =
    let h := BytesToHash (slice c) in
    let p := kvPut (kv s) (hash_bytes h) (slice c) in
    cache_put addr (set_code c (set_codeHash h (set_isDirty true a)))
      (match p.2 with
       | Some e => set_err (Some e) (set_kv p.1 s)
       | None => set_kv p.1 s
       end).
Proof.
  intros H. unfold SetCode. rewrite H, (getAccount_Ok _ _ _ _ H). simpl.
  destruct (kvPut _ _ _) as [db [e|]]; simpl;
    unfold modify, cache_put, set_cachedAccounts; simpl;
    by rewrite alter_insert_eq.
Qed.

(** X1. When the account of [addr] loads, [SetBalance] followed by
    [GetBalance] returns the balance just written and changes nothing
    more; the code of the account is the one it had, and the fault flag is
    not touched. *)
Theorem SetBalance_GetBalance addr (v : Z) s a s1 :
  getAccount addr s = (Ok a, s1) →
  GetBalance addr (SetBalance addr v s) = (v, SetBalance addr v s) ∧
  GetCode addr (SetBalance addr v s) = (code a, SetBalance addr v s) ∧
  Error (SetBalance addr v s) = Error s.
Proof.
  intros H. rewrite (SetBalance_Ok _ v _ _ _ H).
  unfold GetBalance, GetCode.
  rewrite (getAccount_cached _ _ _ (cache_put_lookup _ _ _)). done.
Qed.

(** X2. When the account loads, [SetCode] followed by [GetCode] returns
    the code just written, nil or not, and [GetBalance] the balance the
    account had.  This holds also when [kv.Put] fails: its error goes to
    the fault flag and the cached account is updated all the same. *)
Theorem SetCode_GetCode addr (c : option bytes) s a s1 :
  getAccount addr s = (Ok a, s1) →
  GetCode addr (SetCode addr c s) = (c, SetCode addr c s) ∧
  GetBalance addr (SetCode addr c s) = (balance a, SetCode addr c s) ∧
  (∀ e, (kvPut (kv s) (hash_bytes (BytesToHash (slice c))) (slice c)).2 = Some e →
        Error (SetCode addr c s) = Some e).
Proof.
  intros H. rewrite (SetCode_Ok _ c _ _ _ H). cbv zeta.
  unfold GetBalance, GetCode.
  rewrite (getAccount_cached _ _ _ (cache_put_lookup _ _ _)).
  repeat split. intros e ->. done.
Qed.

(** X3. A second [SetBalance] on an address, or a second [SetStorage] on
    an address and key, replaces the first: the state is the one the
    second call alone would have left, and [GetStorage] returns the second
    value. *)
Theorem overwrite_leaves_no_trace addr key (v v' : Z) value value' s a s1 :
  getAccount addr s = (Ok a, s1) →
  SetBalance addr v' (SetBalance addr v s) = SetBalance addr v' s ∧
  SetStorage addr key value' (SetStorage addr key value s) =
    SetStorage addr key value' s ∧
  GetStorage addr key (SetStorage addr key value' (SetStorage addr key value s)) =
    Return value' (SetStorage addr key value' s).
Proof.
  intros H.
  assert (H2 : SetStorage addr key value' (SetStorage addr key value s) =
               SetStorage addr key value' s).
  { rewrite (SetStorage_Ok _ key value _ _ _ H), (SetStorage_Ok _ key value' _ _ _ H).
    erewrite SetStorage_Ok by (apply getAccount_cached, cache_put_lookup).
    rewrite cache_put_put. simpl.
    unfold set_storage, set_storageStep; simpl. by rewrite insert_insert_eq. }
  split; [|split; [exact H2|]].
  - rewrite (SetBalance_Ok _ v _ _ _ H), (SetBalance_Ok _ v' _ _ _ H).
    erewrite SetBalance_Ok by (apply getAccount_cached, cache_put_lookup).
    by rewrite cache_put_put.
  - rewrite H2, (SetStorage_Ok _ key value' _ _ _ H).
    unfold GetStorage. rewrite cache_put_lookup. simpl.
    by rewrite lookup_insert_eq.
Qed.


Lemma getTrie_frame addr s (r : result error SecureTrie) s' :
  getTrie addr s = Return r s' →
  trie s' = trie s ∧ kv s' = kv s ∧ err s' = err s ∧
  ∀ b, b ≠ addr → cachedAccounts s' !! b = cachedAccounts s !! b.
Proof.
  intros H. destruct (getTrie_Return _ _ _ _ H) as (a & Ha & Hr).
  destruct r as [st|e].
  - destruct Hr as [-> _]. repeat split. intros b Hb. by apply modify_lookup_ne.
  - by destruct Hr as [-> _].
Qed.

(** Every path of [GetStorage] returns, and what it leaves differs from
    the start only in the fault flag, which it can only raise, and in the
    entry of [addr]. *)
Lemma GetStorage_frame addr key s :
  ∃ v s', GetStorage addr key s = Return v s' ∧
          trie s' = trie s ∧ kv s' = kv s ∧
          (err s' = err s ∨ err s' ≠ None) ∧
          ∀ b, b ≠ addr → cachedAccounts s' !! b = cachedAccounts s !! b.
Proof.
  assert (Hpack : ∀ v s', GetStorage addr key s = Return v s' →
            trie s' = trie s → kv s' = kv s → (err s' = err s ∨ err s' ≠ None) →
            (∀ b, b ≠ addr → cachedAccounts s' !! b = cachedAccounts s !! b) →
            ∃ v s', GetStorage addr key s = Return v s' ∧
              trie s' = trie s ∧ kv s' = kv s ∧
              (err s' = err s ∨ err s' ≠ None) ∧
              ∀ b, b ≠ addr → cachedAccounts s' !! b = cachedAccounts s !! b).
  { intros v s' ? ? ? ? ?. by exists v, s'. }
  revert Hpack. unfold GetStorage. intros Hpack.
  destruct (cachedAccounts s !! addr ≫= _) as [v|].
  { eapply Hpack; [done..|by left|done]. }
  destruct (getAccount addr s) as [[a|e] s1] eqn:Hacc.
  2:{ destruct (getAccount_frame _ _ _ _ Hacc) as (? & ? & ?).
      eapply Hpack; [done..|by right|done]. }
  destruct (getAccount_frame _ _ _ _ Hacc) as (Ht1 & Hk1 & Hc1).
  pose proof (getAccount_Ok_lookup _ _ _ _ Hacc) as Ha1.
  pose proof (getAccount_Ok_err _ _ _ _ Hacc) as He1.
  rewrite (getTrie_handle _ _ _ Ha1) in *.
  destruct (handle (kv s1) a) as [st|e].
  2:{ eapply Hpack; [done..|by right|done]. }
  assert (Hc2 : ∀ b, b ≠ addr →
            cachedAccounts (cache_put addr (set_storageTrie (Some st) a) s1) !! b =
            cachedAccounts s !! b).
  { intros b Hb. rewrite cache_put_lookup_ne by done. by apply Hc1. }
  destruct (TryGet _ st _) as [enc|e].
  2:{ eapply Hpack; [done..|by right|done]. }
  destruct (decide (length enc = 0%nat)).
  { eapply Hpack; [done..|by left|done]. }
  destruct (rlpSplit enc) as [content|e].
  2:{ eapply Hpack; [done..|by right|done]. }
  eapply Hpack; [done..|by left|].
  intros b Hb. rewrite modify_lookup_ne by done. by apply Hc2.
Qed.

(** X4. [GetBalance], [GetCode], [Exists] and [GetStorage] never write
    the global trie or the store; [Exists] does not change the cache
    either; and [GetStorage] returns on every path: the entry whose trie
    handle it dereferences has just been loaded. *)
Theorem accessors_write_nothing addr key s :
  (trie (GetBalance addr s).2 = trie s ∧ kv (GetBalance addr s).2 = kv s) ∧
  (trie (GetCode addr s).2 = trie s ∧ kv (GetCode addr s).2 = kv s) ∧
  (trie (Exists addr s).2 = trie s ∧ kv (Exists addr s).2 = kv s ∧
   cachedAccounts (Exists addr s).2 = cachedAccounts s) ∧
  (∃ v s', GetStorage addr key s = Return v s' ∧ trie s' = trie s ∧ kv s' = kv s).
Proof.
  split; [|split; [|split]].
  - unfold GetBalance. destruct (getAccount addr s) as [[a|e] s1] eqn:H;
      by destruct (getAccount_frame _ _ _ _ H) as (? & ? & _).
  - unfold GetCode. destruct (getAccount addr s) as [[a|e] s1] eqn:H;
      by destruct (getAccount_frame _ _ _ _ H) as (? & ? & _).
  - unfold Exists. destruct (cachedAccounts s !! addr); [done|].
    destruct (TryGet _ _ _) as [enc|e]; [|done].
    by destruct (decide _).
  - destruct (GetStorage_frame addr key s) as (v & s' & ? & ? & ? & _ & _).
    by exists v, s'.
Qed.

(** X5. [SetBalance] and [SetStorage] write neither the global trie nor
    the store, and [SetCode] does not write the global trie: nothing
    reaches the trie before [Root].  None of the three changes the cached
    entry of another address; [SetStorage] changes the pending value of no
    other address or key, [SetBalance] and [SetCode] of none at all.  This
    holds whether or not the account loads. *)
Theorem mutators_touch_only_their_target addr (v : Z) key value (c : option bytes) s :
  (trie (SetBalance addr v s) = trie s ∧ kv (SetBalance addr v s) = kv s) ∧
  (trie (SetStorage addr key value s) = trie s ∧
   kv (SetStorage addr key value s) = kv s) ∧
  trie (SetCode addr c s) = trie s ∧
  (∀ b, b ≠ addr →
     cachedAccounts (SetBalance addr v s) !! b = cachedAccounts s !! b ∧
     cachedAccounts (SetStorage addr key value s) !! b = cachedAccounts s !! b ∧
     cachedAccounts (SetCode addr c s) !! b = cachedAccounts s !! b) ∧
  (∀ b k, (b, k) ≠ (addr, key) →
     overlayAt b k (SetStorage addr key value s) = overlayAt b k s) ∧
  (∀ b k, overlayAt b k (SetBalance addr v s) = overlayAt b k s ∧
          overlayAt b k (SetCode addr c s) = overlayAt b k s).
Proof.
  destruct (getAccount addr s) as [[a|e] s1] eqn:H.
  2:{ unfold SetBalance, SetStorage, SetCode, overlayAt. rewrite H.
      destruct (getAccount_Err _ _ _ _ H) as (_ & Hc & Ht & Hk). simpl.
      rewrite Hc. done. }
  pose proof (getAccount_Ok _ _ _ _ H) as Hs1.
  assert (Hov : ∀ k, cachedAccounts s !! addr ≫= (λ a0, storage a0 !! k) = storage a !! k).
  { intros k. destruct (cachedAccounts s !! addr) as [a0|] eqn:Ha.
    - rewrite (getAccount_cached _ _ _ Ha) in H. by injection H as <- _.
    - destruct (getAccount_loaded _ _ _ _ Ha H) as (-> & _). simpl.
      by rewrite lookup_empty. }
  rewrite (SetBalance_Ok _ v _ _ _ H), (SetStorage_Ok _ key value _ _ _ H),
    (SetCode_Ok _ c _ _ _ H). cbv zeta.
  assert (Hput : ∀ (a' : cachedAccount B) s0 b k,
            cachedAccounts s0 = cachedAccounts s →
            (b = addr → storage a' !! k = storage a !! k) →
            overlayAt b k (cache_put addr a' s0) = overlayAt b k s).
  { intros a' s0 b k Hc Hsame. unfold overlayAt. simpl. rewrite Hc.
    destruct (decide (b = addr)) as [->|Hb].
    - rewrite lookup_insert_eq. simpl. by rewrite Hov, Hsame.
    - by rewrite lookup_insert_ne. }
  split; [done|]. split; [done|].
  split; [by destruct (kvPut _ _ _) as [db [e|]]|].
  split; [|split].
  - intros b Hb. simpl. rewrite !lookup_insert_ne by done.
    by destruct (kvPut _ _ _) as [db [e|]].
  - intros b k Hne. apply Hput; [done|]. intros ->. simpl.
    apply lookup_insert_ne. intros ->. by apply Hne.
  - intros b k. split; apply Hput; try done.
    by destruct (kvPut _ _ _) as [db [e|]].
Qed.


(** ** [Delete] *)

(** X6. [Delete] takes effect at once: the entry leaves the cache with
    whatever was pending in it, and the store and the other entries are
    untouched.  When the trie delete succeeds, on a backend where a
    deleted key reads as absent and the other keys read as before, the
    fault flag is unchanged, [Exists] is false, [GetBalance] and [GetCode]
    see a fresh empty account, and the other addresses read from the trie
    as before.  When the trie delete fails, the entry has left the cache
    all the same and the error is on the fault flag. *)
Theorem Delete_forgets_account addr s :
  ReadLaws B →
  cachedAccounts (Delete addr s) !! addr = None ∧
  kv (Delete addr s) = kv s ∧
  (∀ b, b ≠ addr → cachedAccounts (Delete addr s) !! b = cachedAccounts s !! b) ∧
  (∀ t', TryDelete (kv s) (trie s) (addr_bytes addr) = (t', None) →
     let fresh := mkCached false noStorage 0 None (BytesToHash (Keccak256 []))
                           zeroHash ∅ None in
     Error (Delete addr s) = Error s ∧
     Exists addr (Delete addr s) = (false, Delete addr s) ∧
     GetBalance addr (Delete addr s) = (0, cache_put addr fresh (Delete addr s)) ∧
     GetCode addr (Delete addr s) = (None, cache_put addr fresh (Delete addr s)) ∧
     ∀ b, b ≠ addr →
       TryGet (kv s) (trie (Delete addr s)) (addr_bytes b) =
       TryGet (kv s) (trie s) (addr_bytes b)) ∧
  (∀ t' e, TryDelete (kv s) (trie s) (addr_bytes addr) = (t', Some e) →
     Error (Delete addr s) = Some e).
Proof.
  intros laws.
  assert (Hc : cachedAccounts (Delete addr s) !! addr = None).
  { rewrite Delete_cache. apply lookup_delete_eq. }
  split; [exact Hc|]. split; [apply Delete_kv|].
  split; [intros b Hb; rewrite Delete_cache; by apply lookup_delete_ne|].
  split.
  - intros t' Hdel. cbv zeta.
    assert (Hs : Delete addr s =
                 set_trie t' (set_cachedAccounts (delete addr (cachedAccounts s)) s)).
    { unfold Delete. simpl. by rewrite Hdel. }
    assert (Hread : TryGet (kv (Delete addr s)) (trie (Delete addr s)) (addr_bytes addr)
                    = Ok []).
    { rewrite Hs. simpl. by apply (read_delete_eq laws _ _ _ _ Hdel). }
    assert (Hacc : getAccount addr (Delete addr s) =
              (Ok (mkCached false noStorage 0 None (BytesToHash (Keccak256 []))
                            zeroHash ∅ None),
               cache_put addr (mkCached false noStorage 0 None
                                 (BytesToHash (Keccak256 [])) zeroHash ∅ None)
                         (Delete addr s))).
    { unfold getAccount. rewrite Hc, Hread. done. }
    split; [by rewrite Hs|].
    split; [unfold Exists; by rewrite Hc, Hread|].
    split; [unfold GetBalance; by rewrite Hacc|].
    split; [unfold GetCode; by rewrite Hacc|].
    intros b Hb. rewrite Hs. simpl.
    apply (read_delete_ne laws _ _ _ _ _ (λ Heq, Hb (eq_sym (read_addr_inj laws _ _ Heq))) Hdel).
  - intros t' e Hdel. unfold Delete. simpl. by rewrite Hdel.
Qed.

(** ** What [Root] and [Commit] return and keep *)

(** X7. A [Root] that returns has either run its loop over every cached
    entry, and returns the digest of the global trie it leaves, or it has
    stopped early, returns the zero hash, and has left an error on the
    fault flag: the zero hash of an early return never comes with a nil
    [Error()]. *)
Theorem Root_result sc s h s' :
  Root sc s = Return h s' →
  (Root_completes sc s s' ∧ h = TrieHash (trie s')) ∨
  (h = zeroHash ∧ Error s' ≠ None).
Proof.
  unfold Root, Root_completes.
  destruct (RootLoop _ _ _) as [s1|s1|] eqn:Hloop; [| |done].
  - intros [= <- <-]. by left.
  - intros [= <- <-]. right. split; [done|].
    by destruct (RootLoop_Break_inv _ _ _ _ Hloop).
Qed.

Lemma CommitBody_deletes addr s s' :
  CommitBody addr s = Continue s' → cachedAccounts s' !! addr = None.
Proof.
  unfold CommitBody. destruct (cachedAccounts s !! addr) as [a|] eqn:Ha.
  2:{ by intros [= <-]. }
  destruct (storageStep a).
  1,2: intros [= <-]; simpl; apply lookup_delete_eq.
  rewrite (getTrie_handle _ _ _ Ha).
  destruct (handle (kv s) a) as [st|e]; [|done].
  destruct (TrieCommit _ _) as [[st' db] [h|e]]; [|done].
  intros [= <-]. simpl. apply lookup_delete_eq.
Qed.

Lemma CommitLoop_clears l : ∀ s s',
  CommitLoop l s = Continue s' →
  ∀ b, b ∈ l ∨ cachedAccounts s !! b = None → cachedAccounts s' !! b = None.
Proof.
  induction l as [|x l IH]; intros s s' Hrun b Hb.
  - injection Hrun as <-. destruct Hb as [Hb|Hb]; [by apply elem_of_nil in Hb|done].
  - simpl in Hrun. destruct (CommitBody x s) as [s1| |] eqn:Hx; [|done..].
    apply (IH _ _ Hrun).
    destruct Hb as [[->|Hb]%elem_of_cons|Hb].
    + right. by apply (CommitBody_deletes x s).
    + by left.
    + right. by destruct (CommitBody_Continue_inv _ _ _ Hx) as (_ & _ & Hc & _); apply Hc.
Qed.

Lemma CommitLoop_empties sc s s' :
  order_ok sc →
  CommitLoop (rangeAccounts sc (cachedAccounts s)) s = Continue s' →
  cachedAccounts s' = ∅.
Proof.
  intros Hok Hrun. apply map_empty. intros b.
  apply (CommitLoop_clears _ _ _ Hrun).
  destruct (cachedAccounts s !! b) as [a|] eqn:Hb; [left|by right].
  apply (order_ok_accounts sc _ Hok). by rewrite Hb.
Qed.

(** X8. A [Commit] that returns has either failed, returning the zero
    hash with an error on the fault flag, or it leaves the cache empty and
    returns the root that [Commit] of the global trie reported. *)
Theorem Commit_clears_cache sc s h s' :
  order_ok sc →
  Commit sc s = Return h s' →
  (h = zeroHash ∧ Error s' ≠ None) ∨
  (cachedAccounts s' = ∅ ∧
   ∃ s1, TrieCommit (kv s1) (trie s1) = (trie s', kv s', Ok h) ∧ Error s' = Error s1).
Proof.
  intros Hok. unfold Commit. destruct (Root sc s) as [h0 s0|]; [|done].
  destruct (CommitLoop _ _) as [s1|s1|] eqn:Hloop; [| |done].
  - destruct (TrieCommit _ _) as [[t db] [root|e]] eqn:Hc.
    + intros [= <- <-]. right. split; [simpl; by apply (CommitLoop_empties sc s0)|].
      by exists s1.
    + intros [= <- <-]. by left.
  - intros [= <- <-]. left. split; [done|]. by apply (CommitLoop_Break_inv _ _ _ Hloop).
Qed.

Lemma RootBody_keeps sc addr s s' a :
  RootBody sc addr s = Continue s' →
  cachedAccounts s !! addr = Some a → isEmpty a = false →
  ∃ a', cachedAccounts s' !! addr = Some a' ∧
        balance a' = balance a ∧ code a' = code a ∧ codeHash a' = codeHash a.
Proof.
  intros Hrun Ha He. pose proof (RootBody_Continue_inv _ _ _ _ Hrun) as Hinv.
  rewrite Ha, He in Hinv. destruct Hinv as (a1 & t & -> & Hstep & _).
  exists (set_isDirty false a1). split; [apply cache_put_lookup|].
  destruct (storageStep a).
  - by subst.
  - by destruct Hstep as (st0 & _ & _ & ->).
  - by subst.
Qed.

Lemma Root_completes_keeps sc addr a s s' :
  order_ok sc → Root_completes sc s s' →
  cachedAccounts s !! addr = Some a → isEmpty a = false →
  ∃ a', cachedAccounts s' !! addr = Some a' ∧
        balance a' = balance a ∧ code a' = code a ∧ codeHash a' = codeHash a.
Proof.
  intros Hok Hrun Ha He.
  destruct (order_ok_accounts sc (cachedAccounts s) Hok) as [Hnd Hin].
  assert (Hl : addr ∈ rangeAccounts sc (cachedAccounts s)) by (apply Hin; by rewrite Ha).
  destruct (RootLoop_visit _ _ _ _ _ _ Hnd Hl Ha Hrun) as (s0 & s1 & _ & Ha0 & Hbody & ->).
  by apply (RootBody_keeps sc addr s0).
Qed.

(** X9. After a [Root] that ran its loop to the end the cache holds
    exactly the entries that were there and are not empty: nothing is
    added, every empty entry is gone, and every other entry is kept with
    its balance, code and code hash, clean and not pending.  On a backend
    on which nothing fails [Root] always runs its loop to the end. *)
Theorem Root_keeps_nonempty_accounts sc s :
  order_ok sc →
  (∀ s', Root_completes sc s s' →
   ∀ addr,
     match cachedAccounts s !! addr with
     | None => cachedAccounts s' !! addr = None
     | Some a =>
       if isEmpty a then cachedAccounts s' !! addr = None
       else ∃ a', cachedAccounts s' !! addr = Some a' ∧
                  balance a' = balance a ∧ code a' = code a ∧
                  codeHash a' = codeHash a ∧ settled a'
     end) ∧
  (FaultFree B → ∃ s', Root_completes sc s s').
Proof.
  intros Hok. split.
  2:{ intros ff. destruct (Root_completes_ff ff sc s Hok) as (s' & H & _). by exists s'. }
  intros s' Hrun addr.
  destruct (cachedAccounts s !! addr) as [a|] eqn:Ha.
  2:{ by apply (RootLoop_absent_stays _ _ _ _ _ Hrun). }
  destruct (isEmpty a) eqn:He.
  { by apply (Root_completes_prunes sc addr a s). }
  destruct (Root_completes_keeps _ _ _ _ _ Hok Hrun Ha He) as (a' & Ha' & Hb & Hc & Hh).
  exists a'. repeat split; try done.
  all: by destruct (Root_completes_settled _ _ _ Hok Hrun _ _ Ha') as (? & ? & ?).
Qed.

(** X10. [isEmpty] tests the code for nil, not for length: after
    [SetCode] with a non-nil code, even one of length zero, [Root] keeps
    the account whatever its balance; after [SetCode] with nil on an
    account of zero balance, [Root] removes it. *)
Theorem SetCode_nil_decides_pruning sc addr (c : bytes) s a s1 :
  order_ok sc →
  getAccount addr s = (Ok a, s1) →
  (∀ s', Root_completes sc (SetCode addr (Some c) s) s' →
         ∃ a', cachedAccounts s' !! addr = Some a' ∧
               code a' = Some c ∧ balance a' = balance a) ∧
  (balance a = 0 →
   ∀ s', Root_completes sc (SetCode addr None s) s' →
         cachedAccounts s' !! addr = None).
Proof.
  intros Hok H. split.
  - intros s' Hrun.
    assert (Ha : cachedAccounts (SetCode addr (Some c) s) !! addr =
                 Some (set_code (Some c)
                         (set_codeHash (BytesToHash (slice (Some c)))
                            (set_isDirty true a)))).
    { rewrite (SetCode_Ok _ _ _ _ _ H). apply cache_put_lookup. }
    destruct (Root_completes_keeps _ _ _ _ _ Hok Hrun Ha) as (a' & Ha' & Hb & Hc & _).
    { unfold isEmpty. simpl. apply andb_false_r. }
    by exists a'.
  - intros Hz s' Hrun.
    assert (Ha : cachedAccounts (SetCode addr None s) !! addr =
                 Some (set_code None
                         (set_codeHash (BytesToHash (slice None))
                            (set_isDirty true a)))).
    { rewrite (SetCode_Ok _ _ _ _ _ H). apply cache_put_lookup. }
    apply (Root_completes_prunes sc addr _ _ _ Hok Ha); [|done].
    unfold isEmpty. simpl. by rewrite Hz.
Qed.


(** ** Panics *)

Lemma RootBody_Crash_inv sc addr s :
  RootBody sc addr s = Crash →
  ∃ a st0, cachedAccounts s !! addr = Some a ∧ isEmpty a = false ∧
           storageStep a = storageSet ∧ handle (kv s) a = Ok st0 ∧
           pushOk (kv s) st0 (rangeStorage sc (storage a)) = false.
Proof.
  intros Hrun. destruct (cachedAccounts s !! addr) as [a|] eqn:Ha.
  2:{ by rewrite (RootBody_absent _ _ _ Ha) in Hrun. }
  destruct (isEmpty a) eqn:He.
  { by rewrite (RootBody_empty _ _ _ _ Ha He) in Hrun. }
  rewrite (RootBody_eq _ _ _ _ Ha He) in Hrun.
  assert (Hflush : RootFlush addr s ≠ Crash).
  { rewrite (RootFlush_eq _ _ _ Ha). destruct (isDirty a); [|done].
    destruct (rlpEncodeAccount _); [|done].
    by destruct (TryUpdate _ _ _ _) as [t [e|]]. }
  destruct (storageStep a) eqn:Hstep; [done| |done].
  destruct (handle (kv s) a) as [st0|e] eqn:Hh; [|done].
  destruct (pushOk _ _ _) eqn:Hok.
  - cbv zeta in Hrun. destruct (rlpEncodeAccount _); [|done].
    by destruct (TryUpdate _ _ _ _) as [t [e|]].
  - by exists a, st0.
Qed.

Lemma RootLoop_Crash_inv sc l : ∀ s,
  NoDup l → RootLoop sc l s = Crash →
  ∃ addr a st0, addr ∈ l ∧ cachedAccounts s !! addr = Some a ∧ isEmpty a = false ∧
    storageStep a = storageSet ∧ handle (kv s) a = Ok st0 ∧
    pushOk (kv s) st0 (rangeStorage sc (storage a)) = false.
Proof.
  induction l as [|x l IH]; intros s Hnd Hrun; [done|].
  apply NoDup_cons in Hnd as [Hx Hnd]. simpl in Hrun.
  destruct (RootBody sc x s) as [s1|s1|] eqn:Hbody; [|done|].
  - destruct (IH s1 Hnd Hrun) as (addr & a & st0 & Hin & Ha & Hrest).
    destruct (RootBody_frame _ _ _ _ Hbody) as [Hkv Hfr].
    exists addr, a, st0. split; [by apply list_elem_of_further|].
    rewrite <- Hkv. split; [|done]. rewrite <- Hfr; [done|]. by intros ->.
  - destruct (RootBody_Crash_inv _ _ _ Hbody) as (a & st0 & Hrest).
    exists x, a, st0. split; [apply list_elem_of_here|done].
Qed.

Lemma CommitLoop_no_Crash l : ∀ s, CommitLoop l s ≠ Crash.
Proof.
  induction l as [|x l IH]; intros s; [done|]. simpl.
  destruct (CommitBody x s) as [s1|s1|] eqn:Hx; [apply IH|done|].
  exfalso. revert Hx. unfold CommitBody.
  destruct (cachedAccounts s !! x) as [a|] eqn:Ha; [|done].
  destruct (storageStep a); [done..|].
  rewrite (getTrie_handle _ _ _ Ha).
  destruct (handle (kv s) a) as [st|e]; [|done].
  by destruct (TrieCommit _ _) as [[st' db] [h|e]].
Qed.

Lemma pushOk_false db l : ∀ st,
  pushOk db st l = false → ∃ t k v, (TryUpdate db t k v).2 ≠ None.
Proof.
  induction l as [|p l IH]; intros st; [done|]. simpl.
  destruct (TryUpdate db st _ _) as [st' [e|]] eqn:Hup; [|apply IH].
  intros _. eexists _, _, _. by rewrite Hup.
Qed.

(** X11. [Root] panics only when a [TryUpdate] on the storage trie of a
    pending, non-empty cached account fails: the nil handle that
    [updateStorage] then returns with a nil error is dereferenced.
    [Commit] panics exactly when its call of [Root] does.  So on a trie
    whose updates never fail neither of them panics.  (A balance is an
    integer here: a nil [*big.Int] handed to [SetBalance] is outside the
    model.) *)
Theorem Root_panic_cause sc s :
  order_ok sc →
  (Root sc s = Panic →
   ∃ addr a st0, cachedAccounts s !! addr = Some a ∧ isEmpty a = false ∧
     storageStep a = storageSet ∧ handle (kv s) a = Ok st0 ∧
     pushOk (kv s) st0 (rangeStorage sc (storage a)) = false) ∧
  (Commit sc s = Panic ↔ Root sc s = Panic) ∧
  ((∀ db t k v, (TryUpdate db t k v).2 = None) →
   Root sc s ≠ Panic ∧ Commit sc s ≠ Panic).
Proof.
  intros Hok.
  assert (H1 : Root sc s = Panic →
   ∃ addr a st0, cachedAccounts s !! addr = Some a ∧ isEmpty a = false ∧
     storageStep a = storageSet ∧ handle (kv s) a = Ok st0 ∧
     pushOk (kv s) st0 (rangeStorage sc (storage a)) = false).
  { unfold Root. destruct (RootLoop _ _ _) as [s1|s1|] eqn:Hloop; [done..|]. intros _.
    destruct (order_ok_accounts sc (cachedAccounts s) Hok) as [Hnd _].
    destruct (RootLoop_Crash_inv _ _ _ Hnd Hloop) as (addr & a & st0 & _ & Hrest).
    by exists addr, a, st0. }
  assert (H2 : Commit sc s = Panic ↔ Root sc s = Panic).
  { unfold Commit. destruct (Root sc s) as [h0 s0|]; [|done]. split; [|done].
    destruct (CommitLoop _ _) as [s1|s1|] eqn:Hloop.
    - by destruct (TrieCommit _ _) as [[t db] [root|e]].
    - done.
    - by destruct (CommitLoop_no_Crash _ _ Hloop). }
  split; [exact H1|]. split; [exact H2|].
  intros Hup.
  assert (H3 : Root sc s ≠ Panic).
  { intros Hp. destruct (H1 Hp) as (addr & a & st0 & _ & _ & _ & _ & Hpush).
    destruct (pushOk_false _ _ _ Hpush) as (t & k & v & Hne). by apply Hne. }
  split; [exact H3|]. intros Hp. by apply H3, H2.
Qed.

(** ** What [Root] leaves in the tries *)

Section Written.
Hypothesis laws : ReadLaws B.
Hypothesis wl : WriteLaws B.

Lemma RootLoop_other_read sc addr l : ∀ s s',
  addr ∉ l → RootLoop sc l s = Continue s' → err s' = None →
  TryGet (kv s') (trie s') (addr_bytes addr) = TryGet (kv s) (trie s) (addr_bytes addr).
Proof.
  induction l as [|x l IH]; intros s s' Hnin Hrun Herr.
  - by injection Hrun as <-.
  - apply not_elem_of_cons in Hnin as [Hne Hnin].
    destruct (RootLoop_cons _ _ _ _ _ Hrun) as (s1 & Hx & Hl).
    pose proof (RootLoop_err_mono _ _ _ _ Hl Herr) as Herr1.
    rewrite (IH _ _ Hnin Hl Herr).
    apply (RootBody_read laws sc x); [done..|]. by intros ->.
Qed.

Lemma RootBody_written sc addr s s' a :
  RootBody sc addr s = Continue s' →
  cachedAccounts s !! addr = Some a → isEmpty a = false →
  isDirty a = true ∨ storageStep a = storageSet →
  ∃ a1 enc, passed sc (kv s) a a1 ∧
    cachedAccounts s' !! addr = Some (set_isDirty false a1) ∧
    rlpEncodeAccount (recordOf a1) = Ok enc ∧
    TryGet (kv s') (trie s') (addr_bytes addr) = Ok enc.
Proof.
  intros Hrun Ha He Hd. pose proof (RootBody_Continue_inv _ _ _ _ Hrun) as Hinv.
  rewrite Ha, He in Hinv. destruct Hinv as (a1 & t & -> & Hstep & Hup).
  assert (Hd1 : isDirty a1 = true).
  { destruct (storageStep a) eqn:Hs.
    - subst a1. by destruct Hd.
    - by destruct Hstep as (st0 & _ & _ & ->).
    - subst a1. by destruct Hd. }
  rewrite Hd1 in Hup. destruct Hup as (enc & Henc & Hup).
  exists a1, enc. split; [exact Hstep|]. split; [apply cache_put_lookup|].
  split; [done|]. simpl. by apply (write_update_eq wl _ _ _ _ _ Hup).
Qed.

Lemma RootLoop_written sc addr a l : ∀ s s',
  NoDup l → addr ∈ l →
  cachedAccounts s !! addr = Some a → isEmpty a = false →
  isDirty a = true ∨ storageStep a = storageSet →
  RootLoop sc l s = Continue s' → err s' = None →
  ∃ a1 enc, passed sc (kv s) a a1 ∧
    cachedAccounts s' !! addr = Some (set_isDirty false a1) ∧
    rlpEncodeAccount (recordOf a1) = Ok enc ∧
    TryGet (kv s') (trie s') (addr_bytes addr) = Ok enc.
Proof.
  induction l as [|x l IH]; intros s s' Hnd Hin Ha He Hd Hrun Herr;
    [by apply elem_of_nil in Hin|].
  apply NoDup_cons in Hnd as [Hx Hnd].
  destruct (RootLoop_cons _ _ _ _ _ Hrun) as (s1 & Hbody & Hl).
  destruct (decide (addr = x)) as [->|Hne].
  - destruct (RootBody_written _ _ _ _ _ Hbody Ha He Hd) as (a1 & enc & Hp & Hc & Henc & Hr).
    exists a1, enc. split; [done|].
    destruct (RootLoop_frame _ _ _ _ Hl) as [_ Hfr].
    rewrite (Hfr x Hx), (RootLoop_other_read _ _ _ _ _ Hx Hl Herr). done.
  - destruct (RootBody_frame _ _ _ _ Hbody) as [Hkv Hfr].
    rewrite <- Hkv. apply (IH s1 s'); try done.
    + by apply elem_of_cons in Hin as [?|?].
    + by rewrite Hfr.
Qed.

End Written.

(** X12. After a [Root] that ran to the end with no fault, the global
    trie holds, under the address of every non-empty account that was
    dirty or pending, the encoding of the record now cached for it (on a
    backend where a written key reads back and writes to other keys leave
    it alone).  Balance and code hash are those of the account.  For a
    pending account the storage root of that record is the digest of its
    storage trie after the overlay was pushed into it, not the root it had
    before; for any other account the storage root is unchanged.  On a
    backend on which nothing fails, a state with no fault recorded always
    gets such a [Root]. *)
Theorem Root_writes_account_record sc s addr a :
  order_ok sc → ReadLaws B → WriteLaws B →
  cachedAccounts s !! addr = Some a → isEmpty a = false →
  isDirty a = true ∨ storageStep a = storageSet →
  (∀ s', Root_completes sc s s' → Error s' = None →
   ∃ a' enc,
     cachedAccounts s' !! addr = Some a' ∧
     rlpEncodeAccount (recordOf a') = Ok enc ∧
     TryGet (kv s') (trie s') (addr_bytes addr) = Ok enc ∧
     balance a' = balance a ∧ codeHash a' = codeHash a ∧
     match storageStep a with
     | storageSet =>
       ∃ st0, handle (kv s) a = Ok st0 ∧
         storageTrie a' = Some (pushAll (kv s) st0 (rangeStorage sc (storage a))) ∧
         storageRoot a' = TrieHash (pushAll (kv s) st0 (rangeStorage sc (storage a)))
     | _ => storageRoot a' = storageRoot a
     end) ∧
  (FaultFree B → Error s = None →
   ∃ s', Root_completes sc s s' ∧ Error s' = None).
Proof.
  intros Hok laws wl Ha He Hd. split.
  2:{ intros ff Herr. destruct (Root_completes_ff ff sc s Hok) as (s' & H & Herr').
      exists s'. split; [done|]. by rewrite Herr'. }
  intros s' Hrun Herr.
  destruct (order_ok_accounts sc (cachedAccounts s) Hok) as [Hnd Hin].
  assert (Hl : addr ∈ rangeAccounts sc (cachedAccounts s)) by (apply Hin; by rewrite Ha).
  destruct (RootLoop_written laws wl _ _ _ _ _ _ Hnd Hl Ha He Hd Hrun Herr)
    as (a1 & enc & Hp & Hc & Henc & Hr).
  exists (set_isDirty false a1), enc. split; [done|]. split; [done|]. split; [done|].
  unfold passed in Hp. destruct (storageStep a).
  - by subst.
  - destruct Hp as (st0 & Hh & _ & ->). repeat split. by exists st0.
  - by subst.
Qed.


(** ** Storage after the flush *)

Lemma pushAll_cons db st (p : Hash * Hash) l :
  pushAll db st (p :: l) =
  pushAll db (TryUpdate db st (hash_bytes p.1) (encValue p.2)).1 l.
Proof. reflexivity. Qed.

Lemma pushAll_read_ne db l : ∀ st key,
  ReadLaws B → WriteLaws B →
  key ∉ l.*1 → pushOk db st l = true →
  TryGet db (pushAll db st l) (hash_bytes key) = TryGet db st (hash_bytes key).
Proof.
  induction l as [|p l IH]; intros st key laws wl Hnin Hok; [done|].
  rewrite fmap_cons in Hnin. apply not_elem_of_cons in Hnin as [Hne Hnin].
  simpl in Hok. rewrite pushAll_cons.
  destruct (TryUpdate db st (hash_bytes p.1) (encValue p.2)) as [st' [e|]] eqn:Hup; [done|].
  simpl. rewrite (IH st' key laws wl Hnin Hok).
  apply (read_update_ne laws _ _ _ _ _ _ (λ Heq, Hne (eq_sym (write_hash_inj wl _ _ Heq))) Hup).
Qed.

Lemma pushAll_read db l : ∀ st key value,
  ReadLaws B → WriteLaws B →
  NoDup l.*1 → (key, value) ∈ l → pushOk db st l = true →
  TryGet db (pushAll db st l) (hash_bytes key) = Ok (encValue value).
Proof.
  induction l as [|p l IH]; intros st key value laws wl Hnd Hin Hok;
    [by apply elem_of_nil in Hin|].
  rewrite fmap_cons in Hnd. apply NoDup_cons in Hnd as [Hp Hnd].
  simpl in Hok. rewrite pushAll_cons.
  destruct (TryUpdate db st (hash_bytes p.1) (encValue p.2)) as [st' [e|]] eqn:Hup; [done|].
  simpl. apply elem_of_cons in Hin as [<-|Hin].
  - rewrite (pushAll_read_ne db l st' key laws wl Hp Hok).
    by apply (write_update_eq wl _ _ _ _ _ Hup).
  - by apply (IH st' key value).
Qed.

(** X13. The flush of [Root] does not change what [GetStorage] returns.
    For a non-empty pending account, a value in the overlay is returned
    from the overlay before [Root]; [Root] empties the overlay; and
    [GetStorage] then reads the same value back from the storage trie and
    caches it again, writing neither trie nor store.  The codec is asked
    to read back what it wrote for this value.  On a backend on which
    nothing fails [Root] always runs its loop to the end. *)
Theorem GetStorage_after_Root sc s addr a key value (c : bytes) :
  order_ok sc → ReadLaws B → WriteLaws B →
  cachedAccounts s !! addr = Some a → isEmpty a = false →
  storageStep a = storageSet →
  storage a !! key = Some value →
  length (encValue value) ≠ 0%nat →
  rlpSplit (encValue value) = Ok c → BytesToHash c = value →
  GetStorage addr key s = Return value s ∧
  (∀ s', Root_completes sc s s' →
   overlayAt addr key s' = None ∧
   ∃ s2, GetStorage addr key s' = Return value s2 ∧
         overlayAt addr key s2 = Some value ∧
         trie s2 = trie s' ∧ kv s2 = kv s' ∧ Error s2 = Error s') ∧
  (FaultFree B → ∃ s', Root_completes sc s s').
Proof.
  intros Hok laws wl Ha He Hstep Hkey Hlen Hsplit Hc.
  split. { unfold GetStorage. by rewrite Ha; simpl; rewrite Hkey. }
  split.
  2:{ intros ff. destruct (Root_completes_ff ff sc s Hok) as (s' & H & _). by exists s'. }
  intros s' Hrun.
  destruct (order_ok_accounts sc (cachedAccounts s) Hok) as [Hnd Hin].
  assert (Hl : addr ∈ rangeAccounts sc (cachedAccounts s)) by (apply Hin; by rewrite Ha).
  destruct (RootLoop_visit _ _ _ _ _ _ Hnd Hl Ha Hrun) as (s0 & s1 & Hkv0 & Ha0 & Hbody & Hend).
  destruct (RootLoop_frame _ _ _ _ Hrun) as [Hkv _].
  pose proof (RootBody_Continue_inv _ _ _ _ Hbody) as Hinv.
  rewrite Ha0, He, Hstep in Hinv.
  destruct Hinv as (a1 & t & -> & (st0 & Hh & Hpush & ->) & _).
  rewrite cache_put_lookup in Hend. rewrite Hkv0 in *.
  set (l := rangeStorage sc (storage a)) in *.
  set (st := pushAll (kv s) st0 l) in *.
  destruct (order_ok_storage sc (storage a) Hok) as [Hnds Hins].
  assert (Hread : TryGet (kv s') st (hash_bytes key) = Ok (encValue value)).
  { rewrite Hkv. apply pushAll_read; try done. by apply Hins. }
  assert (Hov : overlayAt addr key s' = None).
  { unfold overlayAt. rewrite Hend. simpl. fold l.
    unfold l. rewrite (dropKeys_all sc _ Hok). apply lookup_empty. }
  split; [exact Hov|].
  unfold GetStorage. unfold overlayAt in Hov. rewrite Hov.
  rewrite (getAccount_cached _ _ _ Hend).
  rewrite (getTrie_handle _ _ _ Hend). simpl. fold l. fold st.
  rewrite cache_put_id by (by rewrite Hend).
  rewrite Hread. destruct (decide _) as [H0|_]; [done|].
  rewrite Hsplit, Hc. eexists. split; [done|].
  unfold overlayAt. rewrite modify_lookup, Hend. simpl.
  by rewrite lookup_insert_eq.
Qed.

(** ** Through [Commit] and back *)

Lemma CommitLoop_blobs l : ∀ s s',
  Durable B → CommitLoop l s = Continue s' →
  ∀ k, kvGet (kv s') k = kvGet (kv s) k.
Proof.
  induction l as [|x l IH]; intros s s' dur Hrun k.
  - by injection Hrun as <-.
  - simpl in Hrun. destruct (CommitBody x s) as [s1| |] eqn:Hx; [|done..].
    rewrite (IH _ _ dur Hrun).
    destruct (CommitBody_Continue_inv _ _ _ Hx) as (_ & _ & _ & [->|(st & st' & h & Hc)]);
      [done|].
    by apply (dur_blobs dur _ _ _ _ _ _ Hc).
Qed.

Lemma getAccount_reload addr s (enc : bytes) (r : account Hash) (c : option bytes) :
  cachedAccounts s !! addr = None →
  TryGet (kv s) (trie s) (addr_bytes addr) = Ok enc →
  length enc ≠ 0%nat →
  rlpDecodeAccount enc = Ok r →
  (if decide (hash_bytes (CodeHash r) = Keccak256 []) then c = None
   else kvGet (kv s) (hash_bytes (CodeHash r)) = Ok c) →
  let a2 := mkCached false noStorage (Balance r) c (CodeHash r) (StorageRoot r) ∅ None in
  getAccount addr s = (Ok a2, cache_put addr a2 s) ∧
  Exists addr s = (true, s).
Proof.
  intros Hc Hread Hlen Hdec Hcode. unfold getAccount, Exists. rewrite Hc, Hread.
  destruct (decide (length enc = 0%nat)); [done|].
  rewrite Hdec. simpl.
  destruct (decide (hash_bytes (CodeHash r) = Keccak256 [])).
  - by rewrite Hcode.
  - by rewrite Hcode.
Qed.

(** The account as a state after [Commit] loads it again. *)
Lemma Commit_reloads sc s addr a h s' s2 :
  order_ok sc → ReadLaws B → WriteLaws B → Durable B →
  cachedAccounts s !! addr = Some a → isEmpty a = false →
  isDirty a = true ∨ storageStep a = storageSet →
  normal (codeHash a) → storageStep a = storageSet ∨ normal (storageRoot a) →
  codeStored (kv s) a →
  Commit sc s = Return h s' → Error s' = None →
  New h (kv s') = Ok s2 →
  ∃ a1, passed sc (kv s) a a1 ∧
    cachedAccounts s' = ∅ ∧ cachedAccounts s2 = ∅ ∧ kv s2 = kv s' ∧
    ∀ s3, s3 = s' ∨ s3 = s2 →
      getAccount addr s3 =
        (Ok (mkCached false noStorage (balance a) (code a) (codeHash a)
                      (storageRoot a1) ∅ None),
         cache_put addr (mkCached false noStorage (balance a) (code a) (codeHash a)
                                  (storageRoot a1) ∅ None) s3) ∧
      Exists addr s3 = (true, s3).
Proof.
  intros Hok laws wl dur Ha He Hd Hnc Hns Hcode Hret Herr Hnew.
  destruct (Commit_no_fault_inv _ _ _ _ Hret Herr)
    as (s0 & s1 & Hroot & Herr0 & Hloop & Hcommit & Hcache).
  assert (Hempty : cachedAccounts s' = ∅).
  { rewrite Hcache. by apply (CommitLoop_empties sc s0). }
  destruct (order_ok_accounts sc (cachedAccounts s) Hok) as [Hnd Hin].
  assert (Hl : addr ∈ rangeAccounts sc (cachedAccounts s)) by (apply Hin; by rewrite Ha).
  destruct (RootLoop_written laws wl _ _ _ _ _ _ Hnd Hl Ha He Hd Hroot Herr0)
    as (a1 & enc & Hp & _ & Henc & Hr).
  destruct (RootLoop_frame _ _ _ _ Hroot) as [Hkv0 _].
  destruct (CommitLoop_Continue_inv _ _ _ Hloop) as (Ht1 & _ & _).
  destruct (dur_reopen dur _ _ _ _ _ Hcommit) as (t2 & Hopen & Hreads).
  unfold New in Hnew. rewrite Hopen in Hnew. injection Hnew as <-.
  assert (Hread1 : TryGet (kv s1) (trie s1) (addr_bytes addr) = Ok enc).
  { by rewrite (CommitLoop_read laws _ _ _ Hloop), Ht1. }
  assert (Hblob : ∀ k, kvGet (kv s') k = kvGet (kv s) k).
  { intros k. rewrite (dur_blobs dur _ _ _ _ _ k Hcommit).
    by rewrite (CommitLoop_blobs _ _ _ dur Hloop), Hkv0. }
  assert (Hrec : balance a1 = balance a ∧ codeHash a1 = codeHash a ∧
                 normal (storageRoot a1)).
  { unfold passed in Hp. destruct (storageStep a).
    - subst. by destruct Hns.
    - destruct Hp as (st0 & _ & _ & ->). simpl. repeat split. apply (dur_digest dur).
    - subst. by destruct Hns. }
  destruct Hrec as (Hb1 & Hh1 & Hn1).
  destruct (dur_codec dur (recordOf a1) enc) as [Hlen Hdec];
    [simpl; by rewrite Hh1|done..|].
  exists a1. split; [done|]. split; [done|]. split; [done|]. split; [done|].
  assert (Hload : ∀ s3, cachedAccounts s3 = ∅ → kv s3 = kv s' →
            TryGet (kv s3) (trie s3) (addr_bytes addr) = Ok enc →
            getAccount addr s3 =
              (Ok (mkCached false noStorage (balance a) (code a) (codeHash a)
                            (storageRoot a1) ∅ None),
               cache_put addr (mkCached false noStorage (balance a) (code a) (codeHash a)
                                        (storageRoot a1) ∅ None) s3) ∧
            Exists addr s3 = (true, s3)).
  { intros s3 Hc3 Hkv3 Hread3.
    destruct (getAccount_reload addr s3 enc (recordOf a1) (code a)) as [Hacc Hex];
      try done.
    { by rewrite Hc3, lookup_empty. }
    { simpl. rewrite Hh1, Hkv3, Hblob. exact Hcode. }
    simpl in Hacc. rewrite Hh1, Hb1 in Hacc. done. }
  intros s3 [->| ->].
  - apply Hload; [done..|].
    by rewrite (read_commit_self laws _ _ _ _ _ _ Hcommit).
  - apply Hload; [done..|]. simpl. by rewrite Hreads.
Qed.

(** X14. A non-empty account that was dirty or pending survives
    [Commit].  When [Commit] returns with no fault, the cache is empty,
    and both the committed state and a state opened by [New] at the
    returned root, over the store [Commit] left, find the account
    ([Exists]) and load it with the balance and the code it had
    ([GetBalance], [GetCode]).  The backend is asked for the read and
    write laws, for a committed trie to open again from its root, for
    commits to keep the blobs of the store, and for the account codec to
    read back what it wrote; the code hash and the storage root of the
    account are hash values in the sense of [normal], and the store holds
    the code of the account under its code hash.  On a backend on which
    nothing fails, a state with no fault recorded always gets such a
    [Commit] and [New]. *)
Theorem account_survives_Commit sc s addr a :
  order_ok sc → ReadLaws B → WriteLaws B → Durable B →
  cachedAccounts s !! addr = Some a → isEmpty a = false →
  isDirty a = true ∨ storageStep a = storageSet →
  normal (codeHash a) → normal (storageRoot a) →
  codeStored (kv s) a →
  (∀ h s' s2,
     Commit sc s = Return h s' → Error s' = None →
     New h (kv s') = Ok s2 →
     cachedAccounts s' = ∅ ∧ cachedAccounts s2 = ∅ ∧
     ∃ root,
       let a2 := mkCached false noStorage (balance a) (code a) (codeHash a) root ∅ None in
       let reads s3 :=
         Exists addr s3 = (true, s3) ∧
         GetBalance addr s3 = (balance a, cache_put addr a2 s3) ∧
         GetCode addr s3 = (code a, cache_put addr a2 s3) in
       reads s' ∧ reads s2) ∧
  (FaultFree B → Error s = None →
   ∃ h s' s2, Commit sc s = Return h s' ∧ Error s' = None ∧ New h (kv s') = Ok s2).
Proof.
  intros Hok laws wl dur Ha He Hd Hnc Hns Hcode. split.
  2:{ intros ff Herr.
      destruct (Commit_returns_ff ff sc s Hok) as (h & s' & Hret & Herr').
      rewrite Herr in Herr'.
      destruct (Commit_no_fault_inv _ _ _ _ Hret Herr') as (_ & s1 & _ & _ & _ & Hcommit & _).
      destruct (dur_reopen dur _ _ _ _ _ Hcommit) as (t2 & Hopen & _).
      exists h, s', (mkState t2 (kv s') ∅ None). repeat split; [done..|].
      unfold New. by rewrite Hopen. }
  intros h s' s2 Hret Herr Hnew.
  destruct (Commit_reloads sc s addr a h s' s2) as (a1 & _ & He1 & He2 & _ & Hload);
    try done.
  { by right. }
  split; [done|]. split; [done|]. exists (storageRoot a1). cbv zeta.
  destruct (Hload s' (or_introl eq_refl)) as [Hacc1 Hex1].
  destruct (Hload s2 (or_intror eq_refl)) as [Hacc2 Hex2].
  unfold GetBalance, GetCode. by rewrite Hacc1, Hacc2.
Qed.

(** X15. When [Commit] of a trie reports the digest that [Hash]
    computes, a [Commit] that returns with no fault returns the digest
    that [Root] returns on the same state; on a backend on which nothing
    fails, a state with no fault recorded always gets such a [Commit]. *)
Theorem Commit_returns_Root_digest sc s :
  (∀ db t h0, (TrieCommit db t).2 = Ok h0 → h0 = TrieHash t) →
  (∀ h s', Commit sc s = Return h s' → Error s' = None →
           ∃ s0, Root sc s = Return h s0 ∧ Error s0 = None) ∧
  (FaultFree B → order_ok sc → Error s = None →
   ∃ h s', Commit sc s = Return h s' ∧ Error s' = None).
Proof.
  intros Hdigest. split.
  2:{ intros ff Hok Herr. destruct (Commit_returns_ff ff sc s Hok) as (h & s' & Hret & Herr').
      exists h, s'. split; [done|]. by rewrite Herr'. }
  intros h s' Hret Herr.
  destruct (Commit_no_fault_inv _ _ _ _ Hret Herr)
    as (s0 & s1 & Hroot & Herr0 & Hloop & Hcommit & _).
  destruct (CommitLoop_Continue_inv _ _ _ Hloop) as (Ht1 & _ & _).
  exists s0. split; [|done].
  rewrite (Root_completes_Return _ _ _ Hroot). f_equal.
  rewrite <- Ht1. symmetry. apply (Hdigest (kv s1)). by rewrite Hcommit.
Qed.


(** ** The fault flag *)

Lemma getAccount_err_sticky addr s (r : result error (cachedAccount B)) s1 :
  getAccount addr s = (r, s1) → err s ≠ None → err s1 ≠ None.
Proof.
  destruct r as [a|e]; intros H Hs.
  - by rewrite (getAccount_Ok_err _ _ _ _ H).
  - revert H. unfold getAccount. destruct (cachedAccounts s !! addr); [done|].
    destruct (TryGet _ _ _) as [enc|e']; [|by intros [= _ <-]].
    destruct (decide _); [done|].
    destruct (rlpDecodeAccount enc) as [data|e']; [|by intros [= _ <-]].
    destruct (decide _); [done|].
    destruct (kvGet _ _); [done|by intros [= _ <-]].
Qed.

Lemma CommitLoop_err_sticky l s s' :
  (CommitLoop l s = Continue s' ∨ CommitLoop l s = Break s') →
  err s ≠ None → err s' ≠ None.
Proof.
  intros [H|H] Hs.
  - destruct (CommitLoop_Continue_inv _ _ _ H) as (_ & -> & _). done.
  - by apply (CommitLoop_Break_inv _ _ _ H).
Qed.

(** X16. No call that returns clears the fault flag: once [Error()] is
    non-nil it is non-nil after [GetBalance], [GetCode], [GetStorage],
    [Exists], [SetBalance], [SetStorage], [SetCode], [Delete], [Root] and
    [Commit]; the error it holds may be replaced by a later one. *)
Theorem fault_flag_is_sticky sc addr key value (v : Z) (c : option bytes) s :
  Error s ≠ None →
  Error (GetBalance addr s).2 ≠ None ∧
  Error (GetCode addr s).2 ≠ None ∧
  Error (Exists addr s).2 ≠ None ∧
  Error (SetBalance addr v s) ≠ None ∧
  Error (SetStorage addr key value s) ≠ None ∧
  Error (SetCode addr c s) ≠ None ∧
  Error (Delete addr s) ≠ None ∧
  (∀ x s', GetStorage addr key s = Return x s' → Error s' ≠ None) ∧
  (∀ h s', Root sc s = Return h s' → Error s' ≠ None) ∧
  (∀ h s', Commit sc s = Return h s' → Error s' ≠ None).
Proof.
  unfold Error. intros Hs.
  assert (HRoot : ∀ h s', Root sc s = Return h s' → err s' ≠ None).
  { intros h s'. unfold Root. destruct (RootLoop _ _ _) as [s1|s1|] eqn:Hloop; [| |done].
    - intros [= _ <-] Hn. by apply Hs, (RootLoop_err_mono _ _ _ _ Hloop).
    - intros [= _ <-]. by apply (RootLoop_Break_inv _ _ _ _ Hloop). }
  repeat split.
  - unfold GetBalance. destruct (getAccount addr s) as [[a|e] s1] eqn:H; [|done].
    by apply (getAccount_err_sticky _ _ _ _ H).
  - unfold GetCode. destruct (getAccount addr s) as [[a|e] s1] eqn:H; [|done].
    by apply (getAccount_err_sticky _ _ _ _ H).
  - unfold Exists. destruct (cachedAccounts s !! addr); [done|].
    destruct (TryGet _ _ _) as [enc|e]; [|done]. by destruct (decide _).
  - unfold SetBalance. destruct (getAccount addr s) as [[a|e] s1] eqn:H; [|done].
    by apply (getAccount_err_sticky _ _ _ _ H).
  - unfold SetStorage. destruct (getAccount addr s) as [[a|e] s1] eqn:H; [|done].
    by apply (getAccount_err_sticky _ _ _ _ H).
  - unfold SetCode. destruct (getAccount addr s) as [[a|e] s1] eqn:H; [|done].
    pose proof (getAccount_err_sticky _ _ _ _ H Hs).
    by destruct (kvPut _ _ _) as [db [e|]].
  - unfold Delete. simpl. by destruct (TryDelete _ _ _) as [t [e|]].
  - intros x s' Hret.
    destruct (GetStorage_frame addr key s) as (x' & s'' & Hret' & _ & _ & Herr & _).
    rewrite Hret in Hret'. injection Hret' as -> ->.
    destruct Herr as [->|?]; done.
  - exact HRoot.
  - intros h s'. unfold Commit. destruct (Root sc s) as [h0 s0|] eqn:HR; [|done].
    pose proof (HRoot _ _ eq_refl) as H0.
    destruct (CommitLoop _ _) as [s1|s1|] eqn:Hloop; [| |done].
    + pose proof (CommitLoop_err_sticky _ _ _ (or_introl Hloop) H0) as H1.
      destruct (TrieCommit _ _) as [[t db] [root|e]]; by intros [= _ <-].
    + intros [= _ <-]. by apply (CommitLoop_err_sticky _ _ _ (or_intror Hloop) H0).
Qed.

(** ** Reads schedule no write *)

Lemma quiet_same s s' : cachedAccounts s' = cachedAccounts s → quiet s s'.
Proof. intros Hc b. rewrite Hc. by destruct (cachedAccounts s !! b). Qed.

Lemma quiet_put addr s s' a a' s1 :
  getAccount addr s = (Ok a, s1) →
  sameRecord a a' →
  cachedAccounts s' = <[addr := a']> (cachedAccounts s) →
  quiet s s'.
Proof.
  intros Hacc Hsame Hc b. rewrite Hc.
  destruct (decide (b = addr)) as [->|Hne].
  - rewrite lookup_insert_eq.
    destruct (cachedAccounts s !! addr) as [a0|] eqn:Ha.
    + rewrite (getAccount_cached _ _ _ Ha) in Hacc. by injection Hacc as <- _.
    + destruct (getAccount_loaded _ _ _ _ Ha Hacc) as (_ & _ & Hs & Hd).
      destruct Hsame as (-> & -> & _). done.
  - rewrite lookup_insert_ne by done. by destruct (cachedAccounts s !! b).
Qed.

Lemma getAccount_quiet addr s (r : result error (cachedAccount B)) s1 :
  getAccount addr s = (r, s1) → quiet s s1.
Proof.
  destruct r as [a|e]; intros H.
  - apply (quiet_put addr s s1 a a s1 H); [done|].
    by rewrite (getAccount_Ok _ _ _ _ H).
  - apply quiet_same. by destruct (getAccount_Err _ _ _ _ H) as (_ & Hc & _).
Qed.

Lemma GetStorage_quiet addr key s v s' :
  GetStorage addr key s = Return v s' → quiet s s'.
Proof.
  unfold GetStorage.
  destruct (cachedAccounts s !! addr ≫= _) as [v0|];
    [intros [= _ <-]; by apply quiet_same|].
  destruct (getAccount addr s) as [[a|e] s1] eqn:Hacc.
  2:{ intros [= _ <-]. apply quiet_same.
      by destruct (getAccount_Err _ _ _ _ Hacc) as (_ & Hc & _). }
  pose proof (getAccount_Ok _ _ _ _ Hacc) as Hs1.
  pose proof (getAccount_Ok_lookup _ _ _ _ Hacc) as Ha1.
  rewrite (getTrie_handle _ _ _ Ha1).
  destruct (handle (kv s1) a) as [st|e].
  2:{ intros [= _ <-]. apply (quiet_put addr s _ a a s1 Hacc); [done|].
      by rewrite Hs1. }
  assert (Hq1 : ∀ s2, cachedAccounts s2 =
                      cachedAccounts (cache_put addr (set_storageTrie (Some st) a) s1) →
                      quiet s s2).
  { intros s2 Hc. apply (quiet_put addr s _ a (set_storageTrie (Some st) a) s1 Hacc);
      [done|]. rewrite Hc, Hs1. simpl. apply insert_insert_eq. }
  destruct (TryGet _ st _) as [enc|e]; [|intros [= _ <-]; by apply Hq1].
  destruct (decide (length enc = 0%nat)); [intros [= _ <-]; by apply Hq1|].
  destruct (rlpSplit enc) as [content|e]; [|intros [= _ <-]; by apply Hq1].
  intros [= _ <-].
  apply (quiet_put addr s _ a
           (set_storage (<[key := BytesToHash content]> (storage a))
              (set_storageTrie (Some st) a)) s1 Hacc); [done|].
  rewrite Hs1. simpl. rewrite alter_insert_eq. simpl. apply insert_insert_eq.
Qed.

(** X17. Reading schedules no write: after [GetBalance], [GetCode],
    [Exists] or [GetStorage] every cached entry that was there before has
    the balance, code, code hash, storage root, dirty flag and storage
    phase it had, and an entry the call added is clean and has no storage
    activity.  The value [GetStorage] writes back into the overlay does
    not make the account pending. *)
Theorem reads_schedule_no_write addr key s :
  quiet s (GetBalance addr s).2 ∧
  quiet s (GetCode addr s).2 ∧
  quiet s (Exists addr s).2 ∧
  (∀ v s', GetStorage addr key s = Return v s' → quiet s s').
Proof.
  split; [|split; [|split]].
  - unfold GetBalance. destruct (getAccount addr s) as [[a|e] s1] eqn:H;
      apply (getAccount_quiet _ _ _ _ H).
  - unfold GetCode. destruct (getAccount addr s) as [[a|e] s1] eqn:H;
      apply (getAccount_quiet _ _ _ _ H).
  - apply quiet_same. unfold Exists. destruct (cachedAccounts s !! addr); [done|].
    destruct (TryGet _ _ _) as [enc|e]; [|done]. by destruct (decide _).
  - apply GetStorage_quiet.
Qed.

(** ** The iteration order of [Root] *)

Lemma RootBody_entry sc addr s s' a :
  RootBody sc addr s = Continue s' →
  cachedAccounts s !! addr = Some a →
  cachedAccounts s' !! addr = rootEntry sc (kv s) a.
Proof.
  intros Hrun Ha. pose proof (RootBody_Continue_inv _ _ _ _ Hrun) as Hinv.
  rewrite Ha in Hinv. unfold rootEntry. destruct (isEmpty a).
  { subst. rewrite Delete_cache. apply lookup_delete_eq. }
  destruct Hinv as (a1 & t & -> & Hstep & _). rewrite cache_put_lookup.
  destruct (storageStep a).
  - by subst.
  - destruct Hstep as (st0 & -> & _ & ->). done.
  - by subst.
Qed.

(** The cache after a completed [Root], entry by entry. *)
Lemma Root_completes_entry sc s s' addr :
  order_ok sc → Root_completes sc s s' →
  cachedAccounts s' !! addr = cachedAccounts s !! addr ≫= rootEntry sc (kv s).
Proof.
  intros Hok Hrun. destruct (cachedAccounts s !! addr) as [a|] eqn:Ha; simpl.
  2:{ by apply (RootLoop_absent_stays _ _ _ _ _ Hrun). }
  destruct (order_ok_accounts sc (cachedAccounts s) Hok) as [Hnd Hin].
  assert (Hl : addr ∈ rangeAccounts sc (cachedAccounts s)) by (apply Hin; by rewrite Ha).
  destruct (RootLoop_visit _ _ _ _ _ _ Hnd Hl Ha Hrun) as (s0 & s1 & Hkv & Ha0 & Hbody & ->).
  rewrite <- Hkv. by apply (RootBody_entry sc addr s0).
Qed.

Section Canon.
Hypothesis can : Canonical B.

Lemma rootEntry_order sc1 sc2 db a :
  order_ok sc1 → order_ok sc2 → rootEntry sc1 db a = rootEntry sc2 db a.
Proof.
  intros H1 H2. unfold rootEntry. destruct (isEmpty a); [done|].
  destruct (storageStep a); [done| |done].
  destruct (handle db a) as [st0|e]; [|done].
  unfold syncAccount.
  by rewrite (pushAll_order can sc1 sc2 db st0 (storage a) H1 H2),
    (dropKeys_all sc1 _ H1), (dropKeys_all sc2 _ H2).
Qed.

Lemma foldl_trieOp_order sc1 sc2 db (m : gmap Address (cachedAccount B)) t :
  order_ok sc1 → order_ok sc2 →
  foldl (trieOp sc1 db m) t (rangeAccounts sc1 m) =
  foldl (trieOp sc2 db m) t (rangeAccounts sc2 m).
Proof.
  intros Hsc1 Hsc2.
  destruct (order_ok_accounts sc1 m Hsc1) as [Hnd _].
  rewrite (foldl_permutation_keys id _ (rangeAccounts sc1 m) (rangeAccounts sc2 m)).
  - apply foldl_ext_in. intros t' x _. unfold trieOp.
    destruct (m !! x) as [a|]; [|done].
    by rewrite (writeKind_order can sc1 sc2).
  - destruct Hsc1 as [H1' _], Hsc2 as [H2' _]. by rewrite H1', H2'.
  - by rewrite list_fmap_id.
  - intros t' x1 x2 Hne. by apply (trieOp_comm can).
Qed.

End Canon.

(** X18. On a backend on which nothing fails and whose tries are
    determined by their content, [Root] returns the same digest and leaves
    the same state whatever order its maps are walked in: the store and
    the fault flag of the start, and a cache that holds, for each entry
    that was not empty, that entry cleaned and, if it was pending, with
    its overlay flushed into its storage trie. *)
Theorem Root_order_independent sc1 sc2 s :
  FaultFree B → Canonical B →
  order_ok sc1 → order_ok sc2 →
  ∃ h s', Root sc1 s = Return h s' ∧ Root sc2 s = Return h s' ∧
          kv s' = kv s ∧ Error s' = Error s ∧
          ∀ addr, cachedAccounts s' !! addr =
                  cachedAccounts s !! addr ≫= rootEntry sc1 (kv s).
Proof.
  intros ff can H1 H2.
  destruct (order_ok_accounts sc1 (cachedAccounts s) H1) as [Hnd1 _].
  destruct (order_ok_accounts sc2 (cachedAccounts s) H2) as [Hnd2 _].
  destruct (RootLoop_ff ff sc1 _ s Hnd1) as (s1 & Hrun1 & Herr1 & Ht1).
  destruct (RootLoop_ff ff sc2 _ s Hnd2) as (s2 & Hrun2 & Herr2 & Ht2).
  destruct (RootLoop_frame _ _ _ _ Hrun1) as [Hkv1 _].
  destruct (RootLoop_frame _ _ _ _ Hrun2) as [Hkv2 _].
  assert (Hc : cachedAccounts s2 = cachedAccounts s1).
  { apply map_eq. intros addr.
    rewrite (Root_completes_entry sc1 s s1 addr H1 Hrun1),
      (Root_completes_entry sc2 s s2 addr H2 Hrun2).
    destruct (cachedAccounts s !! addr) as [a|]; [simpl|done].
    symmetry. by apply rootEntry_order. }
  assert (Ht : trie s2 = trie s1).
  { rewrite Ht1, Ht2. symmetry. by apply foldl_trieOp_order. }
  assert (Hs : s2 = s1).
  { rewrite <- (State_eta s1), <- (State_eta s2). congruence. }
  exists (TrieHash (trie s1)), s1.
  split; [by apply Root_completes_Return|].
  split; [rewrite <- Hs at 2; rewrite <- Hs at 1; by apply Root_completes_Return|].
  split; [done|]. split; [done|].
  intros addr. by apply Root_completes_entry.
Qed.

(** ** Storage through [Commit] and back *)

Lemma CommitLoop_quiet l : ∀ s s',
  (∀ b a, b ∈ l → cachedAccounts s !! b = Some a → storageStep a ≠ storageUpdated) →
  CommitLoop l s = Continue s' → kv s' = kv s.
Proof.
  induction l as [|x l IH]; intros s s' Hq Hrun.
  - by injection Hrun as <-.
  - simpl in Hrun. destruct (CommitBody x s) as [s1| |] eqn:Hx; [|done..].
    assert (H1 : kv s1 = kv s ∧
                 ∀ b a, cachedAccounts s1 !! b = Some a → cachedAccounts s !! b = Some a).
    { revert Hx. unfold CommitBody.
      destruct (cachedAccounts s !! x) as [ax|] eqn:Hax; [|by intros [= <-]].
      pose proof (Hq x ax (list_elem_of_here _ _) Hax) as Hne.
      destruct (storageStep ax); [| |done].
      all: intros [= <-]; simpl; split; [done|].
      all: by intros b a [_ ?]%lookup_delete_Some. }
    destruct H1 as [Hkv Hsub].
    rewrite <- Hkv. apply IH; [|done].
    intros b a Hb Hs1. apply (Hq b a); [by apply list_elem_of_further|by apply Hsub].
Qed.

Lemma CommitLoop_sole addr a st l : ∀ s s',
  NoDup l → addr ∈ l →
  cachedAccounts s !! addr = Some a →
  storageStep a = storageUpdated → storageTrie a = Some st →
  (∀ b ab, b ≠ addr → cachedAccounts s !! b = Some ab → storageStep ab ≠ storageUpdated) →
  CommitLoop l s = Continue s' →
  ∃ st' h', TrieCommit (kv s) st = (st', kv s', Ok h').
Proof.
  induction l as [|x l IH]; intros s s' Hnd Hin Ha Hstep Hst Hsole Hrun;
    [by apply elem_of_nil in Hin|].
  apply NoDup_cons in Hnd as [Hx Hnd]. simpl in Hrun.
  destruct (CommitBody x s) as [s1| |] eqn:Hbody; [|done..].
  destruct (decide (x = addr)) as [->|Hne].
  - revert Hbody. unfold CommitBody. rewrite Ha, Hstep, (getTrie_handle _ _ _ Ha).
    unfold handle. rewrite Hst.
    destruct (TrieCommit _ _) as [[st' db] [h'|e]] eqn:Hc; [|done].
    intros [= <-]. exists st', h'.
    pose proof (λ Hq, CommitLoop_quiet l _ s' Hq Hrun) as Hq.
    rewrite Hq; [done|].
    intros b ab Hb. simpl. rewrite lookup_delete_Some. intros [Hba Hlook].
    rewrite lookup_alter_ne, lookup_insert_ne in Hlook by done.
    apply (Hsole b ab); [|done]. by intros ->.
  - assert (H1 : kv s1 = kv s ∧ cachedAccounts s1 !! addr = Some a ∧
                 ∀ b ab, cachedAccounts s1 !! b = Some ab → cachedAccounts s !! b = Some ab).
    { revert Hbody. unfold CommitBody.
      destruct (cachedAccounts s !! x) as [ax|] eqn:Hax; [|by intros [= <-]].
      pose proof (Hsole x ax Hne Hax) as Hnx.
      destruct (storageStep ax); [| |done].
      all: intros [= <-]; simpl; split; [done|].
      all: split; [by rewrite lookup_delete_ne|].
      all: by intros b ab [_ ?]%lookup_delete_Some. }
    destruct H1 as (Hkv & Ha1 & Hsub). rewrite <- Hkv.
    apply (IH s1 s'); try done.
    + by apply elem_of_cons in Hin as [?|?].
    + intros b ab Hb Hlook. apply (Hsole b ab Hb). by apply Hsub.
Qed.

(** X19. Storage survives [Commit].  For a non-empty pending account
    that is the only cached account with storage activity, a value of its
    overlay is what [GetStorage] returns in a state opened by [New] at the
    root that a [Commit] without fault returned: [Commit] commits the
    storage trie, the record in the global trie carries its digest, and
    [GetStorage] opens the trie from that digest and reads the value
    back.  The backend is asked for the read and write laws, for a
    committed trie to open again from its root, also after the commit of
    a trie with another digest, and for its codecs to read back what they
    wrote for the account and the value; the digest of the storage trie
    is not the root [Commit] returns.  On a backend on which nothing
    fails, a state with no fault recorded always gets such a [Commit] and
    [New]. *)
Theorem storage_survives_Commit sc s addr a key value st0 :
  order_ok sc → ReadLaws B → WriteLaws B → Durable B → DurableStorage B →
  cachedAccounts s !! addr = Some a → isEmpty a = false →
  storageStep a = storageSet → storage a !! key = Some value →
  handle (kv s) a = Ok st0 →
  soleStorage addr s →
  normal (codeHash a) → codeStored (kv s) a →
  valueReadsBack value →
  (∀ h s' s2,
     Commit sc s = Return h s' → Error s' = None →
     TrieHash (pushAll (kv s) st0 (rangeStorage sc (storage a))) ≠ h →
     New h (kv s') = Ok s2 →
     ∃ s3, GetStorage addr key s2 = Return value s3 ∧
           overlayAt addr key s3 = Some value ∧ Error s3 = None) ∧
  (FaultFree B → Error s = None →
   ∃ h s' s2, Commit sc s = Return h s' ∧ Error s' = None ∧ New h (kv s') = Ok s2).
Proof.
  intros Hok laws wl dur ds Ha He Hstep Hkey Hh Hsole Hnc Hcode (Hlen & c & Hsplit & Hc).
  split.
  2:{ intros ff Herr.
      destruct (Commit_returns_ff ff sc s Hok) as (h & s' & Hret & Herr').
      rewrite Herr in Herr'.
      destruct (Commit_no_fault_inv _ _ _ _ Hret Herr') as (_ & s1 & _ & _ & _ & Hcommit & _).
      destruct (dur_reopen dur _ _ _ _ _ Hcommit) as (t2 & Hopen & _).
      exists h, s', (mkState t2 (kv s') ∅ None). repeat split; [done..|].
      unfold New. by rewrite Hopen. }
  intros h s' s2 Hret Herr Hdist Hnew.
  set (l := rangeStorage sc (storage a)) in *.
  set (st := pushAll (kv s) st0 l) in *.
  destruct (Commit_reloads sc s addr a h s' s2) as (a1 & Hp & _ & Hc2 & Hkv2 & Hload);
    try done; [by right|by left|].
  destruct (Hload s2 (or_intror eq_refl)) as [Hacc _]. clear Hload.
  unfold passed in Hp. rewrite Hstep, Hh in Hp.
  destruct Hp as (st0' & [= <-] & Hpush & ->). simpl in Hacc. fold l in Hacc. fold st in Hacc.
  destruct (Commit_no_fault_inv _ _ _ _ Hret Herr)
    as (s0 & s1 & Hroot & Herr0 & Hloop & Hcommit & _).
  destruct (RootLoop_frame _ _ _ _ Hroot) as [Hkv0 _].
  assert (Ha0 : cachedAccounts s0 !! addr = Some (set_isDirty false (syncAccount sc (kv s) st0 a))).
  { rewrite (Root_completes_entry sc s s0 addr Hok Hroot), Ha. simpl.
    unfold rootEntry. by rewrite He, Hstep, Hh. }
  assert (Hsole0 : ∀ b ab, b ≠ addr → cachedAccounts s0 !! b = Some ab →
                           storageStep ab ≠ storageUpdated).
  { intros b ab Hb. rewrite (Root_completes_entry sc s s0 b Hok Hroot).
    destruct (cachedAccounts s !! b) as [ab0|] eqn:Hb0; [simpl|done].
    pose proof (Hsole b ab0 Hb Hb0) as Hs0. unfold rootEntry.
    destruct (isEmpty ab0); [done|]. rewrite Hs0. intros [= <-]. simpl. by rewrite Hs0. }
  destruct (order_ok_accounts sc (cachedAccounts s0) Hok) as [Hnd0 Hin0].
  assert (Hl0 : addr ∈ rangeAccounts sc (cachedAccounts s0)) by (apply Hin0; by rewrite Ha0).
  destruct (CommitLoop_sole addr _ st _ _ _ Hnd0 Hl0 Ha0 eq_refl eq_refl Hsole0 Hloop)
    as (st' & h' & Hcst).
  destruct (dur_reopen dur _ _ _ _ _ Hcst) as (t3 & Hopen3 & Hreads3).
  assert (Hh' : h' = TrieHash st).
  { apply (ds_digest ds (kv s0)). by rewrite Hcst. }
  subst h'.
  assert (Hh2 : h = TrieHash (trie s1)).
  { apply (ds_digest ds (kv s1)). by rewrite Hcommit. }
  assert (Hopen : NewSecure (TrieHash st) (kv s') = Ok t3).
  { pose proof (ds_other ds (kv s1) (trie s1) (TrieHash st) t3) as Ho.
    rewrite Hcommit in Ho. simpl in Ho. apply Ho; [by rewrite <- Hh2|done]. }
  destruct (order_ok_storage sc (storage a) Hok) as [Hnds Hins].
  assert (Hread : TryGet (kv s') t3 (hash_bytes key) = Ok (encValue value)).
  { rewrite (read_commit_other laws _ _ _ _ _ _ _ Hcommit), Hreads3, Hkv0.
    apply pushAll_read; try done. by apply Hins. }
  unfold GetStorage. rewrite Hc2, lookup_empty. simpl. rewrite Hacc.
  erewrite getTrie_handle by apply cache_put_lookup.
  unfold handle at 1. simpl. rewrite Hkv2, Hopen. simpl. rewrite Hkv2, Hread.
  destruct (decide _) as [H0|_]; [done|].
  rewrite Hsplit, Hc. eexists. split; [done|]. split.
  - unfold overlayAt. rewrite modify_lookup. simpl. rewrite !lookup_insert_eq. simpl.
    by rewrite lookup_insert_eq.
  - simpl. unfold New in Hnew. destruct (NewSecure h (kv s')); [|done].
    by injection Hnew as <-.
Qed.

End Behaviour.

(** * The in-memory backend as an instance *)

Lemma ascending_ok {B : Backend} : order_ok (@ascending B).
Proof. split; intros m; reflexivity. Qed.

Lemma descending_ok {B : Backend} : order_ok (@descending B).
Proof. split; intros m; simpl; apply reverse_Permutation. Qed.

Lemma Mem_sound_ReadLaws : ReadLaws Mem.sound.
Proof.
  split; simpl.
  - done.
  - intros db t k t' [= <-]. by rewrite lookup_delete_eq.
  - intros db t k k' t' Hne [= <-]. by rewrite lookup_delete_ne.
  - intros db t k v k' t' Hne [= <-]. by rewrite lookup_insert_ne.
  - by intros db t t' db' h k [= <- _ _].
  - done.
Qed.

Lemma Mem_sound_FaultFree : FaultFree Mem.sound.
Proof. split; simpl; eauto. Qed.

Lemma Mem_sound_Canonical : Canonical Mem.sound.
Proof.
  split; simpl.
  - done.
  - done.
  - intros db t k1 v1 k2 v2 Hne. by apply insert_insert_ne.
  - intros db t k1 v1 k2 Hne. by apply delete_insert_ne.
  - intros db t k1 k2 Hne. apply delete_delete.
  - by intros db t h [= <-].
Qed.

(** * The theorems at concrete states *)

Section Concrete.
Import Mem Examples.

Lemma SetStorage_GetStorage_witness :
  @GetStorage sound A K (@SetStorage sound A K V (fresh never never)) =
    Return V (@SetStorage sound A K V (fresh never never)).
Proof.
  exact (@SetStorage_GetStorage sound A K V (fresh never never) _ _ eq_refl).
Defined.


(** C4: the second failure replaces the first in the fault flag. *)
Lemma first_fault_is_overwritten :
  faulted = (@GetBalance (backend brokenAccounts never) A (fresh brokenAccounts never)).2 ∧
  Error faulted = Some A ∧
  Error (@GetBalance (backend brokenAccounts never) A' faulted).2 = Some A' ∧
  Error (@GetBalance (backend brokenAccounts never) A' faulted).2 ≠ Error faulted.
Proof.
  repeat split. intros H. discriminate H.
Qed.

Lemma failing_accessor_overwrites_fault_witness :
  Error faulted = Some A ∧
  (@GetBalance (backend brokenAccounts never) A' faulted).1 = 0 ∧
  Error (@GetBalance (backend brokenAccounts never) A' faulted).2 = Some A'.
Proof.
  destruct (@failing_accessor_overwrites_fault (backend brokenAccounts never)
              A' K V 0 None faulted A' _ eq_refl) as (Hb & _ & _ & _ & _ & _ & He & _).
  split; [reflexivity|]. split; [exact (f_equal fst Hb)|exact He].
Defined.

(** C5: a read of a key the trie does not hold leaves the overlay empty. *)
Lemma GetStorage_absent_key_not_cached :
  ∃ s', @GetStorage sound A K (fresh never never) = Return (@zeroHash sound) s' ∧
        Error s' = None ∧
        @overlayAt sound A K s' = None ∧
        @overlayAt sound A K s' ≠ Some (@zeroHash sound).
Proof. eexists. split; [reflexivity|]. repeat split. intros H. discriminate H. Qed.

Lemma GetStorage_miss_witness :
  ∃ s3, @GetStorage sound A K reopened = Return V s3 ∧
        @overlayAt sound A K s3 = Some V ∧
        @GetStorage sound A K s3 = Return V s3.
Proof.
  destruct (@GetStorage_miss sound A K reopened _ _ _ _ _ eq_refl eq_refl eq_refl eq_refl)
    as [_ H].
  eexists. exact H.
Defined.

Lemma Root_prunes_empty_account_witness :
  (@Exists sound A reopened).1 = true ∧
  @Root sound ascending drained = Return (@TrieHash sound (trie drainedRooted)) drainedRooted ∧
  @Exists sound A drainedRooted = (false, drainedRooted) ∧
  @Commit sound ascending drained =
    Return (@TrieHash sound (trie drainedCommitted)) drainedCommitted ∧
  @Exists sound A drainedCommitted = (false, drainedCommitted).
Proof.
  destruct (@Root_prunes_empty_account sound ascending drained A _
              ascending_ok Mem_sound_ReadLaws eq_refl eq_refl)
    as (_ & _ & _ & HR & HC & _).
  split; [reflexivity|]. split; [reflexivity|].
  split; [exact (proj2 (HR _ drainedRooted eq_refl eq_refl))|].
  split; [reflexivity|].
  exact (proj2 (HC _ drainedCommitted eq_refl eq_refl)).
Defined.

(** C3: a failing storage-trie update in [Root] is neither recorded nor
    answered with the zero hash; and [Commit] goes on after a [Root] that
    failed. *)
Theorem Root_storage_update_failure :
  @updateStorage (backend never brokenSlot) ascending A fundedBrokenSlot =
    Return (None, None) slotFailed ∧
  Error slotFailed = None ∧
  @Root (backend never brokenSlot) ascending fundedBrokenSlot = Panic ∧
  @Commit (backend never brokenSlot) ascending fundedBrokenSlot = Panic ∧
  @Root (backend never brokenAccountWrite) descending twoAccounts =
    Return (@zeroHash (backend never brokenAccountWrite)) twoRooted ∧
  Error twoRooted = Some A' ∧
  @Commit (backend never brokenAccountWrite) descending twoAccounts =
    Return (@TrieHash (backend never brokenAccountWrite) (trie twoRooted)) twoCommitted ∧
  @TrieHash (backend never brokenAccountWrite) (trie twoRooted) ≠
    @zeroHash (backend never brokenAccountWrite) ∧
  Error twoCommitted = Some A'.
Proof.
  repeat split. intros H. discriminate H.
Qed.

(** The emptiness test comes first: [Root] deletes a [storageSet]
    account that is empty, and its overlay is never written to a storage
    trie. *)
Lemma Root_drops_pending_empty_account :
  pendingEmpty = @SetStorage sound A K V (fresh never never) ∧
  (@storageStep sound <$> cachedAccounts pendingEmpty !! A) = Some storageSet ∧
  @Root sound ascending pendingEmpty =
    Return (@TrieHash sound (trie pendingEmptyRooted)) pendingEmptyRooted ∧
  Error pendingEmptyRooted = None ∧
  cachedAccounts pendingEmptyRooted !! A = None.
Proof. repeat split. Qed.

Lemma storage_phase_machine_witness :
  @Root_completes sound ascending fundedSound rooted ∧
  cachedAccounts rooted !! A =
    Some (@mkCached sound false storageUpdated 5 None
            (@BytesToHash sound (@Keccak256 sound []))
            (@TrieHash sound (<[K := [x07]]> ∅)) ∅ (Some (<[K := [x07]]> ∅))).
Proof.
  destruct (@storage_phase_machine sound ascending A ascending_ok) as (_ & Hsync & _).
  destruct (Hsync fundedSound rooted _ eq_refl eq_refl eq_refl eq_refl)
    as (st0 & Hh & _ & _ & _ & Hend).
  injection Hh as <-.
  split; [reflexivity|exact Hend].
Defined.

Lemma Root_twice_same_digest_witness :
  @Root sound ascending fundedSound = Return (@TrieHash sound (trie rooted)) rooted ∧
  @Root sound descending rooted = Return (@TrieHash sound (trie rooted)) rooted ∧
  kv rooted = kv fundedSound.
Proof.
  destruct (@Root_twice_same_digest sound ascending descending fundedSound
              ascending_ok) as (Hkv & Htwice & _).
  destruct (Htwice rooted eq_refl) as [H1 H2].
  split; [exact H1|]. split; [exact H2|]. exact (Hkv _ _ H1).
Defined.

Lemma Commit_deterministic_witness :
  ∃ h s1 s2,
    @Commit sound ascending (apply_mutations script (fresh never never)) = Return h s1 ∧
    @Commit sound descending (apply_mutations script (fresh never never)) = Return h s2.
Proof.
  exact (@Commit_deterministic sound ascending descending (@zeroHash sound) emptyStore
           script (fresh never never) (fresh never never)
           Mem_sound_FaultFree Mem_sound_Canonical
           ascending_ok descending_ok eq_refl eq_refl).
Defined.

Lemma read_creates_cache_entry_witness :
  @Exists sound A (fresh never never) = (false, fresh never never) ∧
  (@GetBalance sound A (fresh never never)).1 = 0 ∧
  (@Exists sound A (@GetBalance sound A (fresh never never)).2).1 = true.
Proof.
  destruct (@read_creates_cache_entry sound ascending A (fresh never never) []
              ascending_ok eq_refl eq_refl eq_refl)
    as (He & Hb & _ & He' & _).
  split; [exact He|]. split; [exact (f_equal fst Hb)|].
  rewrite Hb. exact (f_equal fst He').
Defined.

End Concrete.

(** * The further laws on the in-memory backend *)

Lemma Mem_sound_WriteLaws : WriteLaws Mem.sound.
Proof.
  split; simpl.
  - done.
  - intros db t k v t' [= <-]. by rewrite lookup_insert_eq.
Qed.

Lemma pad32_length (b : bytes) : length (Mem.pad32 b) = 32%nat.
Proof.
  unfold Mem.pad32. destruct (decide _) as [H|H].
  - rewrite length_app, length_replicate. lia.
  - rewrite length_drop. lia.
Qed.

Lemma pad32_fix (b : bytes) : length b = 32%nat → Mem.pad32 b = b.
Proof.
  intros H. unfold Mem.pad32. rewrite H.
  destruct (decide _) as [_|Hn]; [done|lia].
Qed.

Lemma byte_of_N_to_N (n : N) : (n < 256)%N → Byte.to_N (Mem.byte_of_N n) = n.
Proof.
  intros H. unfold Mem.byte_of_N. destruct (Byte.of_N n) as [b|] eqn:Hb.
  - by apply Byte.to_of_N.
  - apply Byte.of_N_None_iff in Hb. lia.
Qed.

Lemma N_to_le_value (fuel : nat) : ∀ n : N,
  (n < 2 ^ N.of_nat fuel)%N →
  foldr (λ c acc, acc * 256 + Byte.to_N c)%N 0%N (Mem.N_to_le fuel n) = n.
Proof.
  induction fuel as [|fuel IH]; intros n Hn.
  - simpl in *. lia.
  - simpl. destruct (n =? 0)%N eqn:Hz; [apply N.eqb_eq in Hz; by subst|].
    simpl. rewrite IH.
    + rewrite byte_of_N_to_N by (apply N.mod_lt; lia).
      rewrite (N.div_mod n 256) at 3 by lia. lia.
    + rewrite Nat2N.inj_succ, N.pow_succ_r' in Hn.
      apply N.Div0.div_lt_upper_bound. lia.
Qed.

Lemma be_to_N_reverse (l : bytes) :
  Mem.be_to_N (reverse l) = foldr (λ c acc, acc * 256 + Byte.to_N c)%N 0%N l.
Proof.
  unfold Mem.be_to_N. induction l as [|c l IH]; [done|].
  rewrite reverse_cons, foldl_app. simpl. by rewrite IH.
Qed.

Lemma be_to_N_to_be (n : N) : Mem.be_to_N (Mem.N_to_be n) = n.
Proof.
  unfold Mem.N_to_be. rewrite be_to_N_reverse. apply N_to_le_value.
  destruct (decide (n = 0%N)) as [->|Hn]; [done|].
  rewrite Nat2N.inj_succ, N2Nat.id. apply N.log2_spec. lia.
Qed.

Lemma Mem_sound_Durable : Durable Mem.sound.
Proof.
  split.
  - intros db t t' db' h [= <- <- <-]. exists t. split; [|done].
    simpl. by rewrite lookup_insert_eq.
  - by intros db t t' db' r k [= _ <- _].
  - intros t. apply pad32_fix, pad32_length.
  - intros [bal ch sr] enc Hc Hs Henc.
    change (Mem.pad32 ch = ch) in Hc. change (Mem.pad32 sr = sr) in Hs.
    cbv [rlpEncodeAccount Mem.sound Mem.backend] in Henc. injection Henc as <-.
    cbv [rlpDecodeAccount Mem.sound Mem.backend].
    assert (Hlc : length ch = 32%nat) by (rewrite <- Hc; apply pad32_length).
    assert (Hls : length sr = 32%nat) by (rewrite <- Hs; apply pad32_length).
    unfold Mem.encodeAccount, Mem.decodeAccount.
    cbn [Balance CodeHash StorageRoot]. rewrite Hc, Hs.
    split. { rewrite !length_app. cbn [length]. lia. }
    symmetry in Hlc, Hls.
    rewrite (take_app_length' _ _ _ Hlc).
    rewrite (drop_app_length' _ _ 32 Hlc), (take_app_length' _ _ _ Hls).
    replace 64%nat with (32 + 32)%nat by done.
    rewrite <- drop_drop, (drop_app_length' _ _ 32 Hlc), (drop_app_length' _ _ 32 Hls).
    rewrite be_to_N_to_be, N2Z.inj_abs_N.
    f_equal. f_equal.
    destruct (decide (bal < 0)); destruct (decide _); try done; lia.
Qed.

Lemma Mem_sound_DurableStorage : DurableStorage Mem.sound.
Proof.
  split.
  - by intros db t h [= <-].
  - intros db t h t1 Hne. simpl. by rewrite lookup_insert_ne.
Qed.

(** * The further properties at concrete states *)

Section Scenes.
Import Mem Examples Scenarios.

Lemma SetBalance_GetBalance_witness :
  @GetBalance sound A (@SetBalance sound A 5 (fresh never never)) =
    (5, @SetBalance sound A 5 (fresh never never)).
Proof.
  exact (proj1 (@SetBalance_GetBalance sound A 5 (fresh never never) _ _ eq_refl)).
Defined.

Lemma SetCode_GetCode_witness :
  @GetCode sound A (@SetCode sound A (Some [x01; x02]) (fresh never never)) =
    (Some [x01; x02], @SetCode sound A (Some [x01; x02]) (fresh never never)).
Proof.
  exact (proj1 (@SetCode_GetCode sound A (Some [x01; x02]) (fresh never never) _ _ eq_refl)).
Defined.

Lemma overwrite_leaves_no_trace_witness :
  @SetBalance sound A 7 (@SetBalance sound A 5 (fresh never never)) =
    @SetBalance sound A 7 (fresh never never) ∧
  @SetStorage sound A K V (@SetStorage sound A K K' (fresh never never)) =
    @SetStorage sound A K V (fresh never never).
Proof.
  destruct (@overwrite_leaves_no_trace sound A K 5 7 K' V (fresh never never) _ _ eq_refl)
    as (H1 & H2 & _).
  split; [exact H1|exact H2].
Defined.

Lemma Delete_forgets_account_witness :
  @Exists sound A rooted = (true, rooted) ∧
  @Exists sound A deleted = (false, deleted) ∧
  (@GetBalance sound A deleted).1 = 0.
Proof.
  destruct (@Delete_forgets_account sound A rooted Mem_sound_ReadLaws)
    as (_ & _ & _ & H & _).
  destruct (H _ eq_refl) as (_ & He & Hb & _).
  split; [reflexivity|]. split; [exact He|exact (f_equal fst Hb)].
Defined.

Lemma Root_result_witness :
  @Root_completes sound ascending fundedSound rooted ∧
  @Root sound ascending fundedSound = Return (@TrieHash sound (trie rooted)) rooted.
Proof.
  destruct (@Root_result sound ascending fundedSound (@TrieHash sound (trie rooted)) rooted eq_refl) as [[H _]|[_ H]].
  - split; [exact H|reflexivity].
  - exfalso. apply H. reflexivity.
Defined.

Lemma Commit_clears_cache_witness :
  cachedAccounts fundedSound !! A ≠ None ∧
  cachedAccounts committed = ∅.
Proof.
  split; [intros H; discriminate H|].
  destruct (@Commit_clears_cache sound ascending fundedSound committedRoot committed
              ascending_ok eq_refl) as [[_ H]|[H _]].
  - exfalso. apply H. reflexivity.
  - exact H.
Defined.

Lemma Root_keeps_nonempty_accounts_witness :
  ∃ a', cachedAccounts rooted !! A = Some a' ∧
        balance a' = 5 ∧ code a' = None ∧
        codeHash a' = @BytesToHash sound (@Keccak256 sound []) ∧ settled a'.
Proof.
  exact (proj1 (@Root_keeps_nonempty_accounts sound ascending fundedSound ascending_ok)
           rooted eq_refl A).
Defined.

Lemma SetCode_nil_decides_pruning_witness :
  ∃ a', cachedAccounts emptyCodeRooted !! A = Some a' ∧
        code a' = Some [] ∧ balance a' = 0.
Proof.
  exact (proj1 (@SetCode_nil_decides_pruning sound ascending A [] (fresh never never) _ _
                  ascending_ok eq_refl) emptyCodeRooted eq_refl).
Defined.

Lemma Root_panic_cause_witness :
  ∃ addr a st0,
    cachedAccounts fundedBrokenSlot !! addr = Some a ∧ isEmpty a = false ∧
    storageStep a = storageSet ∧
    @handle (backend never brokenSlot) (kv fundedBrokenSlot) a = Ok st0 ∧
    @pushOk (backend never brokenSlot) (kv fundedBrokenSlot) st0
      (rangeStorage ascending (storage a)) = false.
Proof.
  exact (proj1 (@Root_panic_cause (backend never brokenSlot) ascending fundedBrokenSlot
                  ascending_ok) eq_refl).
Defined.

Lemma Root_writes_account_record_witness :
  ∃ a' enc,
    cachedAccounts rooted !! A = Some a' ∧
    @rlpEncodeAccount sound (recordOf a') = Ok enc ∧
    @TryGet sound (kv rooted) (trie rooted) A = Ok enc ∧
    storageRoot a' = @TrieHash sound (<[K := [x07]]> ∅).
Proof.
  destruct (proj1 (@Root_writes_account_record sound ascending fundedSound A fundedEntry
                     ascending_ok Mem_sound_ReadLaws Mem_sound_WriteLaws
                     eq_refl eq_refl (or_introl eq_refl)) rooted eq_refl eq_refl)
    as (a' & enc & Hc & Henc & Hr & _ & _ & st0 & Hh & _ & Hroot).
  injection Hh as <-.
  exists a', enc. split; [exact Hc|]. split; [exact Henc|]. split; [exact Hr|exact Hroot].
Defined.

Lemma GetStorage_after_Root_witness :
  @GetStorage sound A K fundedSound = Return V fundedSound ∧
  @overlayAt sound A K rooted = None ∧
  ∃ s2, @GetStorage sound A K rooted = Return V s2 ∧ @overlayAt sound A K s2 = Some V.
Proof.
  destruct (@GetStorage_after_Root sound ascending fundedSound A fundedEntry K V [x07]
              ascending_ok Mem_sound_ReadLaws Mem_sound_WriteLaws
              eq_refl eq_refl eq_refl eq_refl
              (λ H, O_S _ (eq_sym H)) eq_refl eq_refl)
    as (H1 & Hafter & _).
  destruct (Hafter rooted eq_refl) as (H2 & s2 & H3 & H4 & _).
  split; [exact H1|]. split; [exact H2|]. exists s2. split; [exact H3|exact H4].
Defined.

Lemma account_survives_Commit_witness :
  @Commit sound ascending fundedSound = Return committedRoot committed ∧
  @New sound committedRoot (kv committed) = Ok reopened ∧
  (@GetBalance sound A committed).1 = 5 ∧
  (@GetBalance sound A reopened).1 = 5 ∧
  @Exists sound A reopened = (true, reopened).
Proof.
  destruct (proj1 (@account_survives_Commit sound ascending fundedSound A fundedEntry
                     ascending_ok Mem_sound_ReadLaws Mem_sound_WriteLaws Mem_sound_Durable
                     eq_refl eq_refl (or_introl eq_refl) eq_refl eq_refl eq_refl)
                  committedRoot committed reopened eq_refl eq_refl eq_refl)
    as (_ & _ & root & (_ & Hb1 & _) & (He2 & Hb2 & _)).
  split; [reflexivity|]. split; [reflexivity|].
  split; [exact (f_equal fst Hb1)|]. split; [exact (f_equal fst Hb2)|exact He2].
Defined.

Lemma Commit_returns_Root_digest_witness :
  ∃ s0, @Root sound ascending fundedSound = Return committedRoot s0 ∧ Error s0 = None.
Proof.
  exact (proj1 (@Commit_returns_Root_digest sound ascending fundedSound
                  (@can_commit_digest sound Mem_sound_Canonical))
           committedRoot committed eq_refl eq_refl).
Defined.

Lemma fault_flag_is_sticky_witness :
  Error faulted = Some A ∧
  Error (@SetBalance (backend brokenAccounts never) A 5 faulted) ≠ None ∧
  Error (@Delete (backend brokenAccounts never) A' faulted) ≠ None.
Proof.
  destruct (@fault_flag_is_sticky (backend brokenAccounts never) ascending A' K V 5 None
              faulted (Some_ne_None _))
    as (_ & _ & _ & _ & _ & _ & Hd & _).
  destruct (@fault_flag_is_sticky (backend brokenAccounts never) ascending A K V 5 None
              faulted (Some_ne_None _))
    as (_ & _ & _ & Hs & _).
  split; [reflexivity|]. split; [exact Hs|exact Hd].
Defined.

Lemma Root_order_independent_witness :
  ∃ h s', @Root sound ascending scripted = Return h s' ∧
          @Root sound descending scripted = Return h s'.
Proof.
  destruct (@Root_order_independent sound ascending descending scripted
              Mem_sound_FaultFree Mem_sound_Canonical ascending_ok descending_ok)
    as (h & s' & H1 & H2 & _).
  exists h, s'. split; [exact H1|exact H2].
Defined.

Lemma fundedSound_sole : @soleStorage sound A fundedSound.
Proof.
  intros b a Hb.
  change (cachedAccounts fundedSound) with (<[A := fundedEntry]> (∅ : gmap bytes (cachedAccount sound))).
  rewrite lookup_insert_ne by done. by rewrite lookup_empty.
Qed.


Lemma fundedSound_roots_differ : fundedStorageRoot ≠ committedRoot.
Proof. unfold fundedStorageRoot, committedRoot. intros H. discriminate H. Qed.

Lemma storage_survives_Commit_witness :
  @Commit sound ascending fundedSound = Return committedRoot committed ∧
  @New sound committedRoot (kv committed) = Ok reopened ∧
  ∃ s3, @GetStorage sound A K reopened = Return V s3 ∧
        @overlayAt sound A K s3 = Some V ∧ Error s3 = None.
Proof.
  split; [reflexivity|]. split; [reflexivity|].
  exact (proj1 (@storage_survives_Commit sound ascending fundedSound A fundedEntry K V ∅
                  ascending_ok Mem_sound_ReadLaws Mem_sound_WriteLaws Mem_sound_Durable
                  Mem_sound_DurableStorage eq_refl eq_refl eq_refl eq_refl eq_refl
                  fundedSound_sole eq_refl eq_refl
                  (conj (λ H, O_S _ (eq_sym H)) (ex_intro _ [x07] (conj eq_refl eq_refl))))
           committedRoot committed reopened eq_refl eq_refl
           fundedSound_roots_differ eq_refl).
Defined.

End Scenes.
